(** * CtrlTree: the skins2 tree/list control (ctrl_tree.cpp)

    A shallow embedding of [CtrlTree] from
    [modules/gui/skins2/controls/ctrl_tree.cpp] and of the parts of its
    collaborators ([VarTree], [VarPercent], [GenericFont], [OSGraphics])
    that the control calls.

    Conventions.
    - C [int] values are [Z]; item counts and pixel sizes are assumed to fit
      in an [int], so no signed overflow (undefined in C) is modelled.
      [/] on [int] is [Z.quot] (truncation toward zero).
    - C [double] and [float] values are IEEE 754 binary64 and binary32
      numbers, built on [SpecFloat] with rounding to nearest, ties to even.
    - A [VarTree::Iterator] is either a reference to a node or the
      past-the-end iterator of the root; a node is referred to through its
      [m_id], which stands for the node's address.  The well-formedness
      predicate [wf_tree] says that ids are pairwise distinct.
    - Loops over iterators are written with a fuel argument; the callers
      supply the length of the traversal, which is enough for a well-formed
      tree: see [forEach_runList], [findItemAtPos_nth], [nextLive_skipDeleted],
      [walkBack_nearest], [walkBack_to_start] and the [*_fuel] lemmas. *)

From Stdlib Require Import String.
From Stdlib Require Import ZArith List Bool Lia.
From Stdlib Require Import Floats.SpecFloat.
Import ListNotations.
Local Open Scope Z_scope.

Set Implicit Arguments.
Set Warnings "-register-all".

(** ** IEEE 754 arithmetic used by the control *)

Module Fp.

Definition double := spec_float.
Definition float := spec_float.

Definition prec64 : Z := 53.
Definition emax64 : Z := 1024.
Definition prec32 : Z := 24.
Definition emax32 : Z := 128.

(** [(double)n] for an [int] n. *)
Definition d_of_int (n : Z) : double := binary_normalize prec64 emax64 n 0 false.
(** [(float)n] for an [int] n. *)
Definition f_of_int (n : Z) : float := binary_normalize prec32 emax32 n 0 false.

(** Promotion of a [float] to [double]; exact. *)
Definition d_of_float (x : float) : double :=
  match x with
  | S754_finite s m e => binary_normalize prec64 emax64 (cond_Zopp s (Zpos m)) e s
  | _ => x
  end.

Definition d_one : double := d_of_int 1.

Definition d_add : double -> double -> double := SFadd prec64 emax64.
Definition d_sub : double -> double -> double := SFsub prec64 emax64.
Definition d_mul : double -> double -> double := SFmul prec64 emax64.
Definition d_div : double -> double -> double := SFdiv prec64 emax64.
Definition f_div : float -> float -> float := SFdiv prec32 emax32.

(** Nearest integer to [m * 2^e] for [m > 0], ties to the even one. *)
Definition round_half_even (m e : Z) : Z :=
  if 0 <=? e then m * 2 ^ e
  else
    let d := 2 ^ (- e) in
    let q := m / d in
    let r := m mod d in
    if 2 * r <? d then q
    else if d <? 2 * r then q + 1
    else if Z.even q then q else q + 1.

(** [lrint] in the default rounding mode.  Its value on infinities and NaN
    is unspecified by C; the model takes 0 there. *)
Definition lrint (x : double) : Z :=
  match x with
  | S754_zero _ => 0
  | S754_finite s m e => cond_Zopp s (round_half_even (Zpos m) e)
  | S754_infinity _ | S754_nan => 0
  end.

(** [(int)x] for a [double] x: truncation toward zero. *)
Definition trunc (x : double) : Z :=
  match x with
  | S754_finite s m e =>
      cond_Zopp s (if 0 <=? e then Zpos m * 2 ^ e else Zpos m / 2 ^ (- e))
  | _ => 0
  end.

(** The constant [1.5]. *)
Definition d_1_5 : double := d_div (d_of_int 3) (d_of_int 2).

End Fp.

(** ** The tree variable (VarTree)

    The control is given a [VarTree &].  The class is declared in
    utils/var_tree.hpp and defined in utils/var_tree.cpp, which are not part
    of this file: what the control uses of it is modelled here from the
    description of the traversal adapter and of the model collaborator. *)

Definition UString := string.

(** Modelled from the spec: the class VarTree (var_tree.hpp), a node of the
    tree with "identity (stable id), ordered child sequence, display label,
    selected flag, expanded flag, deleted flag, is the currently
    active/playing entity flag".  [m_id] stands for the address of the node;
    [m_cString] is the label, which [getString] may return as a null
    pointer. *)
Inductive VarTree : Type :=
  mkVarTree {
      m_id : Z;
      m_cString : option UString;
      m_selected : bool;
      m_playing : bool;
      m_expanded : bool;
      m_deleted : bool;
      m_children : list VarTree
    }.

(** Modelled from the spec: VarTree::Iterator (var_tree.hpp), "an item
    reference" or "an explicit end sentinel": a node, or [end()] of the
    root. *)
Inductive Iterator : Type :=
| It (id : Z)
| End.

(** [a == b] on iterators. *)
Definition Iterator_eqb (a b : Iterator) : bool :=
  match a, b with
  | It i, It j => i =? j
  | End, End => true
  | _, _ => false
  end.

(** Modelled from the spec: VarTree::size (var_tree.hpp), the number of
    children of a node ("ordered child sequence"). *)
Definition size (t : VarTree) : Z := Z.of_nat (length (m_children t)).

(** Every node below [t], [t] included, in document order. *)
Fixpoint allItems (t : VarTree) : list VarTree :=
  match t with
  | mkVarTree _ _ _ _ _ _ cs => t :: flat_map allItems cs
  end.

(** Modelled from the spec: the flat traversal of VarTree (firstLeaf,
    getNextLeaf, getPrevLeaf, countLeafs, getLeaf), whose code is in
    var_tree.cpp.  "In flat mode, only leaf items participate, in their
    natural document order." *)
Fixpoint leafs (t : VarTree) : list VarTree :=
  match t with
  | mkVarTree _ _ _ _ _ _ cs =>
      match cs with
      | [] => [t]
      | _ => flat_map leafs cs
      end
  end.

(** Modelled from the spec: the hierarchical traversal of VarTree (begin,
    getNextVisibleItem, getPrevVisibleItem, visibleItems, getVisibleItem),
    whose code is in var_tree.cpp.  "In hierarchical mode, only items that
    are reachable by following expanded ancestors participate, in
    depth-first pre-order." *)
Fixpoint visible (t : VarTree) : list VarTree :=
  match t with
  | mkVarTree _ _ _ _ ex _ cs =>
      t :: (if ex then flat_map visible cs else [])
  end.

(** The nodes strictly below the root: the items of the model. *)
Definition nodes (root : VarTree) : list VarTree :=
  flat_map allItems (m_children root).

Definition ids (l : list VarTree) : list Z := map m_id l.

(** Node addresses are pairwise distinct. *)
Definition wf_tree (root : VarTree) : Prop := NoDup (ids (nodes root)).

(** *** Positions in a traversal

    The traversal primitives below are read off the list of the
    participating items. *)

(** The iterator on the first element of [l]. *)
Definition head_it (l : list VarTree) : Iterator :=
  match l with
  | [] => End
  | x :: _ => It (m_id x)
  end.

(** Modelled from the spec: "given an item reference, produce the next item
    in the active mode's order, or an explicit end sentinel".  The element
    that follows node [i] in [l]; [End] after the last one, and for a node
    that is not in [l]. *)
Fixpoint nextIn (l : list VarTree) (i : Z) : Iterator :=
  match l with
  | [] => End
  | x :: r => if m_id x =? i then head_it r else nextIn r i
  end.

(** Modelled from the spec: "given an item reference, produce the previous
    item in the active mode's order".  The element that precedes node [i] in
    [l].  The spec does not say what precedes the first element, and the
    modelled callers do not ask for it before they test for the start; the
    model answers the element itself. *)
Fixpoint prevIn (l : list VarTree) (i : Z) : Iterator :=
  match l with
  | [] => End
  | x :: r =>
      if m_id x =? i then It i
      else match r with
           | [] => End
           | y :: _ => if m_id y =? i then It (m_id x) else prevIn r i
           end
  end.

(** Number of elements of [l] before node [i] (all of them if [i] is not in
    [l]). *)
Fixpoint indexIn (l : list VarTree) (i : Z) : nat :=
  match l with
  | [] => O
  | x :: r => if m_id x =? i then O else S (indexIn r i)
  end.

(** Modelled from the spec: "item at that rank (1-based, counting from
    traversal start)".  The spec does not say what the item of a rank
    outside the traversal is; the model answers [end()]. *)
Definition rankIn (l : list VarTree) (n : Z) : Iterator :=
  if n <? 1 then End
  else match nth_error l (Z.to_nat (n - 1)) with
       | Some x => It (m_id x)
       | None => End
       end.

(** The first node of [l] with address [i]. *)
Definition findIn (l : list VarTree) (i : Z) : option VarTree :=
  find (fun x => m_id x =? i) l.

(** *** The members of VarTree called by the control

    [t] is the root ([m_rTree]); the items of the model are the nodes below
    it. *)

(** The leaves below the root, the participating items of flat mode. *)
Definition flatItems (t : VarTree) : list VarTree := flat_map leafs (m_children t).
(** The visible items below the root, the participating items of
    hierarchical mode. *)
Definition visItems (t : VarTree) : list VarTree := flat_map visible (m_children t).

(** Modelled from the spec: VarTree::begin and VarTree::firstLeaf, the "root"
    and "first leaf" entry points. *)
Definition begin (t : VarTree) : Iterator := head_it (m_children t).
Definition firstLeaf (t : VarTree) : Iterator := head_it (flatItems t).

(** Modelled from the spec: VarTree::countLeafs and VarTree::visibleItems,
    "count of leaves and count of visible items". *)
Definition countLeafs (t : VarTree) : Z := Z.of_nat (length (flatItems t)).
Definition visibleItems (t : VarTree) : Z := Z.of_nat (length (visItems t)).

(** Modelled from the spec: VarTree::getNextLeaf, getPrevLeaf,
    getNextVisibleItem and getPrevVisibleItem, the "next/previous leaf" and
    "next/previous visible item" traversal primitives.  Stepping from
    [end()] is undefined in C++; the model stays on [end()]. *)
Definition getNextLeaf (t : VarTree) (it : Iterator) : Iterator :=
  match it with It i => nextIn (flatItems t) i | End => End end.
Definition getPrevLeaf (t : VarTree) (it : Iterator) : Iterator :=
  match it with It i => prevIn (flatItems t) i | End => End end.
Definition getNextVisibleItem (t : VarTree) (it : Iterator) : Iterator :=
  match it with It i => nextIn (visItems t) i | End => End end.
Definition getPrevVisibleItem (t : VarTree) (it : Iterator) : Iterator :=
  match it with It i => prevIn (visItems t) i | End => End end.

(** Modelled from the spec: VarTree::getNextItem, "ordered child enumeration
    per node": every node, expanded or not, in document order. *)
Definition getNextItem (t : VarTree) (it : Iterator) : Iterator :=
  match it with It i => nextIn (nodes t) i | End => End end.

(** Modelled from the spec: VarTree::getLeaf and VarTree::getVisibleItem,
    the "item at that rank (1-based, counting from traversal start)". *)
Definition getLeaf (t : VarTree) (n : Z) : Iterator := rankIn (flatItems t) n.
Definition getVisibleItem (t : VarTree) (n : Z) : Iterator := rankIn (visItems t) n.

(** Modelled from the spec: VarTree::getRank, "rank (1-based ordinal
    position) of a given item among participating items, by linear scan from
    the start".  The rank of an item that does not participate is undefined
    by contract; the scan then went through the whole traversal. *)
Definition getRank (t : VarTree) (it : Iterator) (flat : bool) : Z :=
  let l := if flat then flatItems t else visItems t in
  match it with
  | It i => Z.of_nat (indexIn l i) + 1
  | End => Z.of_nat (length l) + 1
  end.

(** Modelled from the spec: VarTree::findById, the "stable id lookup". *)
Definition findById (t : VarTree) (id : Z) : Iterator :=
  match findIn (nodes t) id with
  | Some _ => It id
  | None => End
  end.

(** [*it] for an iterator of the tree; [None] for [end()] and for a node that
    is no longer in the tree. *)
Definition deref (t : VarTree) (it : Iterator) : option VarTree :=
  match it with
  | It i => findIn (nodes t) i
  | End => None
  end.

(** Modelled from the spec: VarTree::isSelected, isDeleted, isExpanded and
    isPlaying, the "per-item selected/expanded/deleted/playing flags", read
    through an iterator.  Reading through [end()] or through a dangling
    iterator is undefined in C++; the model reads [false]. *)
Definition flagOf (f : VarTree -> bool) (t : VarTree) (it : Iterator) : bool :=
  match deref t it with
  | Some n => f n
  | None => false
  end.

Definition isSelected := flagOf m_selected.
Definition isDeleted := flagOf m_deleted.
Definition isExpanded := flagOf m_expanded.
Definition isPlaying := flagOf m_playing.

(** Nesting depth of every node below [t], [t] being at depth [d]. *)
Fixpoint depthsFrom (d : Z) (t : VarTree) : list (Z * Z) :=
  match t with
  | mkVarTree i _ _ _ _ _ cs => (i, d) :: flat_map (depthsFrom (d + 1)) cs
  end.

(** Modelled from the spec: VarTree::depth, the "item depth", "depth (root =
    0)": the children of the root are at depth 1. *)
Definition depth (t : VarTree) (it : Iterator) : Z :=
  match it with
  | It i =>
      match find (fun p => fst p =? i) (flat_map (depthsFrom 1) (m_children t)) with
      | Some p => snd p
      | None => 0
      end
  | End => 0
  end.

(** *** Updates of the tree *)

(** Apply [f] to the node [i], wherever it is below [t] ([t] included). *)
Fixpoint modify (i : Z) (f : VarTree -> VarTree) (t : VarTree) : VarTree :=
  match t with
  | mkVarTree id s sel pl ex del cs =>
      let t' := mkVarTree id s sel pl ex del (map (modify i f) cs) in
      if id =? i then f t' else t'
  end.

Definition withChildren (t : VarTree) (cs : list VarTree) : VarTree :=
  mkVarTree (m_id t) (m_cString t) (m_selected t) (m_playing t) (m_expanded t)
            (m_deleted t) cs.

Definition withSelected (b : bool) (n : VarTree) : VarTree :=
  mkVarTree (m_id n) (m_cString n) b (m_playing n) (m_expanded n)
            (m_deleted n) (m_children n).

Definition withExpanded (b : bool) (n : VarTree) : VarTree :=
  mkVarTree (m_id n) (m_cString n) (m_selected n) (m_playing n) b
            (m_deleted n) (m_children n).

(** Apply [f] to the node an iterator refers to.  A write through [end()] or
    through a dangling iterator is undefined in C++; in the model it reaches
    no node of the tree. *)
Definition update (f : VarTree -> VarTree) (t : VarTree) (it : Iterator) : VarTree :=
  match it with
  | It i => withChildren t (map (modify i f) (m_children t))
  | End => t
  end.

(** Modelled from the spec: VarTree::setSelected, toggleSelected,
    setExpanded and toggleExpanded, the "per-item selected/expanded flags
    (read/write)", written through an iterator. *)
Definition setSelected (t : VarTree) (it : Iterator) (b : bool) : VarTree :=
  update (withSelected b) t it.
Definition toggleSelected (t : VarTree) (it : Iterator) : VarTree :=
  update (fun n => withSelected (negb (m_selected n)) n) t it.
Definition setExpanded (t : VarTree) (it : Iterator) (b : bool) : VarTree :=
  update (withExpanded b) t it.
Definition toggleExpanded (t : VarTree) (it : Iterator) : VarTree :=
  update (fun n => withExpanded (negb (m_expanded n)) n) t it.

(** Modelled from the spec: VarTree::ensureExpanded (var_tree.cpp),
    "force-expand every ancestor of item so it participates in traversal". *)
Fixpoint expandToward (i : Z) (t : VarTree) : VarTree :=
  match t with
  | mkVarTree id s sel pl ex del cs =>
      let below := existsb (fun x => m_id x =? i) (flat_map allItems cs) in
      mkVarTree id s sel pl (if below then true else ex) del
                (map (expandToward i) cs)
  end.

Definition ensureExpanded (t : VarTree) (it : Iterator) : VarTree :=
  match it with
  | It i => withChildren t (map (expandToward i) (m_children t))
  | End => t
  end.

(** Modelled from the spec: VarTree::delSelected (var_tree.cpp), "remove all
    selected items from the model".  A removed node goes with its subtree. *)
Fixpoint pruneSelected (t : VarTree) : VarTree :=
  match t with
  | mkVarTree id s sel pl ex del cs =>
      mkVarTree id s sel pl ex del
                (flat_map (fun c => if m_selected c then [] else [pruneSelected c]) cs)
  end.

Definition delSelected (t : VarTree) : VarTree := pruneSelected t.

(** ** The control *)

(** The geometry of the control ([Position], utils/position.hpp), as the
    values its accessors return. *)
Record Position : Type :=
  mkPosition { getLeft : Z; getTop : Z; getWidth : Z; getHeight : Z }.

(** A bitmap ([GenericBitmap], src/generic_bitmap.hpp): a name and the
    values of [getWidth()] and [getHeight()]. *)
Record GenericBitmap : Type :=
  mkBitmap { bmp_name : string; bmp_width : Z; bmp_height : Z }.

(** A font ([GenericFont], src/generic_font.hpp): the value of [getSize()]
    and the function [drawString].  [drawString str color maxWidth] returns
    the rendered label, or [None] for the null pointer it returns when
    shaping fails. *)
Record GenericFont : Type :=
  mkFont { font_getSize : Z;
           drawString : UString -> Z -> Z -> option GenericBitmap }.

(** What the control draws into an [OSGraphics] (src/os_graphics.hpp):
    [drawBitmap] with all its arguments, [drawBitmap] of the scaled
    background at the origin, and [fillRect]. *)
Inductive DrawOp : Type :=
| OpDrawBitmap (b : GenericBitmap) (xSrc ySrc xDest yDest width height : Z) (blend : bool)
| OpDrawBackground (b : GenericBitmap)
| OpFillRect (x y width height : Z) (color : Z).

(** A graphics of a given size, with what was drawn into it, in order. *)
Record OSGraphics : Type :=
  mkGraphics { g_width : Z; g_height : Z; g_ops : list DrawOp }.

(** An owning pointer: null, pointing to a live object, or left pointing to
    an object that was deleted. *)
Inductive Ptr (A : Type) : Type :=
| Null
| Live (a : A)
| Dangling.
Arguments Null {A}.
Arguments Dangling {A}.

(** [delete p]: afterwards [p] still holds the old address. *)
Definition delete {A : Type} (p : Ptr A) : Ptr A :=
  match p with
  | Null => Null
  | Live _ => Dangling
  | Dangling => Dangling
  end.

(** The members set by the constructor and never changed. *)
Record Skin : Type :=
  mkSkin {
      m_rFont : GenericFont;
      m_pBgBitmap : option GenericBitmap;
      m_pItemBitmap : option GenericBitmap;
      m_pOpenBitmap : option GenericBitmap;
      m_pClosedBitmap : option GenericBitmap;
      m_fgColor : Z;
      m_playColor : Z;
      m_bgColor1 : Z;
      m_bgColor2 : Z;
      m_selColor : Z;
      m_flat : bool
    }.

(** The control, the tree it displays and the position variable of the tree
    ([m_rTree.getPositionVar()], held here as its value [m_position]).
    [m_pPosition] is what [getPosition()] returns: [None] until the control
    is given a geometry.  [m_layouts] counts the calls of [notifyLayout]. *)
Record CtrlTree : Type :=
  mkCtrlTree {
      skin : Skin;
      m_rTree : VarTree;
      m_position : Fp.double;
      m_pPosition : option Position;
      m_firstPos : Iterator;
      m_pLastSelected : option Z;
      m_pImage : Ptr OSGraphics;
      m_dontMove : bool;
      m_pScaledBitmap : option GenericBitmap;
      m_layouts : nat
    }.

Definition set_tree (st : CtrlTree) (t : VarTree) : CtrlTree :=
  mkCtrlTree (skin st) t (m_position st) (m_pPosition st) (m_firstPos st)
             (m_pLastSelected st) (m_pImage st) (m_dontMove st)
             (m_pScaledBitmap st) (m_layouts st).
Definition set_position (st : CtrlTree) (v : Fp.double) : CtrlTree :=
  mkCtrlTree (skin st) (m_rTree st) v (m_pPosition st) (m_firstPos st)
             (m_pLastSelected st) (m_pImage st) (m_dontMove st)
             (m_pScaledBitmap st) (m_layouts st).
Definition set_firstPos (st : CtrlTree) (it : Iterator) : CtrlTree :=
  mkCtrlTree (skin st) (m_rTree st) (m_position st) (m_pPosition st) it
             (m_pLastSelected st) (m_pImage st) (m_dontMove st)
             (m_pScaledBitmap st) (m_layouts st).
Definition set_lastSelected (st : CtrlTree) (p : option Z) : CtrlTree :=
  mkCtrlTree (skin st) (m_rTree st) (m_position st) (m_pPosition st)
             (m_firstPos st) p (m_pImage st) (m_dontMove st)
             (m_pScaledBitmap st) (m_layouts st).
Definition set_image (st : CtrlTree) (p : Ptr OSGraphics) : CtrlTree :=
  mkCtrlTree (skin st) (m_rTree st) (m_position st) (m_pPosition st)
             (m_firstPos st) (m_pLastSelected st) p (m_dontMove st)
             (m_pScaledBitmap st) (m_layouts st).
Definition set_dontMove (st : CtrlTree) (b : bool) : CtrlTree :=
  mkCtrlTree (skin st) (m_rTree st) (m_position st) (m_pPosition st)
             (m_firstPos st) (m_pLastSelected st) (m_pImage st) b
             (m_pScaledBitmap st) (m_layouts st).
Definition set_scaledBitmap (st : CtrlTree) (b : option GenericBitmap) : CtrlTree :=
  mkCtrlTree (skin st) (m_rTree st) (m_position st) (m_pPosition st)
             (m_firstPos st) (m_pLastSelected st) (m_pImage st) (m_dontMove st)
             b (m_layouts st).
Definition notifyLayout (st : CtrlTree) : CtrlTree :=
  mkCtrlTree (skin st) (m_rTree st) (m_position st) (m_pPosition st)
             (m_firstPos st) (m_pLastSelected st) (m_pImage st) (m_dontMove st)
             (m_pScaledBitmap st) (S (m_layouts st)).

(** [m_flat] *)
Definition flat (st : CtrlTree) : bool := m_flat (skin st).

(** *** The traversal in the mode of the control

    The source writes [m_flat ? m_rTree.firstLeaf() : m_rTree.begin()] and
    [m_flat ? m_rTree.getNextLeaf( it ) : m_rTree.getNextVisibleItem( it )]
    at every use; they are named here. *)

Definition items (fl : bool) (t : VarTree) : list VarTree :=
  if fl then flatItems t else visItems t.

Definition start (fl : bool) (t : VarTree) : Iterator :=
  if fl then firstLeaf t else begin t.

Definition next (fl : bool) (t : VarTree) (it : Iterator) : Iterator :=
  if fl then getNextLeaf t it else getNextVisibleItem t it.

Definition prev (fl : bool) (t : VarTree) (it : Iterator) : Iterator :=
  if fl then getPrevLeaf t it else getPrevVisibleItem t it.

Definition count (fl : bool) (t : VarTree) : Z :=
  if fl then countLeafs t else visibleItems t.

Definition getItem (fl : bool) (t : VarTree) (n : Z) : Iterator :=
  if fl then getLeaf t n else getVisibleItem t n.

(** *** Metrics *)

(** [#define LINE_INTERVAL 1]: number of pixels inserted between 2 lines. *)
Definition LINE_INTERVAL : Z := 1.

(** [if( b ) x = __MAX( b->f(), x );] *)
Definition maxWith (f : GenericBitmap -> Z) (b : option GenericBitmap) (x : Z) : Z :=
  match b with
  | Some bmp => Z.max (f bmp) x
  | None => x
  end.

(** [CtrlTree::itemHeight] *)
Definition itemHeight (st : CtrlTree) : Z :=
  let sk := skin st in
  let itemHeight := font_getSize (m_rFont sk) in
  let itemHeight :=
    if negb (m_flat sk)
    then maxWith bmp_height (m_pOpenBitmap sk)
                 (maxWith bmp_height (m_pClosedBitmap sk) itemHeight)
    else itemHeight in
  let itemHeight := maxWith bmp_height (m_pItemBitmap sk) itemHeight in
  itemHeight + LINE_INTERVAL.

(** [CtrlTree::itemImageWidth] *)
Definition itemImageWidth (st : CtrlTree) : Z :=
  let sk := skin st in
  let bitmapWidth := 5 in
  let bitmapWidth :=
    if negb (m_flat sk)
    then maxWith bmp_width (m_pOpenBitmap sk)
                 (maxWith bmp_width (m_pClosedBitmap sk) bitmapWidth)
    else bitmapWidth in
  let bitmapWidth := maxWith bmp_width (m_pItemBitmap sk) bitmapWidth in
  bitmapWidth + 2.

(** [CtrlTree::maxItems] *)
Definition maxItems (st : CtrlTree) : Z :=
  match m_pPosition st with
  | None => -1
  | Some pPos => Z.quot (getHeight pPos) (itemHeight st)
  end.

(** *** Rendering: makeImage *)

(** [do { it = next( it ); } while( it != m_rTree.end() && it->isDeleted() );] *)
Fixpoint nextLive (fuel : nat) (fl : bool) (t : VarTree) (it : Iterator) : Iterator :=
  let it' := next fl t it in
  match fuel with
  | O => it'
  | S f =>
      if negb (Iterator_eqb it' End) && isDeleted t it'
      then nextLive f fl t it'
      else it'
  end.

Section Drawing.

Variable st : CtrlTree.
Variables width height i_itemHeight : Z.

Let t := m_rTree st.
Let fl := flat st.
Let sk := skin st.
Let n := length (items fl t).

(** The loop over the rows when a background bitmap is drawn: only the
    bands of the selected items are filled. *)
Fixpoint bandsOverBitmap (fuel : nat) (yPos : Z) (it : Iterator) : list DrawOp :=
  match fuel with
  | O => []
  | S f =>
      if yPos <? height then
        if negb (Iterator_eqb it End) then
          (if isSelected t it
           then [OpFillRect 0 yPos width (Z.min i_itemHeight (height - yPos))
                            (m_selColor sk)]
           else [])
            ++ bandsOverBitmap f (yPos + i_itemHeight) (nextLive n fl t it)
        else bandsOverBitmap f (yPos + i_itemHeight) it
      else []
  end.

(** The loop over the rows without background bitmap: bands of alternating
    colours, the band of a selected item in the selection colour. *)
Fixpoint bandsPlain (fuel : nat) (yPos : Z) (it : Iterator) (bgColor : Z) : list DrawOp :=
  match fuel with
  | O => []
  | S f =>
      if yPos <? height then
        let rectHeight := Z.min i_itemHeight (height - yPos) in
        let bgColor' :=
          if bgColor =? m_bgColor1 sk then m_bgColor2 sk else m_bgColor1 sk in
        if Iterator_eqb it End then
          OpFillRect 0 yPos width rectHeight bgColor
            :: bandsPlain f (yPos + i_itemHeight) it bgColor'
        else
          let color := if isSelected t it then m_selColor sk else bgColor in
          OpFillRect 0 yPos width rectHeight color
            :: bandsPlain f (yPos + i_itemHeight) (nextLive n fl t it) bgColor'
      else []
  end.

(** The loop that draws the icon and the label of each row.  The result is
    the list of drawing operations and a flag, [false] when the loop was
    left by the [return] taken when [drawString] fails. *)
Fixpoint drawRows (fuel : nat) (yPos : Z) (it : Iterator) : list DrawOp * bool :=
  match fuel with
  | O => ([], true)
  | S f =>
      if negb (Iterator_eqb it End) && (yPos <? height) then
        let bitmapWidth := itemImageWidth st in
        let color := if isPlaying t it then m_playColor sk else m_fgColor sk in
        match deref t it with
        | Some node =>
            match m_cString node with
            | Some pStr =>
                let depth := if fl then 1 else depth t it in
                match drawString (m_rFont sk) pStr color (width - bitmapWidth * depth) with
                | None => ([], false)
                | Some pText =>
                    let m_pCurBitmap :=
                      if negb (size node =? 0)
                      then (if m_expanded node then m_pOpenBitmap sk
                            else m_pClosedBitmap sk)
                      else m_pItemBitmap sk in
                    let yPos2 :=
                      match m_pCurBitmap with
                      | Some b => yPos + Z.quot (i_itemHeight - bmp_height b + 1) 2
                      | None => yPos
                      end in
                    let icon :=
                      match m_pCurBitmap with
                      | Some b =>
                          [OpDrawBitmap b 0 0 (bitmapWidth * (depth - 1)) yPos2
                                        (bmp_width b)
                                        (Z.min (bmp_height b) (height - yPos2)) true]
                      | None => []
                      end in
                    let stop :=
                      match m_pCurBitmap with
                      | Some _ => yPos2 >=? height
                      | None => false
                      end in
                    if stop then ([], true)
                    else
                      let yPos := yPos + (i_itemHeight - bmp_height pText) in
                      let ySrc := if yPos <? 0 then - yPos else 0 in
                      let yPos := if yPos <? 0 then 0 else yPos in
                      let lineHeight :=
                        Z.min (bmp_height pText - ySrc) (height - yPos) in
                      let label :=
                        OpDrawBitmap pText 0 ySrc (bitmapWidth * depth) yPos
                                     (bmp_width pText) lineHeight true in
                      let yPos := yPos + (bmp_height pText - ySrc) in
                      let '(ops, ok) := drawRows f yPos (nextLive n fl t it) in
                      (icon ++ label :: ops, ok)
                end
            | None => drawRows f yPos (nextLive n fl t it)
            end
        | None => ([], true)
        end
      else ([], true)
  end.

End Drawing.

(** The first part of [makeImage]: the scaled background bitmap or the
    background colour, and the bands of the rows.  The result is the scaled
    bitmap kept in [m_pScaledBitmap] and the drawing operations. *)
Definition drawBackground (st : CtrlTree) (pPos : Position)
  : option GenericBitmap * list DrawOp :=
  let sk := skin st in
  let width := getWidth pPos in
  let height := getHeight pPos in
  let i_itemHeight := itemHeight st in
  let it := m_firstPos st in
  match m_pBgBitmap sk with
  | Some bg =>
      let scaled :=
        match m_pScaledBitmap st with
        | Some s =>
            if negb (bmp_width s =? width) || negb (bmp_height s =? height)
            then mkBitmap (bmp_name bg) width height
            else s
        | None => mkBitmap (bmp_name bg) width height
        end in
      (Some scaled,
       OpDrawBackground scaled
         :: bandsOverBitmap st width height i_itemHeight (Z.to_nat height) 0 it)
  | None =>
      (m_pScaledBitmap st,
       OpFillRect 0 0 width height (m_bgColor1 sk)
         :: bandsPlain st width height i_itemHeight (Z.to_nat height) 0 it
                       (m_bgColor1 sk))
  end.

(** The second part of [makeImage]: the icons and the labels. *)
Definition drawItems (st : CtrlTree) (pPos : Position) : list DrawOp * bool :=
  drawRows st (getWidth pPos) (getHeight pPos) (itemHeight st)
           (S (length (items (flat st) (m_rTree st)))) 0 (m_firstPos st).

(** [makeImage].  The calls of [stats_TimerStart] and [stats_TimerStop] are
    left out.  The drawing operations go to the graphics [m_pImage] points
    to as they are issued, so that an early [return] leaves there what was
    drawn until then.  The result also says whether the frame was built to
    the end ([true]) or the function returned early ([false]). *)
Definition makeImage_run (st : CtrlTree) : CtrlTree * bool :=
  (* delete m_pImage; *)
  let st := set_image st (delete (m_pImage st)) in
  match m_pPosition st with
  | None => (st, false)
  | Some pPos =>
      let '(scaled, background) := drawBackground st pPos in
      let '(rows, ok) := drawItems st pPos in
      (set_image (set_scaledBitmap st scaled)
                 (Live (mkGraphics (getWidth pPos) (getHeight pPos)
                                   (background ++ rows))),
       ok)
  end.

Definition makeImage (st : CtrlTree) : CtrlTree := fst (makeImage_run st).

(** *** The position variable and its observer *)

(** [lrint( (1.0 - rVarPos.get()) * (double)excessItems ) + 1] *)
Definition targetRank (v : Fp.double) (excessItems : Z) : Z :=
  Fp.lrint (Fp.d_mul (Fp.d_sub Fp.d_one v) (Fp.d_of_int excessItems)) + 1.

(** [CtrlTree::onUpdate( Subject<VarPercent> &, void* )] *)
Definition onUpdate_percent (st : CtrlTree) : CtrlTree :=
  let it := start (flat st) (m_rTree st) in
  if m_dontMove st then st
  else
    let excessItems := count (flat st) (m_rTree st) - maxItems st in
    let it :=
      if excessItems >? 0
      then getItem (flat st) (m_rTree st) (targetRank (m_position st) excessItems)
      else it in
    if negb (Iterator_eqb (m_firstPos st) it)
    then notifyLayout (makeImage (set_firstPos st it))
    else st.

(** Modelled from the spec: VarPercent::set (var_percent.cpp), "a bound
    scroll-position value object with get/set and a change-notification
    subscription": the value is stored and the observers are notified; the
    control is the observer modelled here. *)
Definition VarPercent_set (st : CtrlTree) (percentage : Fp.double) : CtrlTree :=
  onUpdate_percent (set_position st percentage).

(** Modelled from the spec: VarPercent::get (var_percent.hpp), the value
    stored. *)
Definition VarPercent_get (st : CtrlTree) : Fp.double := m_position st.


(** [CtrlTree::onPositionChange] *)
Definition onPositionChange (st : CtrlTree) : CtrlTree := makeImage st.

(** [1.0 - (double)focusItemIndex / (double)indexMax] *)
Definition scrollValue (focusItemIndex indexMax : Z) : Fp.double :=
  Fp.d_sub Fp.d_one (Fp.d_div (Fp.d_of_int focusItemIndex) (Fp.d_of_int indexMax)).

(** [CtrlTree::ensureVisible] *)
Definition ensureVisible (st : CtrlTree) (item : Iterator) : CtrlTree * bool :=
  let st := set_tree st (ensureExpanded (m_rTree st) item) in
  let firstPosIndex := getRank (m_rTree st) (m_firstPos st) (flat st) - 1 in
  let focusItemIndex := getRank (m_rTree st) item (flat st) - 1 in
  if (focusItemIndex <? firstPosIndex)
     || (focusItemIndex >? firstPosIndex + maxItems st - 1)
  then
    let indexMax := count (flat st) (m_rTree st) - 1 in
    (VarPercent_set st (scrollValue focusItemIndex indexMax), true)
  else (st, false).

(** [CtrlTree::isItemVisible] *)
Definition isItemVisible (st : CtrlTree) (id : Z) : bool :=
  let it := findById (m_rTree st) id in
  let rank1 := getRank (m_rTree st) (m_firstPos st) (flat st) in
  let rank2 := getRank (m_rTree st) it (flat st) in
  (rank2 >=? rank1) && (rank2 <=? rank1 + maxItems st - 1).

(** [CtrlTree::autoScroll]: the loop goes over the leafs in flat mode and over
    every item ([getNextItem]) otherwise. *)
Fixpoint autoScroll_loop (fuel : nat) (st : CtrlTree) (it : Iterator) : CtrlTree :=
  match fuel with
  | O => st
  | S f =>
      if Iterator_eqb it End then st
      else if isPlaying (m_rTree st) it then fst (ensureVisible st it)
           else autoScroll_loop f st
                  (if flat st then getNextLeaf (m_rTree st) it
                   else getNextItem (m_rTree st) it)
  end.

Definition autoScroll (st : CtrlTree) : CtrlTree :=
  autoScroll_loop (length (nodes (m_rTree st))) st
                  (start (flat st) (m_rTree st)).

(** *** Notifications of the tree *)

Inductive update_type : Type := UpdateItem | ResetAll | AppendItem | DeleteItem.

Record tree_update : Type :=
  mkUpdate { type : update_type; i_id : Z; b_active_item : bool }.

(** [while( m_firstPos->isDeleted() && m_firstPos != start ) m_firstPos = prev( m_firstPos );] *)
Fixpoint walkBack (fuel : nat) (fl : bool) (t : VarTree) (firstPos : Iterator) : Iterator :=
  match fuel with
  | O => firstPos
  | S f =>
      if isDeleted t firstPos && negb (Iterator_eqb firstPos (start fl t))
      then walkBack f fl t (prev fl t firstPos)
      else firstPos
  end.

(** [CtrlTree::onUpdate( Subject<VarTree, tree_update> &, tree_update * )] *)
Definition onUpdate_tree (st : CtrlTree) (arg : tree_update) : CtrlTree :=
  match type arg with
  | UpdateItem =>
      let st := if b_active_item arg then autoScroll st else st in
      if isItemVisible st (i_id arg) then notifyLayout (makeImage st) else st
  | ResetAll =>
      notifyLayout (makeImage (set_firstPos st (start (flat st) (m_rTree st))))
  | AppendItem =>
      let firstSize :=
        match deref (m_rTree st) (m_firstPos st) with
        | Some n => size n
        | None => 0
        end in
      if flat st && negb (firstSize =? 0) then
        notifyLayout
          (makeImage (set_firstPos st (getNextLeaf (m_rTree st) (m_firstPos st))))
      else if isItemVisible st (i_id arg) then notifyLayout (makeImage st)
           else st
  | DeleteItem =>
      let it_old := m_firstPos st in
      let firstPos :=
        walkBack (length (items (flat st) (m_rTree st))) (flat st) (m_rTree st)
                 (m_firstPos st) in
      let firstPos :=
        if isDeleted (m_rTree st) firstPos then begin (m_rTree st) else firstPos in
      let st := set_firstPos st firstPos in
      if negb (Iterator_eqb (m_firstPos st) it_old) || isItemVisible st (i_id arg)
      then notifyLayout (makeImage st)
      else st
  end.

(** *** Events *)

(** The keys the control reacts to that [handleEvent] takes here.  The arrow
    keys, Enter and space have a function of their own, [handleNavigation];
    any other key is forwarded to the core with [var_SetInteger] and leaves
    the control as it is. *)
Inductive Key : Type :=
| KEY_DELETE
| KEY_PAGEDOWN
| KEY_PAGEUP
| KEY_other (code : Z).

(** The events, named after the strings [handleEvent] looks for in
    [rEvent.getAsString()], in the order in which it tests them. *)
Inductive EvtGeneric : Type :=
| EvtKeyDown (key : Key)                  (* "key:down" *)
| EvtMouseLeftDownCtrlShift (xPos yPos : Z) (* "mouse:left:down:ctrl,shift" *)
| EvtMouseLeftDownCtrl (xPos yPos : Z)      (* "mouse:left:down:ctrl" *)
| EvtMouseLeftDownShift (xPos yPos : Z)     (* "mouse:left:down:shift" *)
| EvtMouseLeftDown (xPos yPos : Z)          (* "mouse:left:down" *)
| EvtMouseLeftDblClick (xPos yPos : Z)      (* "mouse:left:dblclick" *)
| EvtMouseLeftOther                         (* "mouse:left", none of the above *)
| EvtScroll (kUp : bool)                    (* "scroll" *)
| EvtOther.

(** [&*it == p] *)
Definition ptrEq (it : Iterator) (p : option Z) : bool :=
  match it, p with
  | It i, Some j => i =? j
  | _, _ => false
  end.

(** [&*it]; taking the address through [end()] is undefined, the model
    gives the null pointer. *)
Definition addressOf (it : Iterator) : option Z :=
  match it with
  | It i => Some i
  | End => None
  end.

(** [for( it = ...; it != m_rTree.end(); it = next( it ) ) body], where the
    body works on a state [s] that holds the tree and may leave the loop
    ([true] in the second component of its result). *)
Fixpoint forEach {Acc : Type} (fuel : nat) (fl : bool) (treeOf : Acc -> VarTree)
         (body : Iterator -> Acc -> Acc * bool) (it : Iterator) (s : Acc) : Acc :=
  match fuel with
  | O => s
  | S f =>
      if Iterator_eqb it End then s
      else
        let '(s', brk) := body it s in
        if brk then s'
        else forEach f fl treeOf body (next fl (treeOf s') it) s'
  end.

(** [CtrlTree::findItemAtPos] *)
Fixpoint findItemAtPos_loop (fuel : nat) (fl : bool) (t : VarTree)
         (it : Iterator) (pos : Z) : Iterator :=
  match fuel with
  | O => it
  | S f =>
      if negb (Iterator_eqb it End) && negb (pos =? 0)
      then findItemAtPos_loop f fl t (next fl t it) (pos - 1)
      else it
  end.

Definition findItemAtPos (st : CtrlTree) (pos : Z) : Iterator :=
  findItemAtPos_loop (S (length (items (flat st) (m_rTree st)))) (flat st)
                     (m_rTree st) (m_firstPos st) pos.

(** [makeImage(); notifyLayout();] *)
Definition redraw (st : CtrlTree) : CtrlTree := notifyLayout (makeImage st).

(** **** Delete *)

(** The first loop of the Delete branch: the last item that is not selected
    before [m_pLastSelected], starting from the first item of the traversal. *)
Definition findUnselected (st : CtrlTree) : Iterator :=
  let t := m_rTree st in
  snd (forEach (length (items (flat st) t)) (flat st) fst
         (fun it s =>
            if ptrEq it (m_pLastSelected st) then (s, true)
            else if negb (isSelected t it) then ((t, it), false)
                 else (s, false))
         (start (flat st) t) (t, start (flat st) t)).

(** The second loop: the last selected item of the traversal, if any. *)
Definition findSelected (fl : bool) (t : VarTree) : option Z :=
  snd (forEach (length (items fl t)) fl fst
         (fun it s =>
            if isSelected t it then ((t, addressOf it), false) else (s, false))
         (start fl t) (t, None)).

(** The branch [key == KEY_DELETE] of [handleEvent]. *)
Definition keyDelete (st : CtrlTree) : CtrlTree :=
  let it_sel := findUnselected st in
  let st := set_tree st (delSelected (m_rTree st)) in
  let st := set_lastSelected st (findSelected (flat st) (m_rTree st)) in
  let st :=
    match m_pLastSelected st with
    | None =>
        set_lastSelected (set_tree st (setSelected (m_rTree st) it_sel true))
                         (addressOf it_sel)
    | Some _ => st
    end in
  redraw st.

(** **** Page down and page up *)

(** [(int)(maxItems()*1.5)] *)
Definition pageDownCount (st : CtrlTree) : Z :=
  Fp.trunc (Fp.d_mul (Fp.d_of_int (maxItems st)) Fp.d_1_5).

(** The loop of the Page Down branch.  [while( i >= 0 ) { ...; i--; }] runs
    its body at most [i + 1] times; [k] counts the runs that are left. *)
Fixpoint pageDownWalk (k : nat) (fl : bool) (t : VarTree) (it : Iterator)
         (needShow : bool) : Iterator * bool :=
  match k with
  | O => (it, needShow)
  | S k' =>
      let it_old := it in
      let it := next fl t it in
      if Iterator_eqb it End then (it_old, needShow)
      else pageDownWalk k' fl t it true
  end.

(** The branch [key == KEY_PAGEDOWN] of [handleEvent]. *)
Definition keyPageDown (st : CtrlTree) : CtrlTree :=
  let '(it, needShow) :=
    pageDownWalk (Z.to_nat (pageDownCount st + 1)) (flat st) (m_rTree st)
                 (m_firstPos st) false in
  if needShow then redraw (fst (ensureVisible st it)) else st.

(** The loop of the Page Up branch: [while( i >= maxItems()/2 )], from
    [i = maxItems()]. *)
Fixpoint pageUpWalk (k : nat) (fl : bool) (t : VarTree) (it : Iterator) : Iterator :=
  match k with
  | O => it
  | S k' =>
      let it := prev fl t it in
      if Iterator_eqb it (start fl t) then it
      else pageUpWalk k' fl t it
  end.

(** The branch [key == KEY_PAGEUP] of [handleEvent]. *)
Definition keyPageUp (st : CtrlTree) : CtrlTree :=
  let it :=
    pageUpWalk (Z.to_nat (maxItems st - Z.quot (maxItems st) 2 + 1)) (flat st)
               (m_rTree st) (m_firstPos st) in
  redraw (fst (ensureVisible st it)).

(** **** Pointer *)

(** The body shared by the two range loops.  [keep] is [true] for
    ctrl+shift, where the flag of an item is or-ed with [select]. *)
Definition rangeBody (keep : bool) (itClicked : Iterator) (last : option Z)
           (it : Iterator) (s : VarTree * bool) : (VarTree * bool) * bool :=
  let '(t, select) := s in
  let nextSelect := select in
  let '(select, nextSelect) :=
    if Iterator_eqb it itClicked || ptrEq it last
    then (if select then (select, false) else (true, true))
    else (select, nextSelect) in
  ((setSelected t it (if keep then isSelected t it || select else select),
    nextSelect), false).

(** The branches "mouse:left:down:ctrl,shift" ([keep = true]) and
    "mouse:left:down:shift" ([keep = false]) of [handleEvent]. *)
Definition selectRange (keep : bool) (st : CtrlTree) (yPos : Z) : CtrlTree :=
  let itClicked := findItemAtPos st yPos in
  let t := m_rTree st in
  let '(t, _) :=
    forEach (length (items (flat st) t)) (flat st) fst
            (rangeBody keep itClicked (m_pLastSelected st))
            (start (flat st) t) (t, false) in
  redraw (set_tree st t).

(** The branch "mouse:left:down:ctrl" of [handleEvent]. *)
Definition mouseCtrl (st : CtrlTree) (yPos : Z) : CtrlTree :=
  let it := findItemAtPos st yPos in
  let st :=
    if negb (Iterator_eqb it End)
    then set_lastSelected (set_tree st (toggleSelected (m_rTree st) it))
                          (addressOf it)
    else st in
  redraw st.

(** "Unselect any previously selected item": the loop of the plain press. *)
Definition unselectAll (fl : bool) (t : VarTree) : VarTree :=
  forEach (length (items fl t)) fl (fun t => t)
          (fun it2 t => (setSelected t it2 false, false)) (start fl t) t.

(** The branch "mouse:left:down" of [handleEvent], the plain press; the
    result says whether an item was folded or unfolded
    ([bChangedPosition]). *)
Definition mouseDown (st : CtrlTree) (xPos yPos : Z) : CtrlTree * bool :=
  let it := findItemAtPos st yPos in
  let t := m_rTree st in
  let '(st, bChangedPosition) :=
    if negb (Iterator_eqb it End) then
      let sz := match deref t it with Some n => size n | None => 0 end in
      if (negb (sz =? 0)
          && (xPos >? (depth t it - 1) * itemImageWidth st)
          && (xPos <? depth t it * itemImageWidth st))
         && negb (flat st)
      then (set_tree st (toggleExpanded t it), true)
      else
        let t := unselectAll (flat st) t in
        (set_lastSelected (set_tree st (setSelected t it true)) (addressOf it),
         false)
    else (st, false) in
  (redraw st, bChangedPosition).

(** The branch "mouse:left:dblclick" of [handleEvent].  The double click
    runs the action of the item ([m_rTree.action]), which is outside the
    control. *)
Definition mouseDblClick (st : CtrlTree) (yPos : Z) : CtrlTree := redraw st.

(** **** Scroll wheel *)

(** The branch "scroll" of [handleEvent]. *)
Definition scroll (st : CtrlTree) (kUp : bool) : CtrlTree :=
  let percentage := VarPercent_get st in
  let step := Fp.d_div (Fp.d_of_int 2) (Fp.d_of_int (count (flat st) (m_rTree st))) in
  let percentage :=
    if kUp then Fp.d_add percentage step else Fp.d_sub percentage step in
  VarPercent_set st percentage.

(** **** The end of handleEvent: "We changed the nodes, let's fix the
    position var" *)

(** The loop that counts [iFirst], the number of items before the anchor. *)
Definition firstIndex (st : CtrlTree) : Z :=
  let t := m_rTree st in
  snd (forEach (length (items (flat st) t)) (flat st) fst
         (fun it s =>
            if Iterator_eqb it (m_firstPos st) then (s, true)
            else ((fst s, snd s + 1), false))
         (start (flat st) t) (t, 0)).

(** The block [if( bChangedPosition ) { ... }]. *)
Definition fixPosition (st : CtrlTree) : CtrlTree :=
  let iFirst := firstIndex st in
  let indexMax := count (flat st) (m_rTree st) - 1 in
  let f_new := Fp.f_div (Fp.f_of_int iFirst) (Fp.f_of_int indexMax) in
  let st := set_dontMove st true in
  let st := VarPercent_set st (Fp.d_sub Fp.d_one (Fp.d_of_float f_new)) in
  set_dontMove st false.

(** [CtrlTree::handleEvent].  The pointer branches read the geometry through
    [getPosition()] without a test; without geometry that is a null
    dereference, and the model leaves the control as it is. *)
Definition handleEvent (st : CtrlTree) (rEvent : EvtGeneric) : CtrlTree :=
  let row (y : Z) (pos : Position) : Z := Z.quot (y - getTop pos) (itemHeight st) in
  let '(st, bChangedPosition) :=
    match rEvent, m_pPosition st with
    | EvtKeyDown KEY_DELETE, _ => (keyDelete st, false)
    | EvtKeyDown KEY_PAGEDOWN, _ => (keyPageDown st, false)
    | EvtKeyDown KEY_PAGEUP, _ => (keyPageUp st, false)
    | EvtKeyDown (KEY_other _), _ => (st, false)
    | EvtMouseLeftDownCtrlShift x y, Some pos => (selectRange true st (row y pos), false)
    | EvtMouseLeftDownCtrl x y, Some pos => (mouseCtrl st (row y pos), false)
    | EvtMouseLeftDownShift x y, Some pos => (selectRange false st (row y pos), false)
    | EvtMouseLeftDown x y, Some pos => mouseDown st (x - getLeft pos) (row y pos)
    | EvtMouseLeftDblClick x y, Some pos => (mouseDblClick st (row y pos), false)
    | EvtScroll kUp, _ => (scroll st kUp, false)
    | _, _ => (st, false)
    end in
  if bChangedPosition then fixPosition st else st.

(** *** The arrow keys, Enter and space

    The branch [key == KEY_UP || key == KEY_DOWN || key == KEY_LEFT ||
    key == KEY_RIGHT || key == KEY_ENTER || key == ' '] of [handleEvent],
    which [Key] leaves out, is a function of its own here. *)

Inductive NavKey : Type :=
| KEY_UP
| KEY_DOWN
| KEY_LEFT
| KEY_RIGHT
| KEY_ENTER
| KEY_SPACE.

(** Modelled from the spec: VarTree::parent (var_tree.hpp), the "parent
    reference" of an item: the node that has the item among its children.
    It is the root for an item of the first level, and the null pointer for
    the root only. *)
Inductive ParentRef : Type :=
| NullParent
| RootParent
| NodeParent (n : VarTree).

(** Modelled from the spec: VarTree::parent (var_tree.hpp), read through an
    iterator of the tree.  The result is the null pointer for [end()] and
    for a node that is not in the tree. *)
Definition parent (t : VarTree) (it : Iterator) : ParentRef :=
  match it with
  | It i =>
      if existsb (fun c => m_id c =? i) (m_children t) then RootParent
      else match find (fun n => existsb (fun c => m_id c =? i) (m_children n))
                      (nodes t) with
           | Some n => NodeParent n
           | None => NullParent
           end
  | End => NullParent
  end.

(** [it->parent() && it != it->parent()->begin()] *)
Definition notFirstChild (t : VarTree) (it : Iterator) : bool :=
  match parent t it with
  | NullParent => false
  | RootParent => negb (Iterator_eqb it (begin t))
  | NodeParent n => negb (Iterator_eqb it (head_it (m_children n)))
  end.

(** [it->parent() && next != it->parent()->end()], where [next] comes from
    the traversal: an item, or [end()] of the root, which is the [end()] of
    no other node. *)
Definition notParentEnd (t : VarTree) (it next : Iterator) : bool :=
  match parent t it with
  | NullParent => false
  | RootParent => negb (Iterator_eqb next End)
  | NodeParent _ => true
  end.

(** Modelled from the spec: VarTree::begin on an item (var_tree.hpp), the
    "ordered child enumeration per node": [it->begin()] is the first child
    of the item.  The control asks for it on items that have children. *)
Definition firstChild (t : VarTree) (it : Iterator) : Iterator :=
  match deref t it with
  | Some n => head_it (m_children n)
  | None => End
  end.

(** The variables the loop of the branch works on: the tree,
    [m_pLastSelected], [needShow], [toShow], [previousWasSelected],
    [bChangedPosition], and the items [m_rTree.action] was called on, the
    latest first.  The action of an item is outside the control; the model
    records the call and leaves the tree as it is. *)
Record NavState : Type :=
  mkNav {
      nav_tree : VarTree;
      nav_last : option Z;
      nav_needShow : bool;
      nav_toShow : Iterator;
      nav_previousWasSelected : bool;
      nav_changed : bool;
      nav_actions : list Z
    }.

Definition nav_setTree (s : NavState) (t : VarTree) : NavState :=
  mkNav t (nav_last s) (nav_needShow s) (nav_toShow s) (nav_previousWasSelected s)
        (nav_changed s) (nav_actions s).

(** [m_pLastSelected = &*it; needShow = true; toShow = it;] *)
Definition nav_show (s : NavState) (it : Iterator) : NavState :=
  mkNav (nav_tree s) (addressOf it) true it (nav_previousWasSelected s)
        (nav_changed s) (nav_actions s).

Definition nav_setPrevious (s : NavState) (b : bool) : NavState :=
  mkNav (nav_tree s) (nav_last s) (nav_needShow s) (nav_toShow s) b
        (nav_changed s) (nav_actions s).

Definition nav_setLast (s : NavState) (p : option Z) : NavState :=
  mkNav (nav_tree s) p (nav_needShow s) (nav_toShow s) (nav_previousWasSelected s)
        (nav_changed s) (nav_actions s).

(** [bChangedPosition = true;] *)
Definition nav_setChanged (s : NavState) : NavState :=
  mkNav (nav_tree s) (nav_last s) (nav_needShow s) (nav_toShow s)
        (nav_previousWasSelected s) true (nav_actions s).

(** [m_rTree.action( &*it );] *)
Definition nav_action (s : NavState) (it : Iterator) : NavState :=
  mkNav (nav_tree s) (nav_last s) (nav_needShow s) (nav_toShow s)
        (nav_previousWasSelected s) (nav_changed s)
        (match it with It i => i :: nav_actions s | End => nav_actions s end).

(** [it->size()], read through an iterator of the tree. *)
Definition sizeAt (t : VarTree) (it : Iterator) : Z :=
  match deref t it with
  | Some n => size n
  | None => 0
  end.

(** The body of the loop for [KEY_UP]: "Scroll up one item".  [itNext] is
    the local [next] of the loop. *)
Definition navUp (fl : bool) (it : Iterator) (s : NavState) : NavState :=
  let t := nav_tree s in
  let itNext := next fl t it in
  if notFirstChild t it || negb (ptrEq it (nav_last s)) then
    let nextWasSelected := ptrEq itNext (nav_last s) in
    let s := nav_setTree s (setSelected t it nextWasSelected) in
    if nextWasSelected then nav_show s it else s
  else s.

(** The body of the loop for [KEY_DOWN]: "Scroll down one item", with its
    "Fix last tree item selection". *)
Definition navDown (fl : bool) (it : Iterator) (s : NavState) : NavState :=
  let t := nav_tree s in
  let itNext := next fl t it in
  let s :=
    if notParentEnd t it itNext || negb (ptrEq it (nav_last s))
    then nav_setTree s (setSelected t it (nav_previousWasSelected s))
    else s in
  let s :=
    if nav_previousWasSelected s
    then nav_setPrevious (nav_show s it) false
    else nav_setPrevious s (ptrEq it (nav_last s)) in
  if Iterator_eqb (next fl (nav_tree s) it) End && ptrEq it (nav_last s)
  then nav_setTree s (setSelected (nav_tree s) it true)
  else s.

(** The body of the loop for [KEY_RIGHT]: "Go down one level (and expand
    node)". *)
Definition navRight (it : Iterator) (s : NavState) : NavState :=
  let t := nav_tree s in
  if ptrEq it (nav_last s) then
    if isExpanded t it then
      if negb (sizeAt t it =? 0) then
        let t := setSelected t it false in
        let t := setSelected t (firstChild t it) true in
        nav_setLast (nav_setTree s t) (addressOf (firstChild t it))
      else nav_action s it
    else nav_setChanged (nav_setTree s (setExpanded t it true))
  else s.

(** The body of the loop for [KEY_LEFT]: "Go up one level (and close
    node)". *)
Definition navLeft (it : Iterator) (s : NavState) : NavState :=
  let t := nav_tree s in
  if ptrEq it (nav_last s) then
    if isExpanded t it && negb (sizeAt t it =? 0) then
      nav_setChanged (nav_setTree s (setExpanded t it false))
    else
      match parent t it with
      | NodeParent p =>
          let t := setSelected t it false in
          nav_setLast (nav_setTree s (setSelected t (It (m_id p)) true))
                      (Some (m_id p))
      | _ => s
      end
  else s.

(** The body of the loop for [KEY_ENTER] and [' ']. *)
Definition navEnter (it : Iterator) (s : NavState) : NavState :=
  if ptrEq it (nav_last s) then nav_action s it else s.

Definition navBody (fl : bool) (key : NavKey) (it : Iterator) (s : NavState)
  : NavState * bool :=
  (match key with
   | KEY_UP => navUp fl it s
   | KEY_DOWN => navDown fl it s
   | KEY_LEFT => navLeft it s
   | KEY_RIGHT => navRight it s
   | KEY_ENTER | KEY_SPACE => navEnter it s
   end, false).

(** The loop of the branch, from the start of the traversal; [toShow] is not
    initialised by the source, the model starts it on [end()]. *)
Definition navLoop (fuel : nat) (st : CtrlTree) (key : NavKey) : NavState :=
  forEach fuel (flat st) nav_tree (navBody (flat st) key)
          (start (flat st) (m_rTree st))
          (mkNav (m_rTree st) (m_pLastSelected st) false End false false []).

(** What follows the loop: [if( needShow ) ensureVisible( toShow );
    makeImage(); notifyLayout();]. *)
Definition navFinish (st : CtrlTree) (s : NavState) : CtrlTree :=
  let st := set_lastSelected (set_tree st (nav_tree s)) (nav_last s) in
  let st := if nav_needShow s then fst (ensureVisible st (nav_toShow s)) else st in
  redraw st.

(** [handleEvent] on "key:down" with one of these keys: the control
    afterwards, and the items whose action was run, the latest first. *)
Definition handleNavigation (st : CtrlTree) (key : NavKey) : CtrlTree * list Z :=
  let s := navLoop (length (items (flat st) (m_rTree st))) st key in
  let st := navFinish st s in
  (if nav_changed s then fixPosition st else st, nav_actions s).

(** * Definitions used in the statements *)

Unset Implicit Arguments.

(** ** Concrete controls *)

Module Scenario.

Definition leaf (i : Z) : VarTree :=
  mkVarTree i (Some "item"%string) false false false false [].

Definition folder (i : Z) (expanded : bool) (cs : list VarTree) : VarTree :=
  mkVarTree i (Some "folder"%string) false false expanded false cs.

Definition selected (n : VarTree) : VarTree := withSelected true n.

Definition deleted (n : VarTree) : VarTree :=
  mkVarTree (m_id n) (m_cString n) (m_selected n) (m_playing n) (m_expanded n)
            true (m_children n).

Definition root (cs : list VarTree) : VarTree :=
  mkVarTree 0 None false false true false cs.

(** A font of size 9: rows are 10 pixels high. *)
Definition font : GenericFont :=
  mkFont 9 (fun str _ _ => Some (mkBitmap str 40 9)).


Definition plainSkin (f : GenericFont) (fl : bool) : Skin :=
  mkSkin f None None None None 1 2 3 4 5 fl.

(** A viewport that fits 4 rows. *)
Definition fourRows : Position := mkPosition 0 0 100 40.

Definition control (fl : bool) (cs : list VarTree) (anchor : Iterator)
           (last : option Z) : CtrlTree :=
  mkCtrlTree (plainSkin font fl) (root cs) Fp.d_one (Some fourRows) anchor last
             Null false None 0.

Definition leaves (n : nat) : list VarTree := map leaf (map Z.of_nat (seq 1 n)).

(** Flat mode, 10 leaves, 4 rows. *)
Definition tenLeaves (anchor : Iterator) : CtrlTree :=
  control true (leaves 10) anchor None.

(** Flat mode, 20 leaves, 4 rows, the anchor on the first leaf. *)
Definition twentyLeaves : CtrlTree := control true (leaves 20) (It 1) None.

End Scenario.

(** The row of the control a pointer event at ordinate [y] falls in:
    [( rEvtMouse.getYPos() - pos->getTop() ) / itemHeight()]. *)
Definition rowOf (st : CtrlTree) (pos : Position) (y : Z) : Z :=
  Z.quot (y - getTop pos) (itemHeight st).





(** Flat mode, three leaves, the second one marked deleted; the anchor is on
    the first leaf. *)
Definition deletedSecond : CtrlTree :=
  Scenario.control true
    [Scenario.leaf 1; Scenario.deleted (Scenario.leaf 2); Scenario.leaf 3]
    (It 1) None.

(** The participating items with their selected flags. *)
Definition selection (st : CtrlTree) : list (Z * bool) :=
  map (fun n => (m_id n, m_selected n)) (items (flat st) (m_rTree st)).

(** Flat mode, three leaves, the second one selected and last selected. *)
Definition secondSelected : CtrlTree :=
  Scenario.control true
    [Scenario.leaf 1; Scenario.selected (Scenario.leaf 2); Scenario.leaf 3]
    (It 1) (Some 2).

(** The number of selected items of the model. *)
Definition selectedCount (t : VarTree) : nat :=
  length (filter m_selected (nodes t)).

(** Flat mode, two leaves, the first one selected and last selected. *)
Definition firstSelected : CtrlTree :=
  Scenario.control true
    [Scenario.selected (Scenario.leaf 1); Scenario.leaf 2] (It 1) (Some 1).

(** Induction on trees, with the hypothesis for every child. *)
Fixpoint VarTree_forall_ind (P : VarTree -> Prop)
         (step : forall id s sel pl ex del cs,
             Forall P cs -> P (mkVarTree id s sel pl ex del cs))
         (t : VarTree) : P t :=
  match t with
  | mkVarTree id s sel pl ex del cs =>
      step id s sel pl ex del cs
           ((fix go (l : list VarTree) : Forall P l :=
               match l with
               | [] => @Forall_nil VarTree P
               | c :: r =>
                   @Forall_cons VarTree P c r (@VarTree_forall_ind P step c) (go r)
               end) cs)
  end.

(** [l1] is [l2] with some elements left out. *)
Inductive subseq {A : Type} : list A -> list A -> Prop :=
| subseq_nil : subseq [] []
| subseq_skip (x : A) (l1 l2 : list A) : subseq l1 l2 -> subseq l1 (x :: l2)
| subseq_keep (x : A) (l1 l2 : list A) : subseq l1 l2 -> subseq (x :: l1) (x :: l2).

(** A decision procedure for [NoDup] on addresses. *)
Fixpoint distinct (l : list Z) : bool :=
  match l with
  | [] => true
  | x :: r => negb (existsb (Z.eqb x) r) && distinct r
  end.


(** A [for] loop over the items whose addresses are [l], without iterators:
    the body is run on each address in turn, until it leaves the loop. *)
Fixpoint runList {Acc : Type} (body : Iterator -> Acc -> Acc * bool)
         (l : list Z) (s : Acc) : Acc :=
  match l with
  | [] => s
  | j :: r =>
      let '(s', brk) := body (It j) s in
      if brk then s' else runList body r s'
  end.

(** The iterator on the first of the addresses [l]. *)
Definition head_id (l : list Z) : Iterator :=
  match l with
  | [] => End
  | j :: _ => It j
  end.

(** The flags the range loop gives to the items of addresses [l]: [hit]
    tells the two ends of the range, [select] is the flag of the loop. *)
Fixpoint rangeFlags (hit : Z -> bool) (l : list Z) (select : bool) : list bool :=
  match l with
  | [] => []
  | j :: r =>
      if hit j then true :: rangeFlags hit r (negb select)
      else select :: rangeFlags hit r select
  end.

(** [it == itClicked || &*it == m_pLastSelected], for the item of address [j]. *)
Definition isEnd (itClicked : Iterator) (last : option Z) (j : Z) : bool :=
  Iterator_eqb (It j) itClicked || ptrEq (It j) last.

(** The rest of a list from its first item that is not deleted. *)
Fixpoint skipDeleted (l : list VarTree) : list VarTree :=
  match l with
  | [] => []
  | x :: r => if m_deleted x then skipDeleted r else l
  end.

(** Node [i] is strictly below [n]. *)
Definition below (i : Z) (n : VarTree) : bool :=
  existsb (fun x => m_id x =? i) (flat_map allItems (m_children n)).

(** ** Notions used for the rest of the control *)

(** A drawing operation does not reach below the line [bottom]. *)
Definition withinBottom (bottom : Z) (op : DrawOp) : Prop :=
  match op with
  | OpDrawBitmap _ _ _ _ yDest _ height _ => yDest + height <= bottom
  | OpDrawBackground _ => True
  | OpFillRect _ y _ height _ => y + height <= bottom
  end.

(** The anchor [onUpdate] and [onResize] compute from the position variable:
    the value of their local [it] after [if( excessItems > 0 ) ...]. *)
Definition anchorFor (st : CtrlTree) : Iterator :=
  if count (flat st) (m_rTree st) - maxItems st >? 0
  then getItem (flat st) (m_rTree st)
               (targetRank (m_position st)
                           (count (flat st) (m_rTree st) - maxItems st))
  else start (flat st) (m_rTree st).

(** The frame [makeImage] leaves in [m_pImage]; an empty one if it leaves
    none. *)
Definition frameOf (st : CtrlTree) : OSGraphics :=
  match m_pImage (makeImage st) with
  | Live g => g
  | _ => mkGraphics 0 0 []
  end.

(** Hierarchical mode: a folded folder that holds the playing item, and a
    leaf after it. *)
Definition playingInside : CtrlTree :=
  Scenario.control false
    [Scenario.folder 1 false
       [Scenario.leaf 2;
        mkVarTree 3 (Some "item"%string) false true false false []];
     Scenario.leaf 4]
    (It 1) None.

(** Every item of the model with its selected flag, folded away or not. *)
Definition marks (t : VarTree) : list (Z * bool) :=
  map (fun n => (m_id n, m_selected n)) (nodes t).

(** The test of the plain press for the icon of a folder: the item has
    children, the pointer is in the column of its icon, and the control is
    not flat. *)
Definition onFoldIcon (st : CtrlTree) (xPos : Z) (it : Iterator) : bool :=
  let t := m_rTree st in
  let sz := match deref t it with Some n => size n | None => 0 end in
  (negb (sz =? 0)
   && (xPos >? (depth t it - 1) * itemImageWidth st)
   && (xPos <? depth t it * itemImageWidth st))
  && negb (flat st).

(** [l1] and [l2] joined flag by flag with "or". *)
Fixpoint orFlags (l1 l2 : list bool) : list bool :=
  match l1, l2 with
  | a :: r1, b :: r2 => (a || b) :: orFlags r1 r2
  | _, _ => []
  end.

(** A skin with a background bitmap, and three leaves in front of it; the
    scaled bitmap of an earlier, smaller viewport is still there. *)
Definition backgroundControl : CtrlTree :=
  mkCtrlTree
    (mkSkin Scenario.font (Some (mkBitmap "bg" 10 10)) None None None 1 2 3 4 5 true)
    (Scenario.root (Scenario.leaves 3)) Fp.d_one
    (Some Scenario.fourRows) (It 1) None Null false (Some (mkBitmap "bg" 50 40)) 0.

(** The tree with the selected flag of every node replaced by [f] of its
    address and of the flag it had. *)
Fixpoint reselect (f : Z -> bool -> bool) (n : VarTree) : VarTree :=
  match n with
  | mkVarTree id s sel pl ex del cs =>
      mkVarTree id s (f id sel) pl ex del (map (reselect f) cs)
  end.

(** The same for the items of the model, the nodes below the root. *)
Definition reselectItems (f : Z -> bool -> bool) (t : VarTree) : VarTree :=
  withChildren t (map (reselect f) (m_children t)).

(** The flags after the keys Up and Down: of the items with the addresses
    [l], the item [target] alone is selected; the other nodes keep their
    flag. *)
Definition onlySelected (l : list Z) (target : Z) (j : Z) (sel : bool) : bool :=
  if existsb (Z.eqb j) l then j =? target else sel.

(** Hierarchical mode: a folder with two leaves, folded or not, and a leaf
    after it; the folder is the last selected item. *)
Definition folderControl (expanded : bool) : CtrlTree :=
  Scenario.control false
    [Scenario.selected
       (Scenario.folder 1 expanded [Scenario.leaf 2; Scenario.leaf 3]);
     Scenario.leaf 4]
    (It 1) (Some 1).

(** In the hierarchical traversal of the trees [cs], a node that has the
    item [A] among its children comes before [A]. *)
Definition parentsFirst (cs : list VarTree) : Prop :=
  NoDup (ids (flat_map allItems cs)) ->
  forall (P Q : list VarTree) (A n : VarTree),
    flat_map visible cs = P ++ A :: Q ->
    In n (flat_map allItems cs) ->
    existsb (fun x => m_id x =? m_id A) (m_children n) = true ->
    In (m_id n) (ids P).

(** The items after the anchor that get a row of the frame: those that are
    not deleted. *)
Definition liveAfter (post : list VarTree) : list VarTree :=
  filter (fun x => negb (m_deleted x)) post.

(** The icon of an item: the open or the closed bitmap for an item with
    children, the item bitmap otherwise. *)
Definition iconOf (sk : Skin) (node : VarTree) : option GenericBitmap :=
  if negb (size node =? 0)
  then (if m_expanded node then m_pOpenBitmap sk else m_pClosedBitmap sk)
  else m_pItemBitmap sk.

(** The label [pText] in the row that starts at [yPos]: its bottom edge is
    the bottom edge of the row, and it is cut at the top and at the bottom
    of the control. *)
Definition labelOp (height i_itemHeight yPos xDest : Z) (pText : GenericBitmap)
  : DrawOp :=
  let top := yPos + (i_itemHeight - bmp_height pText) in
  let ySrc := if top <? 0 then - top else 0 in
  let yDest := if top <? 0 then 0 else top in
  OpDrawBitmap pText 0 ySrc xDest yDest (bmp_width pText)
               (Z.min (bmp_height pText - ySrc) (height - yDest)) true.

(** The icons and labels of the items [l], one row of [i_itemHeight] pixels
    for each item that has a label, from [yPos] down, without iterators. *)
Fixpoint rowsOf (st : CtrlTree) (width height i_itemHeight : Z) (yPos : Z)
         (l : list VarTree) : list DrawOp * bool :=
  match l with
  | [] => ([], true)
  | node :: r =>
      if yPos <? height then
        match m_cString node with
        | None => rowsOf st width height i_itemHeight yPos r
        | Some pStr =>
            let depth :=
              if flat st then 1 else depth (m_rTree st) (It (m_id node)) in
            let color :=
              if m_playing node then m_playColor (skin st) else m_fgColor (skin st) in
            match drawString (m_rFont (skin st)) pStr color
                             (width - itemImageWidth st * depth) with
            | None => ([], false)
            | Some pText =>
                let label :=
                  labelOp height i_itemHeight yPos (itemImageWidth st * depth) pText in
                match iconOf (skin st) node with
                | Some b =>
                    let yPos2 := yPos + Z.quot (i_itemHeight - bmp_height b + 1) 2 in
                    if yPos2 >=? height then ([], true)
                    else
                      let '(ops, ok) :=
                        rowsOf st width height i_itemHeight (yPos + i_itemHeight) r in
                      (OpDrawBitmap b 0 0 (itemImageWidth st * (depth - 1)) yPos2
                                    (bmp_width b)
                                    (Z.min (bmp_height b) (height - yPos2)) true
                         :: label :: ops, ok)
                | None =>
                    let '(ops, ok) :=
                      rowsOf st width height i_itemHeight (yPos + i_itemHeight) r in
                    (label :: ops, ok)
                end
            end
        end
      else ([], true)
  end.

(** * Properties *)

(** ** What rendering leaves alone *)

Section Frame.

Variable st : CtrlTree.

Lemma makeImage_skin : skin (makeImage st) = skin st.
Proof.
  unfold makeImage, makeImage_run; simpl.
  destruct (m_pPosition st); simpl; [| reflexivity].
  destruct (drawBackground _ _), (drawItems _ _); reflexivity.
Qed.

Lemma makeImage_tree : m_rTree (makeImage st) = m_rTree st.
Proof.
  unfold makeImage, makeImage_run; simpl.
  destruct (m_pPosition st); simpl; [| reflexivity].
  destruct (drawBackground _ _), (drawItems _ _); reflexivity.
Qed.

Lemma makeImage_position : m_position (makeImage st) = m_position st.
Proof.
  unfold makeImage, makeImage_run; simpl.
  destruct (m_pPosition st); simpl; [| reflexivity].
  destruct (drawBackground _ _), (drawItems _ _); reflexivity.
Qed.

Lemma makeImage_geometry : m_pPosition (makeImage st) = m_pPosition st.
Proof.
  unfold makeImage, makeImage_run; simpl.
  destruct (m_pPosition st) eqn:E; simpl; [| exact E].
  destruct (drawBackground _ _), (drawItems _ _); simpl; exact E.
Qed.

Lemma makeImage_firstPos : m_firstPos (makeImage st) = m_firstPos st.
Proof.
  unfold makeImage, makeImage_run; simpl.
  destruct (m_pPosition st); simpl; [| reflexivity].
  destruct (drawBackground _ _), (drawItems _ _); reflexivity.
Qed.

Lemma makeImage_lastSelected : m_pLastSelected (makeImage st) = m_pLastSelected st.
Proof.
  unfold makeImage, makeImage_run; simpl.
  destruct (m_pPosition st); simpl; [| reflexivity].
  destruct (drawBackground _ _), (drawItems _ _); reflexivity.
Qed.

Lemma makeImage_dontMove : m_dontMove (makeImage st) = m_dontMove st.
Proof.
  unfold makeImage, makeImage_run; simpl.
  destruct (m_pPosition st); simpl; [| reflexivity].
  destruct (drawBackground _ _), (drawItems _ _); reflexivity.
Qed.

Lemma redraw_skin : skin (redraw st) = skin st.
Proof. unfold redraw; simpl; apply makeImage_skin. Qed.

Lemma redraw_tree : m_rTree (redraw st) = m_rTree st.
Proof. unfold redraw; simpl; apply makeImage_tree. Qed.

Lemma redraw_position : m_position (redraw st) = m_position st.
Proof. unfold redraw; simpl; apply makeImage_position. Qed.

Lemma redraw_geometry : m_pPosition (redraw st) = m_pPosition st.
Proof. unfold redraw; simpl; apply makeImage_geometry. Qed.

Lemma redraw_firstPos : m_firstPos (redraw st) = m_firstPos st.
Proof. unfold redraw; simpl; apply makeImage_firstPos. Qed.

Lemma redraw_lastSelected : m_pLastSelected (redraw st) = m_pLastSelected st.
Proof. unfold redraw; simpl; apply makeImage_lastSelected. Qed.

Lemma redraw_dontMove : m_dontMove (redraw st) = m_dontMove st.
Proof. unfold redraw; simpl; apply makeImage_dontMove. Qed.

End Frame.

Create Rewrite HintDb frame.
#[local] Hint Rewrite redraw_skin redraw_tree redraw_position redraw_geometry
  redraw_firstPos redraw_lastSelected redraw_dontMove
  makeImage_skin makeImage_tree makeImage_position makeImage_geometry
  makeImage_firstPos makeImage_lastSelected makeImage_dontMove : frame.

(** The observer of the position variable changes the anchor, the frame and
    the count of layout notifications only. *)
Lemma onUpdate_percent_frame (st : CtrlTree) :
  skin (onUpdate_percent st) = skin st
  /\ m_rTree (onUpdate_percent st) = m_rTree st
  /\ m_position (onUpdate_percent st) = m_position st
  /\ m_pPosition (onUpdate_percent st) = m_pPosition st
  /\ m_pLastSelected (onUpdate_percent st) = m_pLastSelected st
  /\ m_dontMove (onUpdate_percent st) = m_dontMove st.
Proof.
  unfold onUpdate_percent.
  destruct (m_dontMove st) eqn:D; [tauto|].
  match goal with |- context [if negb ?c then _ else _] => destruct c end;
    simpl; fold (redraw (set_firstPos st
      (if count (flat st) (m_rTree st) - maxItems st >? 0
       then getItem (flat st) (m_rTree st)
              (targetRank (m_position st) (count (flat st) (m_rTree st) - maxItems st))
       else start (flat st) (m_rTree st))));
    autorewrite with frame; simpl; tauto.
Qed.

(** With the guard set, the observer does nothing at all. *)
Lemma onUpdate_percent_guarded (st : CtrlTree) :
  m_dontMove st = true -> onUpdate_percent st = st.
Proof. intros H; unfold onUpdate_percent; rewrite H; reflexivity. Qed.

(** ** The start and the length of the traversal *)

Lemma head_visItems (t : VarTree) : head_it (visItems t) = begin t.
Proof.
  unfold visItems, begin.
  destruct (m_children t) as [|c cs]; [reflexivity|].
  destruct c; reflexivity.
Qed.

Lemma start_head (fl : bool) (t : VarTree) : start fl t = head_it (items fl t).
Proof.
  destruct fl; simpl; [reflexivity|].
  symmetry; apply head_visItems.
Qed.

Lemma count_length (fl : bool) (t : VarTree) :
  count fl t = Z.of_nat (length (items fl t)).
Proof. destruct fl; reflexivity. Qed.

Lemma getItem_rankIn (fl : bool) (t : VarTree) (n : Z) :
  getItem fl t n = rankIn (items fl t) n.
Proof. destruct fl; reflexivity. Qed.

(** ** Traversals as lists *)

Lemma subseq_refl {A : Type} (l : list A) : subseq l l.
Proof. induction l; constructor; assumption. Qed.

Lemma subseq_nil_l {A : Type} (l : list A) : subseq [] l.
Proof. induction l; constructor; assumption. Qed.

Lemma subseq_app {A : Type} (a b c d : list A) :
  subseq a b -> subseq c d -> subseq (a ++ c) (b ++ d).
Proof.
  intros H; induction H; intros Hc; simpl.
  - exact Hc.
  - apply subseq_skip; auto.
  - apply subseq_keep; auto.
Qed.

Lemma subseq_In {A : Type} (l1 l2 : list A) (x : A) :
  subseq l1 l2 -> In x l1 -> In x l2.
Proof.
  intros H; induction H; simpl; intros Hx; auto.
  destruct Hx; auto.
Qed.

Lemma subseq_NoDup {A : Type} (l1 l2 : list A) :
  subseq l1 l2 -> NoDup l2 -> NoDup l1.
Proof.
  intros H; induction H; intros N; auto.
  - inversion N; auto.
  - inversion N; subst. constructor; auto.
    intros Hx; eapply subseq_In in Hx; eauto.
Qed.

Lemma subseq_map {A B : Type} (f : A -> B) (l1 l2 : list A) :
  subseq l1 l2 -> subseq (map f l1) (map f l2).
Proof. intros H; induction H; simpl; constructor; assumption. Qed.

Lemma subseq_flat_map {A B : Type} (f g : A -> list B) (l : list A) :
  Forall (fun x => subseq (f x) (g x)) l -> subseq (flat_map f l) (flat_map g l).
Proof.
  intros H; induction H; simpl; [constructor | apply subseq_app; assumption].
Qed.

Lemma leafs_subseq (t : VarTree) : subseq (leafs t) (allItems t).
Proof.
  induction t as [id s sel pl ex del cs IH] using VarTree_forall_ind.
  destruct cs as [|c cs].
  - simpl. apply subseq_refl.
  - change (leafs (mkVarTree id s sel pl ex del (c :: cs)))
      with (flat_map leafs (c :: cs)).
    change (allItems (mkVarTree id s sel pl ex del (c :: cs)))
      with (mkVarTree id s sel pl ex del (c :: cs) :: flat_map allItems (c :: cs)).
    apply subseq_skip, subseq_flat_map, IH.
Qed.

Lemma visible_subseq (t : VarTree) : subseq (visible t) (allItems t).
Proof.
  induction t as [id s sel pl ex del cs IH] using VarTree_forall_ind.
  simpl. apply subseq_keep.
  destruct ex; [apply subseq_flat_map, IH | apply subseq_nil_l].
Qed.

Lemma items_subseq (fl : bool) (t : VarTree) : subseq (items fl t) (nodes t).
Proof.
  destruct fl; simpl; unfold flatItems, visItems, nodes;
    apply subseq_flat_map, Forall_forall; intros c _;
    [apply leafs_subseq | apply visible_subseq].
Qed.

Lemma items_NoDup (fl : bool) (t : VarTree) :
  wf_tree t -> NoDup (ids (items fl t)).
Proof.
  intros W. eapply subseq_NoDup; [|exact W].
  apply subseq_map, items_subseq.
Qed.

(** *** Looking up a node by its address *)

Lemma findIn_In (l : list VarTree) (x : VarTree) :
  NoDup (ids l) -> In x l -> findIn l (m_id x) = Some x.
Proof.
  induction l as [|y l IH]; simpl; intros N Hx; [contradiction|].
  inversion N as [|? ? Hy N']; subst.
  destruct Hx as [->|Hx].
  - rewrite Z.eqb_refl; reflexivity.
  - destruct (Z.eqb_spec (m_id y) (m_id x)) as [E|_].
    + exfalso; apply Hy. rewrite E. apply in_map; exact Hx.
    + apply IH; assumption.
Qed.

Lemma deref_item (fl : bool) (t : VarTree) (x : VarTree) :
  wf_tree t -> In x (items fl t) -> deref t (It (m_id x)) = Some x.
Proof.
  intros W Hx. apply findIn_In; [exact W|].
  eapply subseq_In; [apply items_subseq | exact Hx].
Qed.

Lemma isDeleted_item (fl : bool) (t : VarTree) (x : VarTree) :
  wf_tree t -> In x (items fl t) -> isDeleted t (It (m_id x)) = m_deleted x.
Proof.
  intros W Hx. unfold isDeleted, flagOf.
  rewrite (deref_item fl t x W Hx); reflexivity.
Qed.

(** *** Stepping in a list without repeated addresses *)

Lemma nextIn_app (pre post : list VarTree) (a : VarTree) :
  NoDup (ids (pre ++ a :: post)) ->
  nextIn (pre ++ a :: post) (m_id a) = head_it post.
Proof.
  induction pre as [|y pre IH]; simpl; intros N.
  - rewrite Z.eqb_refl; reflexivity.
  - inversion N as [|? ? Hy N']; subst.
    destruct (Z.eqb_spec (m_id y) (m_id a)) as [E|_]; [|apply IH; exact N'].
    exfalso; apply Hy. rewrite E. unfold ids.
    apply in_map, in_or_app; right; left; reflexivity.
Qed.

Lemma prevIn_app (pre post : list VarTree) (x a : VarTree) :
  NoDup (ids (pre ++ x :: a :: post)) ->
  prevIn (pre ++ x :: a :: post) (m_id a) = It (m_id x).
Proof.
  induction pre as [|y pre IH]; intros N.
  - simpl in *. inversion N as [|? ? Hx N']; subst.
    destruct (Z.eqb_spec (m_id x) (m_id a)) as [E|_].
    + exfalso; apply Hx. rewrite E; left; reflexivity.
    + rewrite Z.eqb_refl; reflexivity.
  - change ((y :: pre) ++ x :: a :: post) with (y :: (pre ++ x :: a :: post)) in *.
    simpl in N. inversion N as [|? ? Hy N']; subst.
    cbn [prevIn].
    destruct (Z.eqb_spec (m_id y) (m_id a)) as [E|_].
    { exfalso; apply Hy. rewrite E. unfold ids.
      apply in_map, in_or_app; right; right; left; reflexivity. }
    destruct (pre ++ x :: a :: post) as [|z r] eqn:L.
    { destruct pre; discriminate L. }
    destruct (Z.eqb_spec (m_id z) (m_id a)) as [E|_]; [|apply IH; exact N'].
    exfalso. destruct pre as [|p pre]; simpl in L; inversion L; subst.
    + inversion N' as [|? ? Hx _]; apply Hx. rewrite E; left; reflexivity.
    + inversion N' as [|? ? Hz _]; apply Hz. rewrite E. unfold ids.
      apply in_map, in_or_app; right; right; left; reflexivity.
Qed.

Lemma next_items (fl : bool) (t : VarTree) (i : Z) :
  next fl t (It i) = nextIn (items fl t) i.
Proof. destruct fl; reflexivity. Qed.

Lemma prev_items (fl : bool) (t : VarTree) (i : Z) :
  prev fl t (It i) = prevIn (items fl t) i.
Proof. destruct fl; reflexivity. Qed.

(** ** The loops run to their end *)

Lemma head_it_ids (l : list VarTree) : head_it l = head_id (ids l).
Proof. destruct l; reflexivity. Qed.

Lemma nextIn_ids (l1 : list VarTree) :
  forall (l2 : list VarTree) (i : Z), ids l1 = ids l2 -> nextIn l1 i = nextIn l2 i.
Proof.
  induction l1 as [|x l1 IH]; intros [|y l2] i E; simpl in E; try discriminate;
    [reflexivity|].
  inversion E as [[E1 E2]]. simpl. rewrite E1.
  destruct (m_id y =? i); [|apply IH; exact E2].
  rewrite !head_it_ids, E2; reflexivity.
Qed.

Lemma ids_split (l : list VarTree) (p q : list Z) (i : Z) :
  ids l = p ++ i :: q ->
  exists pre a post, l = pre ++ a :: post /\ ids pre = p /\ m_id a = i /\ ids post = q.
Proof.
  revert p; induction l as [|x l IH]; intros p E.
  - destruct p; discriminate.
  - destruct p as [|j p]; simpl in E; inversion E as [[E1 E2]].
    + exists [], x, l. repeat split.
    + destruct (IH p E2) as (pre & a & post & -> & Hp & Ha & Hq).
      exists (x :: pre), a, post. simpl. rewrite Hp. repeat split; assumption.
Qed.

Lemma nextIn_split (l : list VarTree) (p q : list Z) (i : Z) :
  NoDup (ids l) -> ids l = p ++ i :: q -> nextIn l i = head_id q.
Proof.
  intros N E. destruct (ids_split l p q i E) as (pre & a & post & -> & _ & <- & <-).
  rewrite nextIn_app by exact N. apply head_it_ids.
Qed.

Section ForEach.

Variable Acc : Type.
Variable fl : bool.
Variable treeOf : Acc -> VarTree.
Variable body : Iterator -> Acc -> Acc * bool.

(** The body keeps the addresses of the traversal. *)
Hypothesis body_ids :
  forall (it : Iterator) (s : Acc),
    ids (items fl (treeOf (fst (body it s)))) = ids (items fl (treeOf s)).

(** With the length of the traversal as fuel, the loop over the iterators
    from the start of the traversal is the loop over its addresses. *)
Lemma forEach_from (q : list Z) :
  forall (fuel : nat) (p : list Z) (i : Z) (s : Acc),
    NoDup (ids (items fl (treeOf s))) ->
    ids (items fl (treeOf s)) = p ++ i :: q ->
    (length q < fuel)%nat ->
    forEach fuel fl treeOf body (It i) s = runList body (i :: q) s.
Proof.
  induction q as [|j q IH]; intros fuel p i s N E F;
    (destruct fuel as [|fuel]; [inversion F|]);
    cbn [forEach runList Iterator_eqb];
    pose proof (body_ids (It i) s) as B;
    destruct (body (It i) s) as [s' brk]; cbn [fst] in B;
    destruct brk; try reflexivity;
    assert (N' : NoDup (ids (items fl (treeOf s')))) by (rewrite B; exact N).
  - assert (E' : ids (items fl (treeOf s')) = p ++ [i]) by (rewrite B; exact E).
    rewrite next_items, (nextIn_split _ p [] i N' E').
    destruct fuel; reflexivity.
  - assert (E' : ids (items fl (treeOf s')) = p ++ i :: j :: q) by (rewrite B; exact E).
    rewrite next_items, (nextIn_split _ p (j :: q) i N' E').
    cbn [head_id]. apply (IH fuel (p ++ [i]) j s').
    + exact N'.
    + rewrite E', <- app_assoc; reflexivity.
    + simpl in F; lia.
Qed.

Lemma forEach_runList (s : Acc) :
  NoDup (ids (items fl (treeOf s))) ->
  forEach (length (items fl (treeOf s))) fl treeOf body (start fl (treeOf s)) s
  = runList body (ids (items fl (treeOf s))) s.
Proof.
  intros N. rewrite start_head, head_it_ids.
  destruct (ids (items fl (treeOf s))) as [|i q] eqn:E.
  - destruct (length (items fl (treeOf s))); reflexivity.
  - rewrite <- E in N. apply (forEach_from q _ [] i s N E).
    assert (L : length (ids (items fl (treeOf s))) = length (items fl (treeOf s)))
      by apply length_map.
    rewrite E in L; simpl in L; lia.
Qed.

End ForEach.

(** ** Updates of flags and the traversal *)

Lemma allItems_eq (n : VarTree) :
  allItems n = n :: flat_map allItems (m_children n).
Proof. destruct n; reflexivity. Qed.

Lemma leafs_eq (n : VarTree) :
  leafs n = match m_children n with
            | [] => [n]
            | _ => flat_map leafs (m_children n)
            end.
Proof. destruct n; reflexivity. Qed.

Lemma visible_eq (n : VarTree) :
  visible n = n :: (if m_expanded n then flat_map visible (m_children n) else []).
Proof. destruct n; reflexivity. Qed.

Lemma flat_map_map {A B C : Type} (f : A -> B) (g : B -> list C) (l : list A) :
  flat_map g (map f l) = flat_map (fun x => g (f x)) l.
Proof. induction l; simpl; congruence. Qed.

Lemma flat_map_ext_Forall {A B : Type} (f g : A -> list B) (l : list A) :
  Forall (fun x => f x = g x) l -> flat_map f l = flat_map g l.
Proof. intros H; induction H; simpl; congruence. Qed.

Lemma map_flat_map {A B C : Type} (f : A -> list B) (g : B -> C) (l : list A) :
  map g (flat_map f l) = flat_map (fun x => map g (f x)) l.
Proof. induction l; simpl; [reflexivity|]. rewrite map_app; congruence. Qed.

Section Modify.

Variable i : Z.
Variable f : VarTree -> VarTree.

(** [f] changes the selected flag only. *)
Hypothesis f_id : forall n, m_id (f n) = m_id n.
Hypothesis f_children : forall n, m_children (f n) = m_children n.
Hypothesis f_expanded : forall n, m_expanded (f n) = m_expanded n.

Lemma modify_eq (n : VarTree) :
  modify i f n =
    if m_id n =? i then f (withChildren n (map (modify i f) (m_children n)))
    else withChildren n (map (modify i f) (m_children n)).
Proof. destruct n; reflexivity. Qed.

Lemma modify_id (n : VarTree) : m_id (modify i f n) = m_id n.
Proof.
  rewrite modify_eq. destruct (m_id n =? i); [rewrite f_id|]; reflexivity.
Qed.

Lemma modify_children (n : VarTree) :
  m_children (modify i f n) = map (modify i f) (m_children n).
Proof.
  rewrite modify_eq. destruct (m_id n =? i); [rewrite f_children|]; reflexivity.
Qed.

Lemma modify_expanded (n : VarTree) : m_expanded (modify i f n) = m_expanded n.
Proof.
  rewrite modify_eq. destruct (m_id n =? i); [rewrite f_expanded|]; reflexivity.
Qed.

Lemma allItems_modify (n : VarTree) :
  allItems (modify i f n) = map (modify i f) (allItems n).
Proof.
  induction n as [id s sel pl ex del cs IH] using VarTree_forall_ind.
  rewrite allItems_eq, modify_children, (allItems_eq (mkVarTree id s sel pl ex del cs)).
  cbn [map m_children]. f_equal.
  rewrite flat_map_map, map_flat_map. apply flat_map_ext_Forall, IH.
Qed.

Lemma leafs_modify (n : VarTree) :
  leafs (modify i f n) = map (modify i f) (leafs n).
Proof.
  induction n as [id s sel pl ex del cs IH] using VarTree_forall_ind.
  rewrite leafs_eq, modify_children, (leafs_eq (mkVarTree id s sel pl ex del cs)).
  cbn [m_children]. destruct cs as [|c cs]; [reflexivity|].
  change (map (modify i f) (c :: cs)) with (modify i f c :: map (modify i f) cs).
  change (modify i f c :: map (modify i f) cs) with (map (modify i f) (c :: cs)).
  rewrite flat_map_map, map_flat_map.
  destruct (map (modify i f) (c :: cs)) eqn:E; [discriminate E|].
  apply flat_map_ext_Forall, IH.
Qed.

Lemma visible_modify (n : VarTree) :
  visible (modify i f n) = map (modify i f) (visible n).
Proof.
  induction n as [id s sel pl ex del cs IH] using VarTree_forall_ind.
  rewrite visible_eq, modify_children, modify_expanded,
    (visible_eq (mkVarTree id s sel pl ex del cs)).
  cbn [map m_children m_expanded]. f_equal.
  destruct ex; [|reflexivity].
  rewrite flat_map_map, map_flat_map. apply flat_map_ext_Forall, IH.
Qed.

Lemma nodes_update (t : VarTree) (j : Z) :
  j = i -> nodes (update f t (It j)) = map (modify i f) (nodes t).
Proof.
  intros ->. unfold nodes, update. cbn [withChildren m_children].
  rewrite flat_map_map, map_flat_map.
  apply flat_map_ext_Forall, Forall_forall; intros c _. apply allItems_modify.
Qed.

Lemma items_update (fl : bool) (t : VarTree) (j : Z) :
  j = i -> items fl (update f t (It j)) = map (modify i f) (items fl t).
Proof.
  intros ->. destruct fl; unfold items, flatItems, visItems, update;
    cbn [withChildren m_children];
    rewrite flat_map_map, map_flat_map;
    apply flat_map_ext_Forall, Forall_forall; intros c _;
    [apply leafs_modify | apply visible_modify].
Qed.

Lemma ids_modify (l : list VarTree) : ids (map (modify i f) l) = ids l.
Proof.
  unfold ids. rewrite map_map. apply map_ext; intros n; apply modify_id.
Qed.

End Modify.

Lemma modify_selected (i : Z) (b : bool) (n : VarTree) :
  m_selected (modify i (withSelected b) n) =
    if m_id n =? i then b else m_selected n.
Proof.
  rewrite modify_eq. destruct (m_id n =? i); reflexivity.
Qed.

Lemma items_setSelected (fl : bool) (t : VarTree) (i : Z) (b : bool) :
  items fl (setSelected t (It i) b) = map (modify i (withSelected b)) (items fl t).
Proof.
  unfold setSelected. apply items_update; try reflexivity; intros n; reflexivity.
Qed.

Lemma nodes_setSelected (t : VarTree) (i : Z) (b : bool) :
  nodes (setSelected t (It i) b) = map (modify i (withSelected b)) (nodes t).
Proof.
  unfold setSelected. apply nodes_update; try reflexivity; intros n; reflexivity.
Qed.

Lemma ids_items_setSelected (fl : bool) (t : VarTree) (it : Iterator) (b : bool) :
  ids (items fl (setSelected t it b)) = ids (items fl t).
Proof.
  destruct it as [i|]; [|reflexivity].
  rewrite items_setSelected. apply ids_modify; intros n; reflexivity.
Qed.

(** ** Hit testing and skipping without fuel *)

Section Stepping.

Variable fl : bool.
Variable t : VarTree.
Hypothesis W : wf_tree t.

(** [findItemAtPos]: row 0 is the anchor, row [pos] the item [pos] places
    after it, deleted or not; there is no item for a negative row or for a
    row past the last item. *)
Lemma findItemAtPos_loop_nth (post : list VarTree) :
  forall (fuel : nat) (pre : list VarTree) (a : VarTree) (pos : Z),
    items fl t = pre ++ a :: post ->
    (length post < fuel)%nat ->
    findItemAtPos_loop fuel fl t (It (m_id a)) pos =
      if (0 <=? pos) && (pos <=? Z.of_nat (length post))
      then It (m_id (nth (Z.to_nat pos) (a :: post) a))
      else End.
Proof.
  induction post as [|b post IH]; intros fuel pre a pos L F;
    (destruct fuel as [|fuel]; [inversion F|]);
    pose proof (items_NoDup fl t W) as N; rewrite L in N;
    cbn [findItemAtPos_loop Iterator_eqb negb andb];
    destruct (Z.eqb_spec pos 0) as [->|P]; try reflexivity; cbn [negb];
    rewrite next_items, L, nextIn_app by exact N; cbn [head_it].
  - assert (E : (0 <=? pos) && (pos <=? Z.of_nat (length (@nil VarTree))) = false).
    { simpl. destruct (Z.leb_spec 0 pos), (Z.leb_spec pos 0); try reflexivity; lia. }
    rewrite E. destruct fuel; reflexivity.
  - rewrite (IH fuel (pre ++ [a]) b (pos - 1))
      by (rewrite <- ?app_assoc; simpl in *; assumption || lia).
    change (length (b :: post)) with (S (length post)).
    destruct (Z.leb_spec 0 pos), (Z.leb_spec 0 (pos - 1)); try lia; cbn [andb];
      [|reflexivity].
    destruct (Z.leb_spec (pos - 1) (Z.of_nat (length post))),
      (Z.leb_spec pos (Z.of_nat (S (length post)))); try lia; [|reflexivity].
    rewrite (nth_indep (b :: post) b a) by (simpl; lia).
    replace (Z.to_nat pos) with (S (Z.to_nat (pos - 1))) by lia.
    reflexivity.
Qed.

(** The [do ... while] of [makeImage]: the next item that is not deleted. *)
Lemma nextLive_skipDeleted (post : list VarTree) :
  forall (fuel : nat) (pre : list VarTree) (a : VarTree),
    items fl t = pre ++ a :: post ->
    (length post <= fuel)%nat ->
    nextLive fuel fl t (It (m_id a)) = head_it (skipDeleted post).
Proof.
  induction post as [|b post IH]; intros fuel pre a L F;
    pose proof (items_NoDup fl t W) as N; rewrite L in N.
  - destruct fuel; cbn [nextLive]; rewrite next_items, L, nextIn_app by exact N;
      reflexivity.
  - destruct fuel as [|fuel]; [inversion F|].
    cbn [nextLive]. rewrite next_items, L, nextIn_app by exact N.
    cbn [head_it Iterator_eqb negb andb skipDeleted].
    rewrite (isDeleted_item fl t b W)
      by (rewrite L; apply in_or_app; right; right; left; reflexivity).
    destruct (m_deleted b); [|reflexivity].
    apply (IH fuel (pre ++ [a]) b).
    + rewrite <- app_assoc; exact L.
    + simpl in F; lia.
Qed.

End Stepping.

(** The item under a row of the control, for an anchor in the traversal. *)
Lemma findItemAtPos_nth (st : CtrlTree) (pre post : list VarTree) (a : VarTree) (pos : Z) :
  wf_tree (m_rTree st) ->
  items (flat st) (m_rTree st) = pre ++ a :: post ->
  m_firstPos st = It (m_id a) ->
  findItemAtPos st pos =
    if (0 <=? pos) && (pos <=? Z.of_nat (length post))
    then It (m_id (nth (Z.to_nat pos) (a :: post) a))
    else End.
Proof.
  intros W L A. unfold findItemAtPos. rewrite A.
  apply (findItemAtPos_loop_nth (flat st) (m_rTree st) W post _ pre a pos L).
  rewrite L, length_app; simpl; lia.
Qed.

(** ** The drawing loops run to their end *)

(** The loops over the rows stop by themselves before [fuel] rows, when rows
    are at least one pixel high. *)
Lemma bandsPlain_fuel (st : CtrlTree) (width height i_itemHeight : Z) :
  0 < i_itemHeight ->
  forall (fuel1 fuel2 : nat) (yPos : Z) (it : Iterator) (bgColor : Z),
    (Z.to_nat (height - yPos) <= fuel1)%nat ->
    (Z.to_nat (height - yPos) <= fuel2)%nat ->
    bandsPlain st width height i_itemHeight fuel1 yPos it bgColor
    = bandsPlain st width height i_itemHeight fuel2 yPos it bgColor.
Proof.
  intros H fuel1; induction fuel1 as [|fuel1 IH]; intros fuel2 yPos it bgColor F1 F2.
  - destruct fuel2 as [|fuel2]; [reflexivity|].
    cbn [bandsPlain]. destruct (Z.ltb_spec yPos height); [lia | reflexivity].
  - destruct fuel2 as [|fuel2]; cbn [bandsPlain];
      destruct (Z.ltb_spec yPos height); try reflexivity; try lia.
    destruct (Iterator_eqb it End); f_equal; apply IH; lia.
Qed.

Lemma bandsOverBitmap_fuel (st : CtrlTree) (width height i_itemHeight : Z) :
  0 < i_itemHeight ->
  forall (fuel1 fuel2 : nat) (yPos : Z) (it : Iterator),
    (Z.to_nat (height - yPos) <= fuel1)%nat ->
    (Z.to_nat (height - yPos) <= fuel2)%nat ->
    bandsOverBitmap st width height i_itemHeight fuel1 yPos it
    = bandsOverBitmap st width height i_itemHeight fuel2 yPos it.
Proof.
  intros H fuel1; induction fuel1 as [|fuel1 IH]; intros fuel2 yPos it F1 F2.
  - destruct fuel2 as [|fuel2]; [reflexivity|].
    cbn [bandsOverBitmap]. destruct (Z.ltb_spec yPos height); [lia | reflexivity].
  - destruct fuel2 as [|fuel2]; cbn [bandsOverBitmap];
      destruct (Z.ltb_spec yPos height); try reflexivity; try lia.
    destruct (negb (Iterator_eqb it End)); [f_equal|]; apply IH; lia.
Qed.

Lemma skipDeleted_suffix (l : list VarTree) :
  exists skipped, l = skipped ++ skipDeleted l.
Proof.
  induction l as [|x l [sk IH]]; [exists []; reflexivity|].
  simpl. destruct (m_deleted x).
  - exists (x :: sk). simpl. rewrite <- IH. reflexivity.
  - exists []. reflexivity.
Qed.

Lemma drawRows_End (st : CtrlTree) (width height i_itemHeight : Z)
      (fuel : nat) (yPos : Z) :
  drawRows st width height i_itemHeight fuel yPos End = ([], true).
Proof. destruct fuel; reflexivity. Qed.

(** The loop over the labels ends with the traversal at the latest. *)
Lemma drawRows_fuel (st : CtrlTree) (width height i_itemHeight : Z) :
  wf_tree (m_rTree st) ->
  forall (k : nat) (post pre : list VarTree) (a : VarTree)
         (fuel1 fuel2 : nat) (yPos : Z),
    (length post <= k)%nat ->
    items (flat st) (m_rTree st) = pre ++ a :: post ->
    (length post < fuel1)%nat ->
    (length post < fuel2)%nat ->
    drawRows st width height i_itemHeight fuel1 yPos (It (m_id a))
    = drawRows st width height i_itemHeight fuel2 yPos (It (m_id a)).
Proof.
  intros W k; induction k as [|k IH];
    intros post pre a fuel1 fuel2 yPos K L F1 F2;
    (destruct fuel1 as [|fuel1]; [inversion F1|]);
    (destruct fuel2 as [|fuel2]; [inversion F2|]);
    cbn [drawRows];
    rewrite (nextLive_skipDeleted (flat st) (m_rTree st) W post _ pre a L)
      by (rewrite L, length_app; simpl; lia);
    destruct (skipDeleted_suffix post) as [sk Hsk];
    assert (Next : forall y,
               drawRows st width height i_itemHeight fuel1 y
                        (head_it (skipDeleted post))
               = drawRows st width height i_itemHeight fuel2 y
                          (head_it (skipDeleted post))).
  1, 3: intros y; destruct (skipDeleted post) as [|b post'] eqn:Sd.
  - cbn [head_it]. rewrite !drawRows_End. reflexivity.
  - exfalso. destruct post; [discriminate Sd | simpl in K; lia].
  - cbn [head_it]. rewrite !drawRows_End. reflexivity.
  - cbn [head_it].
    assert (Lp : (length post = length sk + S (length post'))%nat)
      by (rewrite Hsk at 1; rewrite length_app; reflexivity).
    apply (IH post' (pre ++ a :: sk) b fuel1 fuel2 y); try lia.
    rewrite L, Hsk at 1. rewrite <- app_assoc. reflexivity.
  - destruct (negb (Iterator_eqb (It (m_id a)) End) && (yPos <? height));
      [|reflexivity].
    destruct (deref (m_rTree st) (It (m_id a))) as [node|]; [|reflexivity].
    destruct (m_cString node) as [pStr|]; [|apply Next].
    destruct (drawString _ _ _ _) as [pText|]; [|reflexivity].
    match goal with |- (if ?c then _ else _) = _ => destruct c end; [reflexivity|].
    rewrite Next. reflexivity.
  - destruct (negb (Iterator_eqb (It (m_id a)) End) && (yPos <? height));
      [|reflexivity].
    destruct (deref (m_rTree st) (It (m_id a))) as [node|]; [|reflexivity].
    destruct (m_cString node) as [pStr|]; [|apply Next].
    destruct (drawString _ _ _ _) as [pText|]; [|reflexivity].
    match goal with |- (if ?c then _ else _) = _ => destruct c end; [reflexivity|].
    rewrite Next. reflexivity.
Qed.

(** The loop of [autoScroll] ends with the list it goes through: the leafs
    in flat mode, every item otherwise. *)
Lemma autoScroll_loop_fuel (st : CtrlTree) (post : list VarTree) :
  wf_tree (m_rTree st) ->
  forall (fuel1 fuel2 : nat) (pre : list VarTree) (a : VarTree),
    (if flat st then flatItems (m_rTree st) else nodes (m_rTree st)) = pre ++ a :: post ->
    (length post < fuel1)%nat ->
    (length post < fuel2)%nat ->
    autoScroll_loop fuel1 st (It (m_id a)) = autoScroll_loop fuel2 st (It (m_id a)).
Proof.
  intros W. induction post as [|b post IH]; intros fuel1 fuel2 pre a L F1 F2;
    (destruct fuel1 as [|fuel1]; [inversion F1|]);
    (destruct fuel2 as [|fuel2]; [inversion F2|]);
    cbn [autoScroll_loop Iterator_eqb];
    (destruct (isPlaying (m_rTree st) (It (m_id a))); [reflexivity|]).
  - assert (E : (if flat st then getNextLeaf (m_rTree st) (It (m_id a))
                 else getNextItem (m_rTree st) (It (m_id a))) = End).
    { unfold getNextLeaf, getNextItem. destruct (flat st); rewrite L;
        apply (nextIn_app pre [] a); rewrite <- L;
        [apply (items_NoDup true _ W) | exact W]. }
    rewrite E. destruct fuel1, fuel2; reflexivity.
  - assert (E : (if flat st then getNextLeaf (m_rTree st) (It (m_id a))
                 else getNextItem (m_rTree st) (It (m_id a))) = It (m_id b)).
    { unfold getNextLeaf, getNextItem. destruct (flat st); rewrite L;
        apply (nextIn_app pre (b :: post) a); rewrite <- L;
        [apply (items_NoDup true _ W) | exact W]. }
    rewrite E. apply (IH fuel1 fuel2 (pre ++ [a]) b).
    + rewrite <- app_assoc. exact L.
    + simpl in F1; lia.
    + simpl in F2; lia.
Qed.

(** ** Expanding the ancestors of an item *)

Lemma expandToward_eq (i : Z) (n : VarTree) :
  expandToward i n =
    withChildren (withExpanded (if below i n then true else m_expanded n) n)
                 (map (expandToward i) (m_children n)).
Proof. destruct n; reflexivity. Qed.

Lemma allItems_expandToward (i : Z) (n : VarTree) :
  allItems (expandToward i n) = map (expandToward i) (allItems n).
Proof.
  induction n as [id s sel pl ex del cs IH] using VarTree_forall_ind.
  rewrite allItems_eq, (allItems_eq (mkVarTree id s sel pl ex del cs)).
  rewrite expandToward_eq at 2. cbn [map withChildren m_children]. f_equal.
  rewrite flat_map_map, map_flat_map. apply flat_map_ext_Forall, IH.
Qed.

Lemma nodes_ensureExpanded (t : VarTree) (i : Z) :
  nodes (ensureExpanded t (It i)) = map (expandToward i) (nodes t).
Proof.
  unfold nodes, ensureExpanded. cbn [withChildren m_children].
  rewrite flat_map_map, map_flat_map.
  apply flat_map_ext_Forall, Forall_forall; intros c _. apply allItems_expandToward.
Qed.




(** ** The anchor after a change of the position variable *)

(** The anchor the observer chooses, whatever the anchor was. *)
Lemma onUpdate_percent_firstPos (st : CtrlTree) :
  m_dontMove st = false ->
  m_firstPos (onUpdate_percent st) =
    (if count (flat st) (m_rTree st) - maxItems st >? 0
     then getItem (flat st) (m_rTree st)
            (targetRank (m_position st) (count (flat st) (m_rTree st) - maxItems st))
     else start (flat st) (m_rTree st)).
Proof.
  intros D; unfold onUpdate_percent; rewrite D.
  match goal with |- context [Iterator_eqb ?a ?b] => destruct (Iterator_eqb a b) eqn:E end;
    simpl.
  - destruct (m_firstPos st) as [i|],
      (if count (flat st) (m_rTree st) - maxItems st >? 0
       then getItem (flat st) (m_rTree st)
              (targetRank (m_position st) (count (flat st) (m_rTree st) - maxItems st))
       else start (flat st) (m_rTree st)) as [j|]; simpl in E; try discriminate;
      [apply Z.eqb_eq in E; subst|]; reflexivity.
  - rewrite makeImage_firstPos; reflexivity.
Qed.

(** The anchor after a write of the position variable with the guard clear. *)
Lemma VarPercent_set_firstPos (st : CtrlTree) (v : Fp.double) :
  m_dontMove st = false ->
  m_firstPos (VarPercent_set st v) =
    (if Z.of_nat (length (items (flat st) (m_rTree st))) - maxItems st <=? 0
     then head_it (items (flat st) (m_rTree st))
     else rankIn (items (flat st) (m_rTree st))
                 (targetRank v (Z.of_nat (length (items (flat st) (m_rTree st)))
                                - maxItems st))).
Proof.
  intros D. unfold VarPercent_set.
  rewrite onUpdate_percent_firstPos by exact D.
  change (flat (set_position st v)) with (flat st).
  change (m_rTree (set_position st v)) with (m_rTree st).
  change (maxItems (set_position st v)) with (maxItems st).
  change (m_position (set_position st v)) with v.
  rewrite count_length, getItem_rankIn, start_head.
  destruct (Z.of_nat (length (items (flat st) (m_rTree st))) - maxItems st >? 0) eqn:E.
  - apply Z.gtb_lt in E.
    destruct (Z.leb_spec (Z.of_nat (length (items (flat st) (m_rTree st))) - maxItems st) 0);
      [lia | reflexivity].
  - destruct (Z.leb_spec (Z.of_nat (length (items (flat st) (m_rTree st))) - maxItems st) 0);
      [reflexivity|].
    rewrite Z.gtb_ltb in E. apply Z.ltb_ge in E. lia.
Qed.



(** ** The anchor after a delete notification *)

Lemma head_it_app (pre post : list VarTree) (a : VarTree) :
  pre <> [] -> NoDup (ids (pre ++ a :: post)) ->
  Iterator_eqb (It (m_id a)) (head_it (pre ++ a :: post)) = false.
Proof.
  destruct pre as [|y pre]; [congruence|]; intros _ N.
  simpl in *. inversion N as [|? ? Hy _]; subst.
  apply Z.eqb_neq; intros E; apply Hy. rewrite <- E. unfold ids.
  apply in_map, in_or_app; right; left; reflexivity.
Qed.

Section WalkBack.

Variable fl : bool.
Variable t : VarTree.
Hypothesis W : wf_tree t.





End WalkBack.



Lemma distinct_NoDup (l : list Z) : distinct l = true -> NoDup l.
Proof.
  induction l as [|x r IH]; simpl; intros H; [constructor|].
  apply andb_prop in H; destruct H as [Hx Hr].
  constructor; [|apply IH; exact Hr].
  intros Hin. apply negb_true_iff in Hx.
  assert (E : existsb (Z.eqb x) r = true)
    by (apply existsb_exists; exists x; split; [exact Hin | apply Z.eqb_refl]).
  congruence.
Defined.




(** ** Deleting the selection when [it_sel] survives *)













(** ** Deleting the selection *)

(** C3 on [firstSelected]: no item before the last selected one is
    unselected, so the first loop leaves [it_sel] on the first item, which
    is selected and is deleted with the selection.  Afterwards the model
    still holds leaf 2, no item is selected, and [m_pLastSelected] is the
    address of the deleted leaf 1. *)
Theorem keyDelete_selects_deleted_item :
  findUnselected firstSelected = It 1
  /\ ids (nodes (m_rTree (handleEvent firstSelected (EvtKeyDown KEY_DELETE)))) = [2]
  /\ selectedCount (m_rTree (handleEvent firstSelected (EvtKeyDown KEY_DELETE))) = 0%nat
  /\ m_pLastSelected (handleEvent firstSelected (EvtKeyDown KEY_DELETE)) = Some 1.
Proof. repeat split; vm_compute; reflexivity. Qed.

(** ** Scrolling an item into view *)

Lemma VarPercent_set_position (st : CtrlTree) (v : Fp.double) :
  m_position (VarPercent_set st v) = v.
Proof.
  unfold VarPercent_set.
  rewrite (proj1 (proj2 (proj2 (onUpdate_percent_frame _)))); reflexivity.
Qed.


Lemma VarPercent_set_dontMove (st : CtrlTree) (v : Fp.double) :
  m_dontMove (VarPercent_set st v) = m_dontMove st.
Proof.
  unfold VarPercent_set.
  rewrite (proj2 (proj2 (proj2 (proj2 (proj2 (onUpdate_percent_frame _)))))); reflexivity.
Qed.

Lemma ensureVisible_unfold (st : CtrlTree) (item : Iterator) :
  ensureVisible st item =
    if (getRank (ensureExpanded (m_rTree st) item) item (flat st) - 1
        <? getRank (ensureExpanded (m_rTree st) item) (m_firstPos st) (flat st) - 1)
       || (getRank (ensureExpanded (m_rTree st) item) item (flat st) - 1
           >? getRank (ensureExpanded (m_rTree st) item) (m_firstPos st) (flat st) - 1
              + maxItems st - 1)
    then (VarPercent_set
            (set_tree st (ensureExpanded (m_rTree st) item))
            (scrollValue
               (getRank (ensureExpanded (m_rTree st) item) item (flat st) - 1)
               (count (flat st) (ensureExpanded (m_rTree st) item) - 1)),
          true)
    else (set_tree st (ensureExpanded (m_rTree st) item), false).
Proof. reflexivity. Qed.




(** ** Rebuilding the frame *)




(** ** The guard of the observer *)

Lemma fixPosition_unfold (st : CtrlTree) :
  fixPosition st =
    set_dontMove
      (set_position st
         (Fp.d_sub Fp.d_one
            (Fp.d_of_float
               (Fp.f_div (Fp.f_of_int (firstIndex st))
                         (Fp.f_of_int (count (flat st) (m_rTree st) - 1))))))
      false.
Proof.
  unfold fixPosition, VarPercent_set.
  rewrite onUpdate_percent_guarded by reflexivity; reflexivity.
Qed.

Lemma ensureVisible_dontMove (st : CtrlTree) (item : Iterator) :
  m_dontMove (fst (ensureVisible st item)) = m_dontMove st.
Proof.
  rewrite ensureVisible_unfold.
  match goal with |- context [if ?c then _ else _] => destruct c end; cbn [fst].
  - rewrite VarPercent_set_dontMove; reflexivity.
  - reflexivity.
Qed.

Lemma mouseDown_firstPos (st : CtrlTree) (xPos yPos : Z) :
  m_firstPos (fst (mouseDown st xPos yPos)) = m_firstPos st.
Proof.
  unfold mouseDown; cbv zeta.
  destruct (negb (Iterator_eqb (findItemAtPos st yPos) End)).
  - match goal with |- context [if ?c then (set_tree st _, true) else _] => destruct c end;
      cbn [fst]; rewrite redraw_firstPos; reflexivity.
  - cbn [fst]; rewrite redraw_firstPos; reflexivity.
Qed.

(** C6, as the code has it.  The guard is set around one write of the
    position variable only, the one at the end of [handleEvent] after a node
    was folded or unfolded: that write changes the position variable and
    nothing else, and the anchor stays where it was (so it does after a
    plain press, whether it folded a node or not).  [ensureVisible] never
    sets the guard: when it scrolls with the guard clear, the observer runs
    and resolves the anchor again from the value written.  The same holds
    for the write of the scroll wheel. *)
Theorem guard_around_fixPosition_only :
  (forall st : CtrlTree,
      fixPosition st =
        set_dontMove
          (set_position st
             (Fp.d_sub Fp.d_one
                (Fp.d_of_float
                   (Fp.f_div (Fp.f_of_int (firstIndex st))
                             (Fp.f_of_int (count (flat st) (m_rTree st) - 1))))))
          false)
  /\ (forall (st : CtrlTree) (x y : Z),
         m_firstPos (handleEvent st (EvtMouseLeftDown x y)) = m_firstPos st)
  /\ (forall (st : CtrlTree) (item : Iterator),
         m_dontMove (fst (ensureVisible st item)) = m_dontMove st)
  /\ (forall (st : CtrlTree) (item : Iterator),
         m_dontMove st = false ->
         snd (ensureVisible st item) = true ->
         let participating := items (flat st) (ensureExpanded (m_rTree st) item) in
         let excess := Z.of_nat (length participating) - maxItems st in
         m_firstPos (fst (ensureVisible st item)) =
           (if excess <=? 0 then head_it participating
            else rankIn participating
                        (targetRank (m_position (fst (ensureVisible st item))) excess)))
  /\ (forall (st : CtrlTree) (kUp : bool),
         m_dontMove st = false ->
         let participating := items (flat st) (m_rTree st) in
         let excess := Z.of_nat (length participating) - maxItems st in
         m_dontMove (handleEvent st (EvtScroll kUp)) = false
         /\ m_firstPos (handleEvent st (EvtScroll kUp)) =
              (if excess <=? 0 then head_it participating
               else rankIn participating
                           (targetRank (m_position (handleEvent st (EvtScroll kUp)))
                                       excess))).
Proof.
  split; [exact fixPosition_unfold|].
  split; [|split; [exact ensureVisible_dontMove|split]].
  3: { intros st kUp D participating excess.
       assert (E : handleEvent st (EvtScroll kUp) = scroll st kUp)
         by (unfold handleEvent; destruct (m_pPosition st); reflexivity).
       rewrite E. unfold scroll.
       rewrite VarPercent_set_dontMove, VarPercent_set_position.
       rewrite VarPercent_set_firstPos by exact D. split; [exact D | reflexivity]. }
  - intros st x y. unfold handleEvent.
    destruct (m_pPosition st) as [pos|]; [|reflexivity].
    cbv beta iota zeta.
    pose proof (mouseDown_firstPos st (x - getLeft pos)
                  (Z.quot (y - getTop pos) (itemHeight st))) as H.
    destruct (mouseDown st (x - getLeft pos) (Z.quot (y - getTop pos) (itemHeight st)))
      as [st' b]; cbn [fst] in H.
    destruct b; [rewrite fixPosition_unfold|]; exact H.
  - intros st item D S participating excess.
    rewrite ensureVisible_unfold in S |- *.
    match goal with |- context [if ?c then _ else _] => destruct c end;
      [|discriminate S].
    cbn [fst]. rewrite VarPercent_set_position.
    rewrite VarPercent_set_firstPos by exact D. reflexivity.
Qed.

Lemma guard_around_fixPosition_only_witness :
  m_dontMove Scenario.twentyLeaves = false
  /\ snd (ensureVisible Scenario.twentyLeaves (It 8)) = true
  /\ m_firstPos (fst (ensureVisible Scenario.twentyLeaves (It 8))) = It 7.
Proof.
  split; [reflexivity|]. split; [reflexivity|].
  rewrite (proj1 (proj2 (proj2 (proj2 guard_around_fixPosition_only)))
                 Scenario.twentyLeaves (It 8) eq_refl eq_refl).
  vm_compute; reflexivity.
Defined.

(** C6 as stated fails: with 20 leaves, 4 rows and the anchor on the first
    leaf, [ensureVisible] on leaf 8 writes the position variable with the
    guard clear, and the observer moves the anchor to leaf 7. *)
Lemma ensureVisible_write_unguarded :
  m_dontMove Scenario.twentyLeaves = false
  /\ m_firstPos Scenario.twentyLeaves = It 1
  /\ snd (ensureVisible Scenario.twentyLeaves (It 8)) = true
  /\ m_dontMove (fst (ensureVisible Scenario.twentyLeaves (It 8))) = false
  /\ m_firstPos (fst (ensureVisible Scenario.twentyLeaves (It 8))) = It 7
  /\ m_firstPos (fst (ensureVisible Scenario.twentyLeaves (It 8)))
     <> m_firstPos Scenario.twentyLeaves.
Proof.
  repeat split; try (vm_compute; reflexivity).
  vm_compute; discriminate.
Qed.

(** ** Page down *)





(** ** Deleted items under the pointer *)

(** C8 on [deletedSecond]: [makeImage] skips the deleted leaf, so that the
    second row shows leaf 3, but [findItemAtPos] counts the deleted leaf as
    a row: a press on the second row (y = 15) hits the deleted leaf 2,
    selects it and makes it the last selected item. *)
Theorem findItemAtPos_counts_deleted :
  isDeleted (m_rTree deletedSecond) (It 2) = true
  /\ nextLive 3 true (m_rTree deletedSecond) (It 1) = It 3
  /\ findItemAtPos deletedSecond 1 = It 2
  /\ isSelected (m_rTree (handleEvent deletedSecond (EvtMouseLeftDown 50 15))) (It 2) = true
  /\ isSelected (m_rTree (handleEvent deletedSecond (EvtMouseLeftDown 50 15))) (It 3) = false
  /\ m_pLastSelected (handleEvent deletedSecond (EvtMouseLeftDown 50 15)) = Some 2.
Proof. repeat split; vm_compute; reflexivity. Qed.

(** ** The range selected by a shift press between two different items *)

Lemma map_selected_modify (i : Z) (b : bool) (l : list VarTree) :
  ~ In i (ids l) ->
  map m_selected (map (modify i (withSelected b)) l) = map m_selected l.
Proof.
  intros H. rewrite map_map. apply map_ext_in; intros n Hn.
  rewrite modify_selected.
  destruct (Z.eqb_spec (m_id n) i) as [E|_]; [|reflexivity].
  exfalso; apply H. rewrite <- E. apply in_map; exact Hn.
Qed.

Lemma rangeBody_ids (fl keep : bool) (itClicked : Iterator) (last : option Z)
      (it : Iterator) (s : VarTree * bool) :
  ids (items fl (fst (fst (rangeBody keep itClicked last it s))))
  = ids (items fl (fst s)).
Proof.
  destruct s as [t select]. unfold rangeBody.
  destruct (Iterator_eqb it itClicked || ptrEq it last); [destruct select|];
    cbn [fst]; apply ids_items_setSelected.
Qed.

Lemma rangeBody_plain (itClicked : Iterator) (last : option Z) (j : Z)
      (t : VarTree) (select : bool) :
  rangeBody false itClicked last (It j) (t, select)
  = ((setSelected t (It j) (if isEnd itClicked last j then true else select),
      if isEnd itClicked last j then negb select else select), false).
Proof.
  unfold rangeBody, isEnd.
  destruct (Iterator_eqb (It j) itClicked || ptrEq (It j) last), select; reflexivity.
Qed.

(** The plain range loop over the rest of the traversal. *)
Lemma runList_rangeBody (fl : bool) (itClicked : Iterator) (last : option Z)
      (l : list Z) :
  forall (pre rest : list VarTree) (t : VarTree) (select : bool),
    ids rest = l ->
    items fl t = pre ++ rest ->
    NoDup (ids (items fl t)) ->
    map m_selected
        (items fl (fst (runList (rangeBody false itClicked last) l (t, select))))
    = map m_selected pre ++ rangeFlags (isEnd itClicked last) l select
    /\ ids (items fl (fst (runList (rangeBody false itClicked last) l (t, select))))
       = ids (items fl t).
Proof.
  induction l as [|j l IH]; intros pre rest t select R L N.
  - destruct rest; [|discriminate R].
    simpl. rewrite L, !app_nil_r. split; reflexivity.
  - destruct rest as [|a rest]; [discriminate R|].
    simpl in R. inversion R as [[Ra Rr]]. subst j. rewrite Rr.
    cbn [runList rangeFlags]. rewrite rangeBody_plain.
    set (v := if isEnd itClicked last (m_id a) then true else select).
    set (next := if isEnd itClicked last (m_id a) then negb select else select).
    assert (L' : items fl (setSelected t (It (m_id a)) v)
                 = (map (modify (m_id a) (withSelected v)) (pre ++ [a]))
                     ++ map (modify (m_id a) (withSelected v)) rest).
    { rewrite items_setSelected, L, <- map_app, <- app_assoc. reflexivity. }
    assert (N' : NoDup (ids (items fl (setSelected t (It (m_id a)) v))))
      by (rewrite ids_items_setSelected; exact N).
    assert (R' : ids (map (modify (m_id a) (withSelected v)) rest) = l)
      by (rewrite ids_modify; [exact Rr | intros n; reflexivity]).
    destruct (IH _ _ _ next R' L' N') as [Hs Hi].
    rewrite Hs, Hi, ids_items_setSelected. split; [|reflexivity].
    rewrite L in N. unfold ids in N. rewrite map_app in N. simpl in N.
    apply NoDup_remove_2 in N.
    rewrite map_app, map_app.
    rewrite (map_selected_modify (m_id a) v pre)
      by (intros H; apply N, in_or_app; left; exact H).
    cbn [map]. rewrite modify_selected, Z.eqb_refl, <- app_assoc.
    unfold v, next. destruct (isEnd itClicked last (m_id a)); reflexivity.
Qed.

(** The flags over a traversal with the two ends [u] before [v]. *)
Lemma rangeFlags_outside (hit : Z -> bool) (p : list Z) (select : bool) (r : list Z) :
  (forall j, In j p -> hit j = false) ->
  rangeFlags hit (p ++ r) select = repeat select (length p) ++ rangeFlags hit r select.
Proof.
  induction p as [|j p IH]; intros H; [reflexivity|].
  simpl. rewrite (H j) by (left; reflexivity).
  rewrite IH by (intros k Hk; apply H; right; exact Hk). reflexivity.
Qed.

Lemma rangeFlags_between (hit : Z -> bool) (p m q : list Z) (u v : Z) :
  (forall j, In j (p ++ m ++ q) -> hit j = false) ->
  hit u = true -> hit v = true ->
  rangeFlags hit (p ++ u :: m ++ v :: q) false
  = repeat false (length p) ++ repeat true (S (length m) + 1) ++ repeat false (length q).
Proof.
  intros H Hu Hv.
  rewrite rangeFlags_outside
    by (intros j Hj; apply H, in_or_app; left; exact Hj).
  f_equal. cbn [rangeFlags]. rewrite Hu. cbn [negb].
  rewrite rangeFlags_outside
    by (intros j Hj; apply H, in_or_app; right; apply in_or_app; left; exact Hj).
  cbn [rangeFlags]. rewrite Hv. cbn [negb].
  rewrite <- (app_nil_r q) at 1.
  rewrite rangeFlags_outside
    by (intros j Hj; apply H, in_or_app; right; apply in_or_app; right; exact Hj).
  cbn [rangeFlags]. rewrite app_nil_r.
  replace (S (length m) + 1)%nat with (S (length m + 1)) by lia.
  cbn [repeat app]. rewrite repeat_app, <- app_assoc. reflexivity.
Qed.

(** A shift press with the last selected item [a] and the item [b] under the
    pointer, two different items of the traversal: the items from the first
    of them to the second, both included, are selected, the others are not;
    the result is the same when [a] and [b] change places. *)
Theorem shift_press_selects_range
        (st : CtrlTree) (x y : Z) (pos : Position) (a b u v : Z) (p m q : list Z) :
  wf_tree (m_rTree st) ->
  m_pPosition st = Some pos ->
  m_pLastSelected st = Some a ->
  findItemAtPos st (rowOf st pos y) = It b ->
  ids (items (flat st) (m_rTree st)) = p ++ u :: m ++ v :: q ->
  (a = u /\ b = v) \/ (a = v /\ b = u) ->
  ids (items (flat st) (m_rTree (handleEvent st (EvtMouseLeftDownShift x y))))
  = p ++ u :: m ++ v :: q
  /\ map m_selected
         (items (flat st) (m_rTree (handleEvent st (EvtMouseLeftDownShift x y))))
     = repeat false (length p) ++ repeat true (S (length m) + 1)
              ++ repeat false (length q).
Proof.
  intros W G A B L AB.
  pose proof (items_NoDup (flat st) (m_rTree st) W) as N.
  unfold handleEvent. rewrite G. cbv beta iota zeta.
  fold (rowOf st pos y). unfold selectRange. rewrite B, A.
  change (fun p0 : VarTree * bool => fst p0) with (@fst VarTree bool).
  pose proof (forEach_runList (VarTree * bool) (flat st) fst
                (rangeBody false (It b) (Some a))
                (rangeBody_ids (flat st) false (It b) (Some a))
                (m_rTree st, false) N) as FR.
  cbn [fst] in FR. rewrite FR. clear FR.
  destruct (runList_rangeBody (flat st) (It b) (Some a)
              (ids (items (flat st) (m_rTree st)))
              [] (items (flat st) (m_rTree st)) (m_rTree st) false
              eq_refl eq_refl N) as [Hs Hi].
  destruct (runList (rangeBody false (It b) (Some a))
                    (ids (items (flat st) (m_rTree st))) (m_rTree st, false))
    as [t' sel'] eqn:R.
  cbn [fst] in Hs, Hi.
  rewrite redraw_tree. cbn [m_rTree set_tree].
  change (flat (set_tree st t')) with (flat st).
  rewrite Hs, Hi, L. split; [reflexivity|].
  cbn [map app]. rewrite L in N.
  assert (Huv : u <> v).
  { intros E; subst v. apply NoDup_remove_2 in N. apply N.
    apply in_or_app; right; apply in_or_app; right; left; reflexivity. }
  apply rangeFlags_between.
  - intros j Hj. unfold isEnd; cbn [Iterator_eqb ptrEq].
    assert (j <> u /\ j <> v) as [Hu Hv].
    { split; intros E; subst j.
      - apply NoDup_remove_2 in N. apply N.
        apply in_app_or in Hj; destruct Hj as [Hj|Hj];
          [apply in_or_app; left; exact Hj|].
        apply in_or_app; right.
        apply in_app_or in Hj; destruct Hj as [Hj|Hj];
          apply in_or_app; [left; exact Hj | right; right; exact Hj].
      - rewrite app_comm_cons, app_assoc in N. apply NoDup_remove_2 in N. apply N.
        apply in_app_or in Hj; destruct Hj as [Hj|Hj];
          [apply in_or_app; left; apply in_or_app; left; exact Hj|].
        apply in_app_or in Hj; destruct Hj as [Hj|Hj];
          [apply in_or_app; left; apply in_or_app; right; right; exact Hj
          | apply in_or_app; right; exact Hj]. }
    destruct AB as [[-> ->]|[-> ->]];
      apply orb_false_iff; split; apply Z.eqb_neq; assumption.
  - unfold isEnd; cbn [Iterator_eqb ptrEq].
    destruct AB as [[-> ->]|[-> ->]]; rewrite Z.eqb_refl;
      [apply orb_true_r | apply orb_true_l].
  - unfold isEnd; cbn [Iterator_eqb ptrEq].
    destruct AB as [[-> ->]|[-> ->]]; rewrite Z.eqb_refl;
      [apply orb_true_l | apply orb_true_r].
Qed.

Lemma shift_press_selects_range_example :
  selection (handleEvent secondSelected (EvtMouseLeftDownShift 50 25))
  = [(1, false); (2, true); (3, true)]
  /\ map m_selected
         (items (flat secondSelected)
                (m_rTree (handleEvent secondSelected (EvtMouseLeftDownShift 50 25))))
     = [false; true; true].
Proof.
  split; [vm_compute; reflexivity|].
  apply (proj2 (shift_press_selects_range secondSelected 50 25 Scenario.fourRows
                  2 3 2 3 [1] [] []
                  (distinct_NoDup [1; 2; 3] eq_refl) eq_refl eq_refl eq_refl eq_refl
                  (or_introl (conj eq_refl eq_refl)))).
Defined.

(** ** The range selected by a shift press *)

(** C9 on [secondSelected]: a shift press on the last selected item itself
    (leaf 2, second row) selects leaf 2 and every item after it, not the
    range from leaf 2 to leaf 2. *)
Theorem shift_press_on_lastSelected :
  findItemAtPos secondSelected 1 = It 2
  /\ m_pLastSelected secondSelected = Some 2
  /\ selection (handleEvent secondSelected (EvtMouseLeftDownShift 50 15))
     = [(1, false); (2, true); (3, true)].
Proof. repeat split; vm_compute; reflexivity. Qed.

(** ** The last-selected reference under pointer presses *)

Lemma selectRange_lastSelected (keep : bool) (st : CtrlTree) (yPos : Z) :
  m_pLastSelected (selectRange keep st yPos) = m_pLastSelected st.
Proof.
  unfold selectRange.
  destruct (forEach _ _ _ _ _ _) as [t sel].
  rewrite redraw_lastSelected; reflexivity.
Qed.

Lemma fixPosition_lastSelected (st : CtrlTree) :
  m_pLastSelected (fixPosition st) = m_pLastSelected st.
Proof.
  unfold fixPosition, VarPercent_set.
  rewrite onUpdate_percent_guarded by reflexivity; reflexivity.
Qed.

(** C10.  The shift press and the ctrl+shift press leave [m_pLastSelected]
    as it is, so that the next range press measures from the same item; the
    ctrl press, and the plain press that does not fold or unfold a node, set
    it to the item under the pointer. *)
Theorem range_press_keeps_lastSelected (st : CtrlTree) (x y : Z) :
  m_pLastSelected (handleEvent st (EvtMouseLeftDownShift x y)) = m_pLastSelected st
  /\ m_pLastSelected (handleEvent st (EvtMouseLeftDownCtrlShift x y)) = m_pLastSelected st
  /\ (forall (pos : Position) (i : Z),
         m_pPosition st = Some pos ->
         findItemAtPos st (rowOf st pos y) = It i ->
         m_pLastSelected (handleEvent st (EvtMouseLeftDownCtrl x y)) = Some i
         /\ (snd (mouseDown st (x - getLeft pos) (rowOf st pos y)) = false ->
             m_pLastSelected (handleEvent st (EvtMouseLeftDown x y)) = Some i)).
Proof.
  unfold handleEvent, rowOf.
  repeat split.
  - destruct (m_pPosition st); simpl; [apply selectRange_lastSelected | reflexivity].
  - destruct (m_pPosition st); simpl; [apply selectRange_lastSelected | reflexivity].
  - rewrite H; cbv beta iota zeta. unfold mouseCtrl; cbv zeta.
    rewrite H0; cbn [Iterator_eqb negb].
    rewrite redraw_lastSelected; reflexivity.
  - rewrite H; cbv beta iota zeta. unfold mouseDown; cbv zeta.
    rewrite H0; cbn [Iterator_eqb negb].
    match goal with |- context [if ?c then (set_tree st _, true) else _] => destruct c end;
      cbn [fst snd]; [discriminate|].
    intros _. rewrite redraw_lastSelected; reflexivity.
Qed.

Lemma range_press_keeps_lastSelected_witness :
  m_pLastSelected
    (handleEvent (Scenario.tenLeaves (It 1)) (EvtMouseLeftDownCtrl 50 25)) = Some 3
  /\ m_pLastSelected
       (handleEvent
          (handleEvent (Scenario.tenLeaves (It 1)) (EvtMouseLeftDownCtrl 50 25))
          (EvtMouseLeftDownShift 50 5)) = Some 3.
Proof.
  split.
  - exact (proj1 (proj2 (proj2 (range_press_keeps_lastSelected
                                  (Scenario.tenLeaves (It 1)) 50 25))
                        Scenario.fourRows 3 eq_refl eq_refl)).
  - rewrite (proj1 (range_press_keeps_lastSelected _ 50 5)).
    exact (proj1 (proj2 (proj2 (range_press_keeps_lastSelected
                                  (Scenario.tenLeaves (It 1)) 50 25))
                        Scenario.fourRows 3 eq_refl eq_refl)).
Defined.

(** ** Rounding of ties *)

(** [lrint] rounds a tie to the even neighbour: with an excess of one item
    and the position variable at one half, the rank is 1. *)
Lemma targetRank_tie :
  targetRank (Fp.d_div Fp.d_one (Fp.d_of_int 2)) 1 = 1
  /\ targetRank (Fp.d_div Fp.d_one (Fp.d_of_int 2)) 3 = 3.
Proof. split; vm_compute; reflexivity. Qed.

(** * More of the control *)

(** ** Metrics *)

Lemma maxWith_ge (f : GenericBitmap -> Z) (b : option GenericBitmap) (x : Z) :
  x <= maxWith f b x.
Proof. destruct b; simpl; lia. Qed.

Lemma maxWith_bitmap (f : GenericBitmap -> Z) (b : GenericBitmap) (x : Z) :
  f b <= maxWith f (Some b) x.
Proof. simpl; lia. Qed.



(** ** The item under a row *)

Lemma findItemAtPos_nth_witness :
  findItemAtPos (Scenario.tenLeaves (It 3)) 2 = It 5
  /\ findItemAtPos (Scenario.tenLeaves (It 3)) 8 = End
  /\ findItemAtPos (Scenario.tenLeaves (It 3)) (-1) = End.
Proof.
  pose proof (fun pos =>
                findItemAtPos_nth (Scenario.tenLeaves (It 3))
                  (Scenario.leaves 2) (skipn 3 (Scenario.leaves 10)) (Scenario.leaf 3) pos
                  (distinct_NoDup (map Z.of_nat (seq 1 10)) eq_refl) eq_refl eq_refl) as H.
  split; [exact (H 2) | split; [exact (H 8) | exact (H (-1))]].
Defined.

(** ** The observer and a resize *)

Lemma Iterator_eqb_refl (it : Iterator) : Iterator_eqb it it = true.
Proof. destruct it; simpl; [apply Z.eqb_refl | reflexivity]. Qed.

Lemma Iterator_eqb_eq (a b : Iterator) : Iterator_eqb a b = true -> a = b.
Proof.
  destruct a, b; simpl; intros H; try discriminate; [|reflexivity].
  apply Z.eqb_eq in H; subst; reflexivity.
Qed.


Lemma maxItems_frame (st st' : CtrlTree) :
  skin st' = skin st -> m_pPosition st' = m_pPosition st -> maxItems st' = maxItems st.
Proof.
  intros S P. unfold maxItems, itemHeight. rewrite S, P. reflexivity.
Qed.

Lemma anchorFor_frame (st st' : CtrlTree) :
  skin st' = skin st -> m_rTree st' = m_rTree st ->
  m_position st' = m_position st -> m_pPosition st' = m_pPosition st ->
  anchorFor st' = anchorFor st.
Proof.
  intros S T V P. unfold anchorFor, flat.
  rewrite (maxItems_frame st st' S P), S, T, V. reflexivity.
Qed.

Lemma onUpdate_percent_anchorFor (st : CtrlTree) :
  onUpdate_percent st =
    if m_dontMove st then st
    else if Iterator_eqb (m_firstPos st) (anchorFor st) then st
         else notifyLayout (makeImage (set_firstPos st (anchorFor st))).
Proof.
  unfold onUpdate_percent, anchorFor.
  destruct (m_dontMove st); [reflexivity|].
  match goal with |- context [Iterator_eqb ?a ?b] => destruct (Iterator_eqb a b) end;
    reflexivity.
Qed.


(** A second notification of the position variable with the same value finds
    the anchor where the first one put it: it neither rebuilds the frame nor
    notifies the layout again. *)
Theorem onUpdate_percent_settled (st : CtrlTree) :
  onUpdate_percent (onUpdate_percent st) = onUpdate_percent st.
Proof.
  rewrite (onUpdate_percent_anchorFor st).
  destruct (m_dontMove st) eqn:D.
  - rewrite onUpdate_percent_anchorFor, D. reflexivity.
  - destruct (Iterator_eqb (m_firstPos st) (anchorFor st)) eqn:E.
    + rewrite onUpdate_percent_anchorFor, D, E. reflexivity.
    + rewrite onUpdate_percent_anchorFor.
      set (st' := notifyLayout (makeImage (set_firstPos st (anchorFor st)))).
      assert (A : anchorFor st' = anchorFor st).
      { apply anchorFor_frame; unfold st'; simpl; autorewrite with frame; reflexivity. }
      assert (F : m_firstPos st' = anchorFor st)
        by (unfold st'; simpl; autorewrite with frame; reflexivity).
      assert (D' : m_dontMove st' = false)
        by (unfold st'; simpl; autorewrite with frame; exact D).
      rewrite D', A, F, Iterator_eqb_refl. reflexivity.
Qed.



(** ** The frame stays inside the viewport *)

Lemma bandsPlain_withinBottom (st : CtrlTree) (width height i_itemHeight : Z)
      (fuel : nat) :
  forall (yPos : Z) (it : Iterator) (bgColor : Z),
    Forall (withinBottom height)
           (bandsPlain st width height i_itemHeight fuel yPos it bgColor).
Proof.
  induction fuel as [|fuel IH]; intros yPos it bgColor; cbn [bandsPlain];
    [constructor|].
  destruct (yPos <? height); [|constructor].
  destruct (Iterator_eqb it End); constructor; try apply IH; simpl; lia.
Qed.

Lemma bandsOverBitmap_withinBottom (st : CtrlTree) (width height i_itemHeight : Z)
      (fuel : nat) :
  forall (yPos : Z) (it : Iterator),
    Forall (withinBottom height)
           (bandsOverBitmap st width height i_itemHeight fuel yPos it).
Proof.
  induction fuel as [|fuel IH]; intros yPos it; cbn [bandsOverBitmap];
    [constructor|].
  destruct (yPos <? height); [|constructor].
  destruct (negb (Iterator_eqb it End)); [|apply IH].
  apply Forall_app; split; [|apply IH].
  destruct (isSelected (m_rTree st) it); repeat constructor; simpl; lia.
Qed.

Lemma drawRows_withinBottom (st : CtrlTree) (width height i_itemHeight : Z)
      (fuel : nat) :
  forall (yPos : Z) (it : Iterator),
    Forall (withinBottom height)
           (fst (drawRows st width height i_itemHeight fuel yPos it)).
Proof.
  induction fuel as [|fuel IH]; intros yPos it; cbn [drawRows]; [constructor|].
  destruct (negb (Iterator_eqb it End) && (yPos <? height)); [|constructor].
  destruct (deref (m_rTree st) it) as [node|]; [|constructor].
  destruct (m_cString node) as [pStr|]; [|apply IH].
  destruct (drawString _ _ _ _) as [pText|]; [|constructor].
  match goal with |- context [if ?c then ([], true) else _] => destruct c end;
    [constructor|].
  match goal with
  | |- context [drawRows st width height i_itemHeight fuel ?y ?i] =>
      pose proof (IH y i) as R;
      destruct (drawRows st width height i_itemHeight fuel y i) as [ops ok]
  end.
  cbn [fst] in *. apply Forall_app; split.
  - match goal with |- Forall _ (match ?b with Some _ => _ | None => _ end) =>
                      destruct b end; repeat constructor; simpl; lia.
  - constructor; [simpl; lia | exact R].
Qed.

(** Every drawing operation of a frame built by [makeImage] ends at the
    bottom edge of the viewport at the latest: the bands, the icons and the
    labels are clipped there.  The frame has the size of the viewport. *)
Theorem makeImage_within_viewport (st : CtrlTree) (g : OSGraphics) :
  m_pImage (makeImage st) = Live g ->
  exists pos, m_pPosition st = Some pos
              /\ g_width g = getWidth pos /\ g_height g = getHeight pos
              /\ Forall (withinBottom (getHeight pos)) (g_ops g).
Proof.
  unfold makeImage, makeImage_run. cbn [m_pPosition set_image].
  destruct (m_pPosition st) as [pos|] eqn:P.
  - set (st0 := set_image st (delete (m_pImage st))).
    pose proof (drawRows_withinBottom st0 (getWidth pos) (getHeight pos)
                  (itemHeight st0) (S (length (items (flat st0) (m_rTree st0))))
                  0 (m_firstPos st0)) as R.
    fold (drawItems st0 pos) in R.
    assert (B : Forall (withinBottom (getHeight pos)) (snd (drawBackground st0 pos))).
    { unfold drawBackground. destruct (m_pBgBitmap (skin st0)); cbn [snd].
      - constructor; [exact I | apply bandsOverBitmap_withinBottom].
      - constructor; [simpl; lia | apply bandsPlain_withinBottom]. }
    destruct (drawBackground st0 pos) as [scaled background].
    destruct (drawItems st0 pos) as [rows ok]. cbn [fst snd] in *.
    intros E. inversion E; subst. exists pos. cbn [g_width g_height g_ops].
    repeat split; try reflexivity. apply Forall_app; split; assumption.
  - cbn [fst m_pImage]. intros E. destruct (m_pImage st); discriminate E.
Qed.

Lemma makeImage_within_viewport_witness :
  m_pImage (makeImage (Scenario.tenLeaves (It 8)))
  = Live (frameOf (Scenario.tenLeaves (It 8)))
  /\ Forall (withinBottom 40) (g_ops (frameOf (Scenario.tenLeaves (It 8)))).
Proof.
  assert (H : m_pImage (makeImage (Scenario.tenLeaves (It 8)))
              = Live (frameOf (Scenario.tenLeaves (It 8))))
    by (vm_compute; reflexivity).
  split; [exact H|].
  destruct (makeImage_within_viewport _ _ H) as (pos & P & _ & _ & F).
  injection P as <-. exact F.
Defined.

(** ** Rebuilding the frame twice *)

Section SameSkinAndTree.

Variables st st' : CtrlTree.
Hypothesis same_skin : skin st' = skin st.
Hypothesis same_tree : m_rTree st' = m_rTree st.
Variables width height i_itemHeight : Z.




End SameSkinAndTree.

Lemma itemHeight_frame (st st' : CtrlTree) :
  skin st' = skin st -> itemHeight st' = itemHeight st.
Proof. intros S. unfold itemHeight. rewrite S. reflexivity. Qed.


Lemma makeImage_eq (st : CtrlTree) :
  makeImage st =
    match m_pPosition st with
    | None => set_image st (delete (m_pImage st))
    | Some pos =>
        let st0 := set_image st (delete (m_pImage st)) in
        set_image (set_scaledBitmap st0 (fst (drawBackground st0 pos)))
                  (Live (mkGraphics (getWidth pos) (getHeight pos)
                                    (snd (drawBackground st0 pos)
                                     ++ fst (drawItems st0 pos))))
    end.
Proof.
  unfold makeImage, makeImage_run. cbn [m_pPosition set_image].
  destruct (m_pPosition st) as [pos|]; [|reflexivity].
  destruct (drawBackground _ pos), (drawItems _ pos). reflexivity.
Qed.



(** With a background bitmap and a geometry, [makeImage] leaves in
    [m_pScaledBitmap] a bitmap of the size of the viewport, and it is the one
    that was there if that one had this size already. *)
Theorem makeImage_scaled_bitmap (st : CtrlTree) (pos : Position) (bg : GenericBitmap) :
  m_pPosition st = Some pos ->
  m_pBgBitmap (skin st) = Some bg ->
  exists s, m_pScaledBitmap (makeImage st) = Some s
            /\ bmp_width s = getWidth pos /\ bmp_height s = getHeight pos
            /\ (forall old, m_pScaledBitmap st = Some old ->
                            bmp_width old = getWidth pos ->
                            bmp_height old = getHeight pos -> s = old).
Proof.
  intros P B. rewrite makeImage_eq, P. cbv zeta.
  cbn [m_pScaledBitmap set_image set_scaledBitmap].
  unfold drawBackground. cbn [skin set_image m_pScaledBitmap]. rewrite B. cbn [fst].
  destruct (m_pScaledBitmap st) as [s|].
  - destruct (Z.eqb_spec (bmp_width s) (getWidth pos)) as [Ew|Nw];
      [destruct (Z.eqb_spec (bmp_height s) (getHeight pos)) as [Eh|Nh]|];
      cbn [negb orb]; eexists; (split; [reflexivity|]); cbn [bmp_width bmp_height];
      repeat split; try assumption; try reflexivity;
      intros old O; injection O as <-; intros; congruence.
  - eexists; (split; [reflexivity|]); repeat split. intros old O; discriminate O.
Qed.

Lemma makeImage_scaled_bitmap_witness :
  exists s, m_pScaledBitmap (makeImage backgroundControl) = Some s
            /\ bmp_width s = getWidth Scenario.fourRows
            /\ bmp_height s = getHeight Scenario.fourRows
            /\ (forall old, m_pScaledBitmap backgroundControl = Some old ->
                            bmp_width old = getWidth Scenario.fourRows ->
                            bmp_height old = getHeight Scenario.fourRows -> s = old).
Proof.
  exact (makeImage_scaled_bitmap backgroundControl Scenario.fourRows
           (mkBitmap "bg" 10 10) eq_refl eq_refl).
Defined.

(** ** The rows of the frame *)

Lemma liveAfter_skipDeleted (post : list VarTree) :
  liveAfter post = match skipDeleted post with
                   | [] => []
                   | b :: r => b :: liveAfter r
                   end.
Proof.
  induction post as [|x post IH]; [reflexivity|].
  cbn [liveAfter filter skipDeleted]. destruct (m_deleted x) eqn:D; cbn [negb].
  - exact IH.
  - reflexivity.
Qed.

(** The loop over the icons and labels, from an item of the traversal, is
    the list of rows of that item and of the items after it that are not
    deleted. *)
Lemma drawRows_rowsOf (st : CtrlTree) (width height i_itemHeight : Z) :
  wf_tree (m_rTree st) ->
  forall (k : nat) (post pre : list VarTree) (a : VarTree) (fuel : nat) (yPos : Z),
    (length post <= k)%nat ->
    items (flat st) (m_rTree st) = pre ++ a :: post ->
    (length post < fuel)%nat ->
    drawRows st width height i_itemHeight fuel yPos (It (m_id a))
    = rowsOf st width height i_itemHeight yPos (a :: liveAfter post).
Proof.
  intros W k; induction k as [|k IH]; intros post pre a fuel yPos K L F;
    (destruct fuel as [|fuel]; [inversion F|]);
    cbn [drawRows rowsOf Iterator_eqb negb andb];
    rewrite (nextLive_skipDeleted (flat st) (m_rTree st) W post _ pre a L)
      by (rewrite L, length_app; simpl; lia);
    rewrite (deref_item (flat st) (m_rTree st) a W)
      by (rewrite L; apply in_or_app; right; left; reflexivity);
    assert (Pl : isPlaying (m_rTree st) (It (m_id a)) = m_playing a)
      by (unfold isPlaying, flagOf;
          rewrite (deref_item (flat st) (m_rTree st) a W)
            by (rewrite L; apply in_or_app; right; left; reflexivity);
          reflexivity);
    rewrite Pl;
    destruct (skipDeleted_suffix post) as [sk Hsk];
    assert (Next : forall y,
               drawRows st width height i_itemHeight fuel y (head_it (skipDeleted post))
               = rowsOf st width height i_itemHeight y (liveAfter post)).
  1, 3: intros y; rewrite (liveAfter_skipDeleted post);
        destruct (skipDeleted post) as [|b post'] eqn:Sd.
  - cbn [head_it]. rewrite drawRows_End. reflexivity.
  - exfalso. destruct post; [discriminate Sd | simpl in K; lia].
  - cbn [head_it]. rewrite drawRows_End. reflexivity.
  - cbn [head_it].
    assert (Lp : (length post = length sk + S (length post'))%nat)
      by (rewrite Hsk at 1; rewrite length_app; reflexivity).
    apply (IH post' (pre ++ a :: sk) b fuel y); try lia.
    rewrite L, Hsk at 1. rewrite <- app_assoc. reflexivity.
  - destruct post; [|simpl in K; lia]. clear Next.
    destruct (yPos <? height); [|reflexivity].
    destruct (m_cString a) as [pStr|]; [|destruct fuel; reflexivity].
    destruct (drawString _ _ _ _) as [pText|]; [|reflexivity].
    unfold iconOf. destruct fuel; cbn [skipDeleted head_it drawRows liveAfter filter rowsOf];
      destruct (if negb (size a =? 0) then _ else _) as [bmp|];
      try destruct (_ >=? height); reflexivity.
  - destruct (yPos <? height); [|reflexivity].
    destruct (m_cString a) as [pStr|]; [|apply Next].
    destruct (drawString _ _ _ _) as [pText|]; [|reflexivity].
    unfold iconOf, labelOp.
    assert (Y : forall top : Z,
               (if top <? 0 then 0 else top)
               + (bmp_height pText - (if top <? 0 then - top else 0))
               = top + bmp_height pText)
      by (intros top; destruct (top <? 0); lia).
    destruct (if negb (size a =? 0) then _ else _) as [bmp|].
    + destruct (_ >=? height); [reflexivity|].
      rewrite Y.
      replace (yPos + (i_itemHeight - bmp_height pText) + bmp_height pText)
        with (yPos + i_itemHeight) by lia.
      rewrite Next. reflexivity.
    + rewrite Y.
      replace (yPos + (i_itemHeight - bmp_height pText) + bmp_height pText)
        with (yPos + i_itemHeight) by lia.
      rewrite Next. reflexivity.
Qed.

(** The second loop of [makeImage], with the anchor on an item of the
    traversal: it draws the anchor, deleted or not, and then the items after
    it that are not deleted.  Each item that has a label takes one row of
    [itemHeight()] pixels, whatever the height of its label: the label is
    drawn with its bottom edge on the bottom edge of the row, and the next
    row starts [itemHeight()] pixels lower.  An item without a label takes
    no row. *)
Theorem drawItems_rows (st : CtrlTree) (pos : Position)
        (pre post : list VarTree) (a : VarTree) :
  wf_tree (m_rTree st) ->
  items (flat st) (m_rTree st) = pre ++ a :: post ->
  m_firstPos st = It (m_id a) ->
  drawItems st pos
  = rowsOf st (getWidth pos) (getHeight pos) (itemHeight st) 0 (a :: liveAfter post).
Proof.
  intros W L A. unfold drawItems. rewrite A.
  apply (drawRows_rowsOf st _ _ _ W (length post) post pre a); [lia | exact L|].
  rewrite L, length_app. simpl. lia.
Qed.

Lemma drawItems_rows_witness :
  fst (drawItems deletedSecond Scenario.fourRows)
  = [OpDrawBitmap (mkBitmap "item" 40 9) 0 0 7 1 40 9 true;
     OpDrawBitmap (mkBitmap "item" 40 9) 0 0 7 11 40 9 true].
Proof.
  rewrite (drawItems_rows deletedSecond Scenario.fourRows []
             [Scenario.deleted (Scenario.leaf 2); Scenario.leaf 3] (Scenario.leaf 1)
             (distinct_NoDup [1; 2; 3] eq_refl) eq_refl eq_refl).
  vm_compute. reflexivity.
Defined.

(** ** Items in the viewport *)

Lemma indexIn_app_l (pre r : list VarTree) (i : Z) :
  In i (ids pre) -> indexIn (pre ++ r) i = indexIn pre i /\ (indexIn pre i < length pre)%nat.
Proof.
  induction pre as [|y pre IH]; simpl; intros H; [contradiction|].
  destruct (Z.eqb_spec (m_id y) i) as [E|N]; [split; [reflexivity | lia]|].
  destruct H as [H|H]; [contradiction|].
  destruct (IH H) as [E L]. rewrite E. split; [reflexivity | lia].
Qed.

Lemma indexIn_app_r (pre r : list VarTree) (i : Z) :
  ~ In i (ids pre) -> indexIn (pre ++ r) i = (length pre + indexIn r i)%nat.
Proof.
  induction pre as [|y pre IH]; simpl; intros H; [reflexivity|].
  destruct (Z.eqb_spec (m_id y) i) as [E|N]; [exfalso; apply H; left; exact E|].
  rewrite IH by (intros K; apply H; right; exact K). reflexivity.
Qed.

Lemma existsb_id_false (l : list VarTree) (i : Z) :
  ~ In i (ids l) -> existsb (fun y => m_id y =? i) l = false.
Proof.
  induction l as [|y l IH]; simpl; intros H; [reflexivity|].
  destruct (Z.eqb_spec (m_id y) i) as [E|N]; [exfalso; apply H; left; exact E|].
  apply IH. intros K; apply H; right; exact K.
Qed.

Lemma existsb_firstn_indexIn (r : list VarTree) (i : Z) :
  In i (ids r) ->
  forall m : nat,
    existsb (fun y => m_id y =? i) (firstn m r) = (indexIn r i <? m)%nat.
Proof.
  induction r as [|y r IH]; simpl; intros H m; [contradiction|].
  destruct m as [|m]; cbn [firstn existsb].
  - destruct (m_id y =? i); reflexivity.
  - destruct (Z.eqb_spec (m_id y) i) as [E|N]; [reflexivity|].
    destruct H as [H|H]; [contradiction|].
    cbn [orb]. rewrite IH by exact H. reflexivity.
Qed.

Lemma NoDup_app_disjoint {A : Type} (l1 l2 : list A) (x : A) :
  NoDup (l1 ++ l2) -> In x l1 -> In x l2 -> False.
Proof.
  induction l1 as [|y l1 IH]; simpl; intros N H1 H2; [contradiction|].
  inversion N as [|? ? Hy N']; subst.
  destruct H1 as [->|H1]; [|exact (IH N' H1 H2)].
  apply Hy, in_or_app; right; exact H2.
Qed.

Lemma findById_item (fl : bool) (t : VarTree) (x : VarTree) :
  In x (items fl t) -> findById t (m_id x) = It (m_id x).
Proof.
  intros H. unfold findById, findIn.
  destruct (find (fun y => m_id y =? m_id x) (nodes t)) eqn:F; [reflexivity|].
  assert (K : (m_id x =? m_id x) = false).
  { apply (find_none _ _ F x). eapply subseq_In; [apply items_subseq | exact H]. }
  rewrite Z.eqb_refl in K. discriminate K.
Qed.

(** An item of the traversal is deemed visible exactly when it is among the
    [maxItems()] items that start with the anchor. *)
Theorem isItemVisible_window (st : CtrlTree) (pre post : list VarTree) (a x : VarTree) :
  wf_tree (m_rTree st) ->
  items (flat st) (m_rTree st) = pre ++ a :: post ->
  m_firstPos st = It (m_id a) ->
  In x (items (flat st) (m_rTree st)) ->
  isItemVisible st (m_id x) =
    existsb (fun y => m_id y =? m_id x) (firstn (Z.to_nat (maxItems st)) (a :: post)).
Proof.
  intros W L A Hx. unfold isItemVisible.
  rewrite (findById_item (flat st) _ x Hx), A. unfold getRank.
  fold (items (flat st) (m_rTree st)).
  pose proof (items_NoDup (flat st) _ W) as N. rewrite L in N |- *.
  unfold ids in N. rewrite map_app in N. fold (ids pre) in N. fold (ids (a :: post)) in N.
  assert (Ka : indexIn (pre ++ a :: post) (m_id a) = length pre).
  { rewrite indexIn_app_r.
    - simpl. rewrite Z.eqb_refl. lia.
    - intros K. apply (NoDup_app_disjoint _ _ (m_id a) N K). left; reflexivity. }
  rewrite Ka. rewrite L in Hx. apply in_app_or in Hx. destruct Hx as [Hx|Hx].
  - assert (Ix : In (m_id x) (ids pre)) by (apply in_map; exact Hx).
    destruct (indexIn_app_l pre (a :: post) (m_id x) Ix) as [E Lt]. rewrite E.
    rewrite existsb_id_false.
    + destruct (Z.geb_spec (Z.of_nat (indexIn pre (m_id x)) + 1)
                           (Z.of_nat (length pre) + 1)); [lia | reflexivity].
    + intros K. apply (NoDup_app_disjoint _ _ (m_id x) N Ix).
      apply in_map_iff in K. destruct K as (y & Ey & Hy).
      rewrite <- Ey. apply in_map.
      rewrite <- (firstn_skipn (Z.to_nat (maxItems st)) (a :: post)).
      apply in_or_app; left; exact Hy.
  - assert (Ix : In (m_id x) (ids (a :: post))) by (apply in_map; exact Hx).
    rewrite indexIn_app_r
      by (intros K; exact (NoDup_app_disjoint _ _ (m_id x) N K Ix)).
    rewrite existsb_firstn_indexIn by exact Ix.
    set (j := indexIn (a :: post) (m_id x)).
    destruct (Z.geb_spec (Z.of_nat (length pre + j) + 1) (Z.of_nat (length pre) + 1));
      [|lia].
    cbn [andb].
    destruct (Z.leb_spec (Z.of_nat (length pre + j) + 1)
                         (Z.of_nat (length pre) + 1 + maxItems st - 1)),
      (Nat.ltb_spec j (Z.to_nat (maxItems st))); try reflexivity; lia.
Qed.

Lemma isItemVisible_window_witness :
  isItemVisible (Scenario.tenLeaves (It 3)) 6 = true
  /\ isItemVisible (Scenario.tenLeaves (It 3)) 7 = false
  /\ isItemVisible (Scenario.tenLeaves (It 3)) 2 = false.
Proof.
  assert (W : wf_tree (m_rTree (Scenario.tenLeaves (It 3))))
    by (apply distinct_NoDup; vm_compute; reflexivity).
  pose proof (fun x H =>
                isItemVisible_window (Scenario.tenLeaves (It 3))
                  (Scenario.leaves 2) (skipn 3 (Scenario.leaves 10)) (Scenario.leaf 3) x
                  W eq_refl eq_refl H) as V.
  split; [|split].
  - refine (eq_trans (V (Scenario.leaf 6) _) _); [vm_compute; tauto | reflexivity].
  - refine (eq_trans (V (Scenario.leaf 7) _) _); [vm_compute; tauto | reflexivity].
  - refine (eq_trans (V (Scenario.leaf 2) _) _); [vm_compute; tauto | reflexivity].
Defined.

(** ** Showing an item of the traversal *)

Lemma withChildren_same (n : VarTree) : withChildren n (m_children n) = n.
Proof. destruct n; reflexivity. Qed.

Lemma map_id_Forall {A : Type} (f : A -> A) (l : list A) :
  Forall (fun x => f x = x) l -> map f l = l.
Proof. intros H; induction H; simpl; congruence. Qed.

Lemma expandToward_absent (i : Z) (n : VarTree) :
  ~ In i (ids (allItems n)) -> expandToward i n = n.
Proof.
  induction n as [id s sel pl ex del cs IH] using VarTree_forall_ind.
  intros H. rewrite allItems_eq in H. cbn [ids map m_id m_children] in H.
  cbn [expandToward].
  rewrite existsb_id_false by (intros K; apply H; right; exact K).
  f_equal. apply map_id_Forall.
  assert (Hc : ~ In i (ids (flat_map allItems cs))) by (intros K; apply H; right; exact K).
  clear H. induction IH as [|c r Pc _ IHr]; constructor.
  - apply Pc. intros K. apply Hc. simpl. unfold ids. rewrite map_app.
    apply in_or_app; left; exact K.
  - apply IHr. intros K. apply Hc. simpl. unfold ids. rewrite map_app.
    apply in_or_app; right; exact K.
Qed.

Lemma visible_In_allItems (n x : VarTree) : In x (visible n) -> In x (allItems n).
Proof. apply subseq_In, visible_subseq. Qed.

Lemma flat_map_visible_ids (cs : list VarTree) (x : VarTree) :
  In x (flat_map visible cs) -> In (m_id x) (ids (flat_map allItems cs)).
Proof.
  intros H. apply in_map. revert H. apply subseq_In, subseq_flat_map, Forall_forall.
  intros c _. apply visible_subseq.
Qed.

(** Expanding toward an item that is visible below a list of nodes changes
    none of them. *)
Lemma expandToward_visible_list (cs : list VarTree) (x : VarTree) :
  Forall (fun c => NoDup (ids (allItems c)) -> In x (visible c) ->
                   expandToward (m_id x) c = c) cs ->
  NoDup (ids (flat_map allItems cs)) ->
  In x (flat_map visible cs) ->
  map (expandToward (m_id x)) cs = cs.
Proof.
  intros IH. induction IH as [|c r Pc _ IHr]; intros N H; [reflexivity|].
  cbn [flat_map map] in *. unfold ids in N. rewrite map_app in N.
  fold (ids (allItems c)) in N. fold (ids (flat_map allItems r)) in N.
  apply in_app_or in H. destruct H as [H|H].
  - f_equal.
    + apply Pc; [exact (NoDup_app_remove_r _ _ N) | exact H].
    + apply map_id_Forall, Forall_forall. intros c' Hc'. apply expandToward_absent.
      intros K. apply (NoDup_app_disjoint _ _ (m_id x) N).
      * apply in_map, visible_In_allItems, H.
      * unfold ids. apply in_map_iff in K. destruct K as (y & Ey & Hy).
        rewrite <- Ey. apply in_map, in_flat_map. exists c'. split; assumption.
  - f_equal.
    + apply expandToward_absent. intros K.
      exact (NoDup_app_disjoint _ _ (m_id x) N K (flat_map_visible_ids r x H)).
    + apply IHr; [exact (NoDup_app_remove_l _ _ N) | exact H].
Qed.

Lemma expandToward_visible (x : VarTree) (n : VarTree) :
  NoDup (ids (allItems n)) -> In x (visible n) -> expandToward (m_id x) n = n.
Proof.
  induction n as [id s sel pl ex del cs IH] using VarTree_forall_ind.
  intros N H.
  rewrite allItems_eq in N. cbn [ids map m_id m_children] in N.
  inversion N as [|? ? Hid N']; subst.
  rewrite visible_eq in H. cbn [m_expanded m_children] in H.
  cbn [expandToward].
  destruct H as [<-|H].
  - cbn [m_id]. rewrite existsb_id_false by exact Hid.
    f_equal. apply map_id_Forall, Forall_forall. intros c Hc.
    apply expandToward_absent. intros K. apply Hid.
    unfold ids. apply in_map_iff in K. destruct K as (y & Ey & Hy).
    rewrite <- Ey. apply in_map, in_flat_map. exists c. split; assumption.
  - destruct ex; [|contradiction].
    rewrite (expandToward_visible_list cs x IH N' H).
    destruct (existsb _ _); reflexivity.
Qed.

(** In hierarchical mode the ancestors of an item of the traversal are
    expanded already: [ensureExpanded] changes nothing. *)
Lemma ensureExpanded_visItem (t : VarTree) (x : VarTree) :
  wf_tree t -> In x (visItems t) -> ensureExpanded t (It (m_id x)) = t.
Proof.
  intros W H. unfold ensureExpanded.
  rewrite (expandToward_visible_list (m_children t) x); [apply withChildren_same | | exact W | exact H].
  apply Forall_forall. intros c _. apply expandToward_visible.
Qed.

Lemma leafs_expandToward (i : Z) (n : VarTree) :
  ids (leafs (expandToward i n)) = ids (leafs n).
Proof.
  induction n as [id s sel pl ex del cs IH] using VarTree_forall_ind.
  cbn [expandToward]. rewrite !leafs_eq. cbn [m_children].
  destruct cs as [|c cs]; [reflexivity|].
  change (map (expandToward i) (c :: cs))
    with (expandToward i c :: map (expandToward i) cs).
  change (expandToward i c :: map (expandToward i) cs)
    with (map (expandToward i) (c :: cs)).
  destruct (map (expandToward i) (c :: cs)) eqn:E; [discriminate E|]. rewrite <- E.
  rewrite flat_map_map. unfold ids. rewrite !map_flat_map.
  apply flat_map_ext_Forall, IH.
Qed.

(** [ensureExpanded] on an item of the traversal keeps the traversal. *)
Lemma items_ensureExpanded (fl : bool) (t : VarTree) (x : VarTree) :
  wf_tree t -> In x (items fl t) ->
  ids (items fl (ensureExpanded t (It (m_id x)))) = ids (items fl t).
Proof.
  intros W H. destruct fl.
  - unfold items, flatItems, ensureExpanded. cbn [withChildren m_children].
    rewrite flat_map_map. unfold ids. rewrite !map_flat_map.
    apply flat_map_ext_Forall, Forall_forall. intros c _. apply leafs_expandToward.
  - rewrite (ensureExpanded_visItem t x W H). reflexivity.
Qed.

Lemma indexIn_ids (l1 : list VarTree) :
  forall (l2 : list VarTree) (i : Z), ids l1 = ids l2 -> indexIn l1 i = indexIn l2 i.
Proof.
  induction l1 as [|x l1 IH]; intros [|y l2] i E; simpl in E; try discriminate;
    [reflexivity|].
  inversion E as [[E1 E2]]. simpl. rewrite E1.
  destruct (m_id y =? i); [reflexivity|]. f_equal. apply IH; exact E2.
Qed.

Lemma getRank_ids (t t' : VarTree) (it : Iterator) (fl : bool) :
  ids (items fl t') = ids (items fl t) -> getRank t' it fl = getRank t it fl.
Proof.
  intros E. unfold getRank. fold (items fl t'). fold (items fl t).
  destruct it as [i|].
  - rewrite (indexIn_ids _ _ i E). reflexivity.
  - assert (L : length (ids (items fl t')) = length (ids (items fl t)))
      by (rewrite E; reflexivity).
    unfold ids in L. rewrite !length_map in L. rewrite L. reflexivity.
Qed.

(** For an item of the traversal, [ensureVisible] moves the position variable
    exactly when [isItemVisible] answers no for the item; when it answers
    yes, the position variable, the anchor and the frame stay as they are. *)
Theorem ensureVisible_unless_visible (st : CtrlTree) (x : VarTree) :
  wf_tree (m_rTree st) ->
  In x (items (flat st) (m_rTree st)) ->
  snd (ensureVisible st (It (m_id x))) = negb (isItemVisible st (m_id x))
  /\ (isItemVisible st (m_id x) = true ->
      m_position (fst (ensureVisible st (It (m_id x)))) = m_position st
      /\ m_firstPos (fst (ensureVisible st (It (m_id x)))) = m_firstPos st
      /\ m_pImage (fst (ensureVisible st (It (m_id x)))) = m_pImage st).
Proof.
  intros W H.
  pose proof (items_ensureExpanded (flat st) (m_rTree st) x W H) as E.
  rewrite ensureVisible_unfold. unfold isItemVisible.
  rewrite (findById_item (flat st) _ x H).
  rewrite !(getRank_ids (m_rTree st) _ _ (flat st) E).
  set (r1 := getRank (m_rTree st) (m_firstPos st) (flat st)).
  set (r2 := getRank (m_rTree st) (It (m_id x)) (flat st)).
  assert (C : ((r2 - 1 <? r1 - 1) || (r2 - 1 >? r1 - 1 + maxItems st - 1))
              = negb ((r2 >=? r1) && (r2 <=? r1 + maxItems st - 1))).
  { rewrite Z.gtb_ltb.
    destruct (Z.ltb_spec (r2 - 1) (r1 - 1)), (Z.ltb_spec (r1 - 1 + maxItems st - 1) (r2 - 1)),
      (Z.geb_spec r2 r1), (Z.leb_spec r2 (r1 + maxItems st - 1)); try reflexivity; lia. }
  rewrite C.
  destruct ((r2 >=? r1) && (r2 <=? r1 + maxItems st - 1)); cbn [negb fst snd].
  - split; [reflexivity|]. intros _. repeat split.
  - split; [reflexivity|]. intros K; discriminate K.
Qed.

Lemma ensureVisible_unless_visible_witness :
  isItemVisible (Scenario.tenLeaves (It 3)) (m_id (Scenario.leaf 5)) = true
  /\ snd (ensureVisible (Scenario.tenLeaves (It 3)) (It (m_id (Scenario.leaf 5))))
     = negb (isItemVisible (Scenario.tenLeaves (It 3)) (m_id (Scenario.leaf 5)))
  /\ m_firstPos (fst (ensureVisible (Scenario.tenLeaves (It 3))
                                    (It (m_id (Scenario.leaf 5)))))
     = m_firstPos (Scenario.tenLeaves (It 3)).
Proof.
  assert (W : wf_tree (m_rTree (Scenario.tenLeaves (It 3))))
    by (apply distinct_NoDup; vm_compute; reflexivity).
  assert (H : In (Scenario.leaf 5)
                 (items (flat (Scenario.tenLeaves (It 3)))
                        (m_rTree (Scenario.tenLeaves (It 3)))))
    by (vm_compute; tauto).
  destruct (ensureVisible_unless_visible (Scenario.tenLeaves (It 3)) (Scenario.leaf 5) W H)
    as [S V].
  split; [reflexivity|]. split; [exact S|].
  exact (proj1 (proj2 (V eq_refl))).
Defined.

(** ** Scrolling to the playing item *)

Lemma isPlaying_node (t : VarTree) (x : VarTree) :
  wf_tree t -> In x (nodes t) -> isPlaying t (It (m_id x)) = m_playing x.
Proof.
  intros W H. unfold isPlaying, flagOf, deref. rewrite (findIn_In _ x W H). reflexivity.
Qed.

Lemma autoScroll_loop_find (st : CtrlTree) (rest : list VarTree) :
  wf_tree (m_rTree st) ->
  forall (fuel : nat) (pre : list VarTree),
    (if flat st then flatItems (m_rTree st) else nodes (m_rTree st)) = pre ++ rest ->
    (length rest <= fuel)%nat ->
    autoScroll_loop fuel st (head_it rest) =
      match find m_playing rest with
      | Some x => fst (ensureVisible st (It (m_id x)))
      | None => st
      end.
Proof.
  intros W. induction rest as [|a rest IH]; intros fuel pre L F.
  - destruct fuel; reflexivity.
  - destruct fuel as [|fuel]; [inversion F|].
    assert (N : NoDup (ids (pre ++ a :: rest))).
    { rewrite <- L. destruct (flat st); [apply (items_NoDup true _ W) | exact W]. }
    assert (Ha : In a (nodes (m_rTree st))).
    { assert (K : In a (if flat st then flatItems (m_rTree st) else nodes (m_rTree st)))
        by (rewrite L; apply in_or_app; right; left; reflexivity).
      destruct (flat st); [|exact K].
      eapply subseq_In; [apply (items_subseq true) | exact K]. }
    cbn [autoScroll_loop head_it Iterator_eqb find].
    rewrite (isPlaying_node _ a W Ha).
    destruct (m_playing a); [reflexivity|].
    assert (E : (if flat st then getNextLeaf (m_rTree st) (It (m_id a))
                 else getNextItem (m_rTree st) (It (m_id a))) = head_it rest).
    { unfold getNextLeaf, getNextItem. destruct (flat st); rewrite L;
        apply (nextIn_app pre rest a); exact N. }
    rewrite E. apply (IH fuel (pre ++ [a])).
    + rewrite <- app_assoc. exact L.
    + simpl in F; lia.
Qed.

(** [autoScroll] calls [ensureVisible] on the first playing item, among the
    leafs in flat mode and among all the items, folded away or not,
    otherwise; without a playing item it does nothing. *)
Theorem autoScroll_first_playing (st : CtrlTree) :
  wf_tree (m_rTree st) ->
  autoScroll st =
    match find m_playing (if flat st then flatItems (m_rTree st) else nodes (m_rTree st)) with
    | Some x => fst (ensureVisible st (It (m_id x)))
    | None => st
    end.
Proof.
  intros W. unfold autoScroll.
  assert (S : start (flat st) (m_rTree st)
              = head_it (if flat st then flatItems (m_rTree st) else nodes (m_rTree st))).
  { unfold start, firstLeaf, begin, nodes. destruct (flat st); [reflexivity|].
    destruct (m_children (m_rTree st)) as [|c cs]; [reflexivity|].
    destruct c; reflexivity. }
  rewrite S. apply (autoScroll_loop_find st _ W _ []); [reflexivity|].
  destruct (flat st); [|apply Nat.le_refl].
  pose proof (items_subseq true (m_rTree st)) as Sub. cbn [items] in Sub.
  clear -Sub. induction Sub; simpl; lia.
Qed.

Lemma autoScroll_first_playing_witness :
  autoScroll playingInside = fst (ensureVisible playingInside (It 3))
  /\ isExpanded (m_rTree (autoScroll playingInside)) (It 1) = true.
Proof.
  split; [|vm_compute; reflexivity].
  exact (autoScroll_first_playing playingInside
           (distinct_NoDup [1; 2; 3; 4] eq_refl)).
Defined.

(** ** Page up *)

(** The walk of the Page Up branch goes [k] items back, or to the first item
    if fewer than [k] items precede. *)
Lemma pageUpWalk_reaches (fl : bool) (t : VarTree) (k : nat) :
  wf_tree t ->
  forall (pre post : list VarTree) (a : VarTree),
    items fl t = pre ++ a :: post ->
    pre <> [] ->
    pageUpWalk k fl t (It (m_id a)) =
      It (m_id (nth (length pre - k) (pre ++ [a]) a)).
Proof.
  intros W. induction k as [|k IH]; intros pre post a L Hpre.
  - cbn [pageUpWalk]. rewrite Nat.sub_0_r, app_nth2, Nat.sub_diag by lia. reflexivity.
  - pose proof (items_NoDup fl t W) as N. rewrite L in N.
    destruct (exists_last Hpre) as (pre' & x & ->).
    rewrite <- app_assoc in L, N. cbn [app] in L, N.
    cbn [pageUpWalk]. rewrite prev_items, L, (prevIn_app pre' post x a N).
    rewrite start_head, L.
    destruct pre' as [|y pre'].
    + cbn [app head_it Iterator_eqb]. rewrite Z.eqb_refl. reflexivity.
    + rewrite (head_it_app (y :: pre') (a :: post) x) by (discriminate || exact N).
      rewrite (IH (y :: pre') (a :: post) x L) by discriminate.
      rewrite length_app. cbn [length].
      replace (S (length pre') + 1 - S k)%nat with (S (length pre') - k)%nat by lia.
      rewrite (app_nth1 ((y :: pre') ++ [x]) [a])
        by (rewrite length_app; cbn [length]; lia).
      apply f_equal, f_equal, nth_indep. rewrite length_app. cbn [length]. lia.
Qed.

(** With the anchor on an item that is not the first one, the Page Up key
    walks [maxItems() - maxItems()/2 + 1] items back from the anchor, or to
    the first item if fewer precede; it calls [ensureVisible] on the item
    reached and redraws the control, in every case. *)
Theorem page_up_walk (st : CtrlTree) (pre post : list VarTree) (a : VarTree) :
  wf_tree (m_rTree st) ->
  items (flat st) (m_rTree st) = pre ++ a :: post ->
  pre <> [] ->
  m_firstPos st = It (m_id a) ->
  handleEvent st (EvtKeyDown KEY_PAGEUP) =
    redraw
      (fst (ensureVisible st
              (It (m_id (nth (length pre
                              - Z.to_nat (maxItems st - Z.quot (maxItems st) 2 + 1))
                             (pre ++ [a]) a))))).
Proof.
  intros W L Hpre A. unfold handleEvent; cbv beta iota zeta. unfold keyPageUp.
  rewrite A, (pageUpWalk_reaches (flat st) (m_rTree st) _ W pre post a L Hpre).
  reflexivity.
Qed.

Lemma page_up_walk_witness :
  handleEvent (Scenario.control true (Scenario.leaves 20) (It 10) None)
              (EvtKeyDown KEY_PAGEUP) =
    redraw (fst (ensureVisible (Scenario.control true (Scenario.leaves 20) (It 10) None)
                               (It 7))).
Proof.
  refine (page_up_walk (Scenario.control true (Scenario.leaves 20) (It 10) None)
            (firstn 9 (Scenario.leaves 20)) (skipn 10 (Scenario.leaves 20))
            (Scenario.leaf 10)
            (distinct_NoDup (map Z.of_nat (seq 1 20)) eq_refl) eq_refl _ eq_refl).
  discriminate.
Defined.

(** ** The index of the anchor *)

Lemma runList_count (anchor : Iterator) (t : VarTree) (l : list VarTree) :
  forall n : Z,
    snd (runList (fun (it : Iterator) (s : VarTree * Z) =>
                    if Iterator_eqb it anchor then (s, true)
                    else ((fst s, snd s + 1), false)) (ids l) (t, n))
    = n + match anchor with
          | It i => Z.of_nat (indexIn l i)
          | End => Z.of_nat (length l)
          end.
Proof.
  induction l as [|x r IH]; intros n; cbn [runList ids map].
  - destruct anchor; simpl; lia.
  - destruct anchor as [i|]; cbn [Iterator_eqb indexIn length].
    + destruct (m_id x =? i); cbn [snd fst]; [lia|].
      fold (ids r). rewrite IH. lia.
    + cbn [snd fst]. fold (ids r). rewrite IH. lia.
Qed.

(** With the anchor on an item of the traversal, the index of the anchor
    that the end of [handleEvent] counts with its own loop is the number of
    items before the anchor, and it is the rank [ensureVisible] asks the tree
    for, less one. *)
Theorem firstIndex_rank (st : CtrlTree) (pre post : list VarTree) (a : VarTree) :
  wf_tree (m_rTree st) ->
  items (flat st) (m_rTree st) = pre ++ a :: post ->
  m_firstPos st = It (m_id a) ->
  firstIndex st = Z.of_nat (length pre)
  /\ firstIndex st = getRank (m_rTree st) (m_firstPos st) (flat st) - 1.
Proof.
  intros W L A. unfold firstIndex.
  pose proof (forEach_runList (VarTree * Z) (flat st) fst
                (fun (it : Iterator) (s : VarTree * Z) =>
                   if Iterator_eqb it (m_firstPos st) then (s, true)
                   else ((fst s, snd s + 1), false))
                ltac:(intros it s; cbv beta;
                      destruct (Iterator_eqb it (m_firstPos st)); reflexivity)
                (m_rTree st, 0) (items_NoDup _ _ W)) as FR.
  cbn [fst] in FR. rewrite FR.
  rewrite runList_count. unfold getRank. fold (items (flat st) (m_rTree st)).
  rewrite A.
  assert (K : indexIn (items (flat st) (m_rTree st)) (m_id a) = length pre).
  { pose proof (items_NoDup (flat st) _ W) as N. rewrite L in N |- *.
    unfold ids in N. rewrite map_app in N.
    rewrite indexIn_app_r.
    - simpl. rewrite Z.eqb_refl. lia.
    - intros K. apply (NoDup_app_disjoint _ _ (m_id a) N K). left; reflexivity. }
  rewrite K. lia.
Qed.

Lemma firstIndex_rank_witness :
  firstIndex (Scenario.tenLeaves (It 3)) = 2
  /\ firstIndex (Scenario.tenLeaves (It 3))
     = getRank (m_rTree (Scenario.tenLeaves (It 3))) (It 3) true - 1.
Proof.
  exact (firstIndex_rank (Scenario.tenLeaves (It 3))
           (Scenario.leaves 2) (skipn 3 (Scenario.leaves 10)) (Scenario.leaf 3)
           (distinct_NoDup (map Z.of_nat (seq 1 10)) eq_refl) eq_refl eq_refl).
Defined.

(** ** A ctrl press *)

Lemma modify_twice (i : Z) (f : VarTree -> VarTree) (n : VarTree) :
  (forall m, f (f m) = m) ->
  (forall m, m_children (f m) = m_children m) ->
  (forall m cs, f (withChildren m cs) = withChildren (f m) cs) ->
  (forall m, m_id (f m) = m_id m) ->
  modify i f (modify i f n) = n.
Proof.
  intros Inv Fc Fw Fi.
  induction n as [id s sel pl ex del cs IH] using VarTree_forall_ind.
  assert (M : map (modify i f) (map (modify i f) cs) = cs).
  { rewrite map_map. apply map_id_Forall, IH. }
  rewrite (modify_eq i f (mkVarTree id s sel pl ex del cs)).
  cbn [m_id m_children withChildren m_cString m_selected m_playing m_expanded m_deleted].
  destruct (Z.eqb_spec id i) as [E|NE].
  - subst i. rewrite modify_eq, Fi, Fc. cbn [m_id m_children withChildren].
    rewrite Z.eqb_refl, M.
    match goal with |- f (withChildren (f ?n) cs) = _ =>
                      rewrite <- (Fw n cs), Inv end.
    reflexivity.
  - rewrite modify_eq. cbn [m_id m_children withChildren m_cString m_selected m_playing
                            m_expanded m_deleted].
    rewrite (proj2 (Z.eqb_neq id i) NE), M. reflexivity.
Qed.

Lemma toggleSelected_twice (t : VarTree) (it : Iterator) :
  toggleSelected (toggleSelected t it) it = t.
Proof.
  destruct it as [i|]; [|reflexivity].
  unfold toggleSelected, update. cbn [withChildren m_children m_id m_cString m_selected
                                      m_playing m_expanded m_deleted].
  rewrite map_map.
  rewrite (map_id_Forall (fun c => modify i _ (modify i _ c))).
  - destruct t; reflexivity.
  - apply Forall_forall. intros c _. apply modify_twice.
    + intros [id s sel pl ex del cs]. unfold withSelected. cbn. rewrite negb_involutive.
      reflexivity.
    + intros m; reflexivity.
    + intros m cs; reflexivity.
    + intros m; reflexivity.
Qed.

Lemma ids_items_toggleSelected (fl : bool) (t : VarTree) (it : Iterator) :
  ids (items fl (toggleSelected t it)) = ids (items fl t).
Proof.
  destruct it as [i|]; [|reflexivity]. unfold toggleSelected.
  match goal with |- ids (items fl (update ?F t (It i))) = _ =>
    assert (E : items fl (update F t (It i)) = map (modify i F) (items fl t))
      by (apply items_update; try reflexivity; intros n; reflexivity)
  end.
  rewrite E. apply ids_modify. intros n; reflexivity.
Qed.

Lemma next_ids (fl : bool) (t t' : VarTree) (it : Iterator) :
  ids (items fl t') = ids (items fl t) -> next fl t' it = next fl t it.
Proof.
  intros E. destruct it as [i|]; [|destruct fl; reflexivity].
  rewrite !next_items. apply nextIn_ids. exact E.
Qed.

Lemma findItemAtPos_loop_ids (fl : bool) (t t' : VarTree) (fuel : nat) :
  ids (items fl t') = ids (items fl t) ->
  forall (it : Iterator) (pos : Z),
    findItemAtPos_loop fuel fl t' it pos = findItemAtPos_loop fuel fl t it pos.
Proof.
  intros E. induction fuel as [|fuel IH]; intros it pos; cbn [findItemAtPos_loop];
    [reflexivity|].
  rewrite (next_ids fl t t' it E), IH. reflexivity.
Qed.

(** The item under a row depends on the addresses of the traversal and on
    the anchor only. *)
Lemma findItemAtPos_ids (st st' : CtrlTree) (pos : Z) :
  skin st' = skin st -> m_firstPos st' = m_firstPos st ->
  ids (items (flat st) (m_rTree st')) = ids (items (flat st) (m_rTree st)) ->
  findItemAtPos st' pos = findItemAtPos st pos.
Proof.
  intros S F E. unfold findItemAtPos, flat. rewrite S, F. fold (flat st).
  assert (L : length (items (flat st) (m_rTree st'))
              = length (items (flat st) (m_rTree st))).
  { pose proof (f_equal (@length Z) E) as K. unfold ids in K.
    rewrite !length_map in K. exact K. }
  rewrite L. apply findItemAtPos_loop_ids. exact E.
Qed.

Lemma marks_toggleSelected (t : VarTree) (i : Z) :
  marks (toggleSelected t (It i))
  = map (fun p => if fst p =? i then (fst p, negb (snd p)) else p) (marks t).
Proof.
  unfold marks, toggleSelected.
  match goal with |- map _ (nodes (update ?F t (It i))) = _ =>
    assert (E : nodes (update F t (It i)) = map (modify i F) (nodes t))
      by (apply nodes_update; try reflexivity; intros n; reflexivity)
  end.
  rewrite E, !map_map.
  apply map_ext. intros n. cbn [fst snd].
  rewrite modify_id by (intros m; reflexivity).
  rewrite modify_eq. destruct (m_id n =? i); reflexivity.
Qed.

(** A ctrl press on a row with an item inverts the selected flag of that item
    and of no other, and makes it the last selected item; a second ctrl press
    on the same row gives the tree back as it was. *)
Theorem ctrl_press_toggles (st : CtrlTree) (x y : Z) (pos : Position) (b : Z) :
  m_pPosition st = Some pos ->
  findItemAtPos st (rowOf st pos y) = It b ->
  marks (m_rTree (handleEvent st (EvtMouseLeftDownCtrl x y)))
  = map (fun p => if fst p =? b then (fst p, negb (snd p)) else p) (marks (m_rTree st))
  /\ m_pLastSelected (handleEvent st (EvtMouseLeftDownCtrl x y)) = Some b
  /\ m_rTree (handleEvent (handleEvent st (EvtMouseLeftDownCtrl x y))
                          (EvtMouseLeftDownCtrl x y))
     = m_rTree st.
Proof.
  intros G B.
  assert (E1 : handleEvent st (EvtMouseLeftDownCtrl x y)
               = redraw (set_lastSelected
                           (set_tree st (toggleSelected (m_rTree st) (It b))) (Some b))).
  { unfold handleEvent. rewrite G. cbv beta iota zeta. fold (rowOf st pos y).
    unfold mouseCtrl. rewrite B. reflexivity. }
  rewrite E1. set (st1 := redraw _).
  assert (T1 : m_rTree st1 = toggleSelected (m_rTree st) (It b))
    by (unfold st1; rewrite redraw_tree; reflexivity).
  assert (S1 : skin st1 = skin st) by (unfold st1; rewrite redraw_skin; reflexivity).
  assert (G1 : m_pPosition st1 = Some pos)
    by (unfold st1; rewrite redraw_geometry; exact G).
  assert (F1 : m_firstPos st1 = m_firstPos st)
    by (unfold st1; rewrite redraw_firstPos; reflexivity).
  split; [rewrite T1; apply marks_toggleSelected|].
  split; [unfold st1; rewrite redraw_lastSelected; reflexivity|].
  assert (R : rowOf st1 pos y = rowOf st pos y)
    by (unfold rowOf; rewrite (itemHeight_frame st st1 S1); reflexivity).
  assert (B1 : findItemAtPos st1 (rowOf st1 pos y) = It b).
  { rewrite R, <- B. apply findItemAtPos_ids; [exact S1 | exact F1|].
    rewrite T1. apply ids_items_toggleSelected. }
  unfold handleEvent. rewrite G1. cbv beta iota zeta. fold (rowOf st1 pos y).
  unfold mouseCtrl. rewrite B1. cbn [Iterator_eqb negb].
  rewrite redraw_tree. cbn [m_rTree set_lastSelected set_tree].
  rewrite T1. apply toggleSelected_twice.
Qed.

Lemma ctrl_press_toggles_witness :
  marks (m_rTree (handleEvent secondSelected (EvtMouseLeftDownCtrl 50 25)))
  = [(1, false); (2, true); (3, true)]
  /\ m_pLastSelected (handleEvent secondSelected (EvtMouseLeftDownCtrl 50 25)) = Some 3
  /\ m_rTree (handleEvent (handleEvent secondSelected (EvtMouseLeftDownCtrl 50 25))
                          (EvtMouseLeftDownCtrl 50 25))
     = m_rTree secondSelected.
Proof.
  exact (ctrl_press_toggles secondSelected 50 25 Scenario.fourRows 3 eq_refl eq_refl).
Defined.

(** ** A plain press on an item *)

Lemma marks_setSelected (t : VarTree) (i : Z) (b : bool) :
  marks (setSelected t (It i) b)
  = map (fun p => if fst p =? i then (fst p, b) else p) (marks t).
Proof.
  unfold marks. rewrite nodes_setSelected, !map_map.
  apply map_ext. intros n. cbn [fst snd].
  rewrite modify_id by (intros m; reflexivity).
  rewrite modify_selected. destruct (m_id n =? i); reflexivity.
Qed.

Lemma runList_unselect (l : list Z) :
  forall t : VarTree,
    marks (runList (fun (it2 : Iterator) (t : VarTree) => (setSelected t it2 false, false))
                   l t)
    = map (fun p => if existsb (Z.eqb (fst p)) l then (fst p, false) else p) (marks t).
Proof.
  induction l as [|j l IH]; intros t; cbn [runList existsb].
  - rewrite map_id. reflexivity.
  - rewrite IH, marks_setSelected, map_map. apply map_ext. intros [i s]. cbn [fst snd].
    destruct (i =? j); cbn [fst snd orb]; destruct (existsb (Z.eqb i) l); reflexivity.
Qed.

Lemma unselectAll_marks (fl : bool) (t : VarTree) :
  wf_tree t ->
  marks (unselectAll fl t)
  = map (fun p => if existsb (Z.eqb (fst p)) (ids (items fl t)) then (fst p, false) else p)
        (marks t).
Proof.
  intros W. unfold unselectAll.
  pose proof (forEach_runList VarTree fl (fun t => t)
                (fun (it2 : Iterator) (t : VarTree) => (setSelected t it2 false, false))
                ltac:(intros it s; cbv beta; cbn [fst]; apply ids_items_setSelected)
                t (items_NoDup fl t W)) as FR.
  cbv beta in FR. rewrite FR. apply runList_unselect.
Qed.

(** A plain press on an item, away from the icon of a folder: the item
    becomes the only selected one among the items of the traversal and the
    last selected item; the items that are folded away keep their flag, the
    loop that unselects does not reach them. *)
Theorem plain_press_selects (st : CtrlTree) (x y : Z) (pos : Position) (b : Z) :
  wf_tree (m_rTree st) ->
  m_pPosition st = Some pos ->
  findItemAtPos st (rowOf st pos y) = It b ->
  onFoldIcon st (x - getLeft pos) (It b) = false ->
  marks (m_rTree (handleEvent st (EvtMouseLeftDown x y)))
  = map (fun p =>
           if fst p =? b then (fst p, true)
           else if existsb (Z.eqb (fst p)) (ids (items (flat st) (m_rTree st)))
                then (fst p, false)
                else p)
        (marks (m_rTree st))
  /\ m_pLastSelected (handleEvent st (EvtMouseLeftDown x y)) = Some b.
Proof.
  intros W G B F.
  assert (E : handleEvent st (EvtMouseLeftDown x y)
              = redraw (set_lastSelected
                          (set_tree st (setSelected (unselectAll (flat st) (m_rTree st))
                                                    (It b) true))
                          (Some b))).
  { unfold handleEvent. rewrite G. cbv beta iota zeta. fold (rowOf st pos y).
    unfold mouseDown. rewrite B. cbv zeta. cbn [Iterator_eqb negb].
    unfold onFoldIcon in F. cbv zeta in F. rewrite F. reflexivity. }
  rewrite E, redraw_tree, redraw_lastSelected.
  cbn [m_rTree m_pLastSelected set_lastSelected set_tree].
  split; [|reflexivity].
  rewrite marks_setSelected, (unselectAll_marks _ _ W), map_map.
  apply map_ext. intros [i s]. cbn [fst snd].
  destruct (existsb (Z.eqb i) (ids (items (flat st) (m_rTree st)))); cbn [fst snd];
    destruct (i =? b); reflexivity.
Qed.

Lemma plain_press_selects_witness :
  marks (m_rTree (handleEvent secondSelected (EvtMouseLeftDown 50 25)))
  = [(1, false); (2, false); (3, true)]
  /\ m_pLastSelected (handleEvent secondSelected (EvtMouseLeftDown 50 25)) = Some 3.
Proof.
  exact (plain_press_selects secondSelected 50 25 Scenario.fourRows 3
           (distinct_NoDup [1; 2; 3] eq_refl) eq_refl eq_refl eq_refl).
Defined.

(** ** A ctrl+shift press *)

Lemma rangeBody_keep (itClicked : Iterator) (last : option Z) (j : Z)
      (t : VarTree) (select : bool) :
  rangeBody true itClicked last (It j) (t, select)
  = ((setSelected t (It j)
        (isSelected t (It j) || (if isEnd itClicked last j then true else select)),
      if isEnd itClicked last j then negb select else select), false).
Proof.
  unfold rangeBody, isEnd.
  destruct (Iterator_eqb (It j) itClicked || ptrEq (It j) last), select; reflexivity.
Qed.

Lemma setSelected_wf (t : VarTree) (it : Iterator) (b : bool) :
  wf_tree t -> wf_tree (setSelected t it b).
Proof.
  intros W. destruct it as [i|]; [|exact W].
  unfold wf_tree. rewrite nodes_setSelected, ids_modify; [exact W | intros n; reflexivity].
Qed.

(** The ctrl+shift range loop over the rest of the traversal. *)
Lemma runList_rangeBody_keep (fl : bool) (itClicked : Iterator) (last : option Z)
      (l : list Z) :
  forall (pre rest : list VarTree) (t : VarTree) (select : bool),
    ids rest = l ->
    items fl t = pre ++ rest ->
    wf_tree t ->
    map m_selected
        (items fl (fst (runList (rangeBody true itClicked last) l (t, select))))
    = map m_selected pre
          ++ orFlags (map m_selected rest) (rangeFlags (isEnd itClicked last) l select)
    /\ ids (items fl (fst (runList (rangeBody true itClicked last) l (t, select))))
       = ids (items fl t).
Proof.
  induction l as [|j l IH]; intros pre rest t select R L W.
  - destruct rest; [|discriminate R].
    simpl. rewrite L, !app_nil_r. split; reflexivity.
  - destruct rest as [|a rest]; [discriminate R|].
    simpl in R. inversion R as [[Ra Rr]]. subst j. rewrite Rr.
    pose proof (items_NoDup fl t W) as N.
    cbn [runList rangeFlags]. rewrite rangeBody_keep.
    assert (Sa : isSelected t (It (m_id a)) = m_selected a).
    { unfold isSelected, flagOf. rewrite (deref_item fl t a W); [reflexivity|].
      rewrite L. apply in_or_app; right; left; reflexivity. }
    rewrite Sa.
    set (v := m_selected a || (if isEnd itClicked last (m_id a) then true else select)).
    set (next := if isEnd itClicked last (m_id a) then negb select else select).
    assert (L' : items fl (setSelected t (It (m_id a)) v)
                 = (map (modify (m_id a) (withSelected v)) (pre ++ [a]))
                     ++ map (modify (m_id a) (withSelected v)) rest).
    { rewrite items_setSelected, L, <- map_app, <- app_assoc. reflexivity. }
    assert (R' : ids (map (modify (m_id a) (withSelected v)) rest) = l)
      by (rewrite ids_modify; [exact Rr | intros n; reflexivity]).
    destruct (IH _ _ _ next R' L' (setSelected_wf t (It (m_id a)) v W)) as [Hs Hi].
    rewrite Hs, Hi, ids_items_setSelected. split; [|reflexivity].
    rewrite L in N. unfold ids in N. rewrite map_app in N. simpl in N.
    pose proof (NoDup_remove_2 _ _ _ N) as Na.
    rewrite map_app, map_app.
    rewrite (map_selected_modify (m_id a) v pre)
      by (intros H; apply Na, in_or_app; left; exact H).
    rewrite (map_selected_modify (m_id a) v rest)
      by (intros H; apply Na, in_or_app; right; exact H).
    cbn [map orFlags]. rewrite modify_selected, Z.eqb_refl, <- app_assoc.
    unfold v, next. destruct (isEnd itClicked last (m_id a)); reflexivity.
Qed.

Lemma orFlags_false (l : list bool) (n : nat) :
  n = length l -> orFlags l (repeat false n) = l.
Proof.
  intros ->. induction l as [|a l IH]; simpl; [|rewrite orb_false_r, IH]; reflexivity.
Qed.

Lemma orFlags_range (p m q : list bool) (u v : bool) (np nm nq : nat) :
  np = length p -> nm = length m -> nq = length q ->
  orFlags (p ++ u :: m ++ v :: q)
          (repeat false np ++ repeat true (S nm + 1) ++ repeat false nq)
  = p ++ repeat true (S nm + 1) ++ q.
Proof.
  intros -> -> ->. induction p as [|a p IH]; simpl.
  - rewrite orb_true_r. f_equal. clear.
    induction m as [|c m IH]; simpl.
    + rewrite orb_true_r. f_equal. apply orFlags_false. reflexivity.
    + rewrite orb_true_r. f_equal. exact IH.
  - rewrite orb_false_r. f_equal. exact IH.
Qed.

(** A ctrl+shift press with the last selected item [a] and the item [b]
    under the pointer, two different items of the traversal: the items from
    the first of them to the second, both included, are selected, and the
    others keep their flag. *)
Theorem ctrl_shift_press_adds_range
        (st : CtrlTree) (x y : Z) (pos : Position) (a b : Z)
        (P M Q : list VarTree) (U V : VarTree) :
  wf_tree (m_rTree st) ->
  m_pPosition st = Some pos ->
  m_pLastSelected st = Some a ->
  findItemAtPos st (rowOf st pos y) = It b ->
  items (flat st) (m_rTree st) = P ++ U :: M ++ V :: Q ->
  (a = m_id U /\ b = m_id V) \/ (a = m_id V /\ b = m_id U) ->
  ids (items (flat st) (m_rTree (handleEvent st (EvtMouseLeftDownCtrlShift x y))))
  = ids (items (flat st) (m_rTree st))
  /\ map m_selected
         (items (flat st) (m_rTree (handleEvent st (EvtMouseLeftDownCtrlShift x y))))
     = map m_selected P ++ repeat true (S (length M) + 1) ++ map m_selected Q.
Proof.
  intros W G A B L AB.
  pose proof (items_NoDup (flat st) (m_rTree st) W) as N.
  unfold handleEvent. rewrite G. cbv beta iota zeta.
  fold (rowOf st pos y). unfold selectRange. rewrite B, A.
  change (fun p0 : VarTree * bool => fst p0) with (@fst VarTree bool).
  pose proof (forEach_runList (VarTree * bool) (flat st) fst
                (rangeBody true (It b) (Some a))
                (rangeBody_ids (flat st) true (It b) (Some a))
                (m_rTree st, false) N) as FR.
  cbn [fst] in FR. rewrite FR. clear FR.
  destruct (runList_rangeBody_keep (flat st) (It b) (Some a)
              (ids (items (flat st) (m_rTree st)))
              [] (items (flat st) (m_rTree st)) (m_rTree st) false
              eq_refl eq_refl W) as [Hs Hi].
  destruct (runList (rangeBody true (It b) (Some a))
                    (ids (items (flat st) (m_rTree st))) (m_rTree st, false))
    as [t' sel'] eqn:R.
  cbn [fst] in Hs, Hi.
  rewrite redraw_tree. cbn [m_rTree set_tree].
  change (flat (set_tree st t')) with (flat st).
  rewrite Hs, Hi. split; [reflexivity|].
  cbn [map app]. rewrite L in N |- *.
  assert (Ids : ids (P ++ U :: M ++ V :: Q) = ids P ++ m_id U :: ids M ++ m_id V :: ids Q).
  { unfold ids. rewrite map_app. cbn [map]. rewrite map_app. reflexivity. }
  rewrite Ids in N |- *.
  assert (Huv : m_id U <> m_id V).
  { intros E. rewrite E in N. apply NoDup_remove_2 in N. apply N.
    apply in_or_app; right; apply in_or_app; right; left; reflexivity. }
  rewrite (rangeFlags_between (isEnd (It b) (Some a)) (ids P) (ids M) (ids Q)
                              (m_id U) (m_id V)).
  - rewrite !map_app. cbn [map]. rewrite map_app. cbn [map].
    unfold ids. rewrite !length_map.
    apply orFlags_range; rewrite length_map; reflexivity.
  - intros j Hj. unfold isEnd; cbn [Iterator_eqb ptrEq].
    assert (j <> m_id U /\ j <> m_id V) as [Hu Hv].
    { split; intros E; subst j.
      - apply NoDup_remove_2 in N. apply N.
        apply in_app_or in Hj; destruct Hj as [Hj|Hj];
          [apply in_or_app; left; exact Hj|].
        apply in_or_app; right.
        apply in_app_or in Hj; destruct Hj as [Hj|Hj];
          apply in_or_app; [left; exact Hj | right; right; exact Hj].
      - rewrite app_comm_cons, app_assoc in N. apply NoDup_remove_2 in N. apply N.
        apply in_app_or in Hj; destruct Hj as [Hj|Hj];
          [apply in_or_app; left; apply in_or_app; left; exact Hj|].
        apply in_app_or in Hj; destruct Hj as [Hj|Hj];
          [apply in_or_app; left; apply in_or_app; right; right; exact Hj
          | apply in_or_app; right; exact Hj]. }
    destruct AB as [[-> ->]|[-> ->]];
      apply orb_false_iff; split; apply Z.eqb_neq; assumption.
  - unfold isEnd; cbn [Iterator_eqb ptrEq].
    destruct AB as [[-> ->]|[-> ->]]; rewrite Z.eqb_refl;
      [apply orb_true_r | apply orb_true_l].
  - unfold isEnd; cbn [Iterator_eqb ptrEq].
    destruct AB as [[-> ->]|[-> ->]]; rewrite Z.eqb_refl;
      [apply orb_true_l | apply orb_true_r].
Qed.

(** Flat mode, four leaves, the first and the second one selected, the
    second one last selected. *)
Lemma ctrl_shift_press_adds_range_witness :
  map m_selected
      (items true
             (m_rTree (handleEvent
                         (Scenario.control true
                            [Scenario.selected (Scenario.leaf 1);
                             Scenario.selected (Scenario.leaf 2);
                             Scenario.leaf 3; Scenario.leaf 4]
                            (It 1) (Some 2))
                         (EvtMouseLeftDownCtrlShift 50 35))))
  = [true; true; true; true].
Proof.
  exact (proj2 (ctrl_shift_press_adds_range
                  (Scenario.control true
                     [Scenario.selected (Scenario.leaf 1);
                      Scenario.selected (Scenario.leaf 2);
                      Scenario.leaf 3; Scenario.leaf 4]
                     (It 1) (Some 2))
                  50 35 Scenario.fourRows 2 4
                  [Scenario.selected (Scenario.leaf 1)] [Scenario.leaf 3] []
                  (Scenario.selected (Scenario.leaf 2)) (Scenario.leaf 4)
                  (distinct_NoDup [1; 2; 3; 4] eq_refl) eq_refl eq_refl eq_refl eq_refl
                  (or_introl (conj eq_refl eq_refl)))).
Defined.

(** ** What a notification of the tree leaves alone *)

Lemma marks_ensureExpanded (t : VarTree) (it : Iterator) :
  marks (ensureExpanded t it) = marks t.
Proof.
  destruct it as [i|]; [|reflexivity].
  unfold marks. rewrite nodes_ensureExpanded, map_map.
  apply map_ext. intros n. rewrite expandToward_eq. reflexivity.
Qed.

Lemma ensureVisible_keeps (st : CtrlTree) (item : Iterator) :
  marks (m_rTree (fst (ensureVisible st item))) = marks (m_rTree st)
  /\ m_pLastSelected (fst (ensureVisible st item)) = m_pLastSelected st
  /\ m_pPosition (fst (ensureVisible st item)) = m_pPosition st
  /\ skin (fst (ensureVisible st item)) = skin st.
Proof.
  rewrite ensureVisible_unfold.
  match goal with |- context [if ?c then _ else _] => destruct c end; cbn [fst].
  - unfold VarPercent_set.
    match goal with |- context [onUpdate_percent ?s] =>
      destruct (onUpdate_percent_frame s) as (S & T & _ & G & L & _) end.
    rewrite S, T, G, L. cbn [m_rTree set_tree set_position skin m_pPosition m_pLastSelected].
    rewrite marks_ensureExpanded. repeat split.
  - cbn [m_rTree set_tree skin m_pPosition m_pLastSelected].
    rewrite marks_ensureExpanded. repeat split.
Qed.

Lemma autoScroll_cases (fuel : nat) (st : CtrlTree) :
  forall it : Iterator,
    autoScroll_loop fuel st it = st
    \/ exists item, autoScroll_loop fuel st it = fst (ensureVisible st item).
Proof.
  induction fuel as [|fuel IH]; intros it; cbn [autoScroll_loop]; [left; reflexivity|].
  destruct (Iterator_eqb it End); [left; reflexivity|].
  destruct (isPlaying (m_rTree st) it); [right; exists it; reflexivity|].
  apply IH.
Qed.

Lemma autoScroll_keeps (st : CtrlTree) :
  marks (m_rTree (autoScroll st)) = marks (m_rTree st)
  /\ m_pLastSelected (autoScroll st) = m_pLastSelected st
  /\ m_pPosition (autoScroll st) = m_pPosition st
  /\ skin (autoScroll st) = skin st.
Proof.
  unfold autoScroll.
  destruct (autoScroll_cases (length (nodes (m_rTree st))) st
              (start (flat st) (m_rTree st))) as [E|[item E]]; rewrite E.
  - repeat split.
  - apply ensureVisible_keeps.
Qed.

(** No notification of the tree changes the selection, the last selected
    item, the geometry or the skin: the control answers it by moving the
    anchor, by expanding the folders around the playing item and by
    rebuilding its frame, and by nothing else. *)
Theorem onUpdate_tree_keeps_selection (st : CtrlTree) (arg : tree_update) :
  marks (m_rTree (onUpdate_tree st arg)) = marks (m_rTree st)
  /\ m_pLastSelected (onUpdate_tree st arg) = m_pLastSelected st
  /\ m_pPosition (onUpdate_tree st arg) = m_pPosition st
  /\ skin (onUpdate_tree st arg) = skin st.
Proof.
  unfold onUpdate_tree. destruct (type arg).
  - assert (K : marks (m_rTree (if b_active_item arg then autoScroll st else st))
                = marks (m_rTree st)
                /\ m_pLastSelected (if b_active_item arg then autoScroll st else st)
                   = m_pLastSelected st
                /\ m_pPosition (if b_active_item arg then autoScroll st else st)
                   = m_pPosition st
                /\ skin (if b_active_item arg then autoScroll st else st) = skin st).
    { destruct (b_active_item arg); [apply autoScroll_keeps | repeat split]. }
    destruct K as (K1 & K2 & K3 & K4).
    destruct (isItemVisible _ _); [|repeat split; assumption].
    match goal with |- context [notifyLayout (makeImage ?s)] => fold (redraw s) end.
    autorewrite with frame. repeat split; assumption.
  - match goal with |- context [notifyLayout (makeImage ?s)] => fold (redraw s) end.
    autorewrite with frame. repeat split.
  - match goal with |- context [if ?c then _ else _] => destruct c end;
      [|destruct (isItemVisible _ _)];
      repeat match goal with |- context [notifyLayout (makeImage ?s)] =>
                               fold (redraw s) end;
      autorewrite with frame; repeat split.
  - cbv zeta.
    match goal with |- context [if ?c then _ else _] => destruct c end;
      repeat match goal with |- context [notifyLayout (makeImage ?s)] =>
                               fold (redraw s) end;
      autorewrite with frame; repeat split.
Qed.

(** ** Selected flags rewritten over the tree *)

Lemma reselect_eq (f : Z -> bool -> bool) (n : VarTree) :
  reselect f n
  = withChildren (withSelected (f (m_id n) (m_selected n)) n)
                 (map (reselect f) (m_children n)).
Proof. destruct n; reflexivity. Qed.

Lemma reselect_ext (f g : Z -> bool -> bool) (n : VarTree) :
  (forall j s, f j s = g j s) -> reselect f n = reselect g n.
Proof.
  intros E. induction n as [id s sel pl ex del cs IH] using VarTree_forall_ind.
  cbn [reselect]. rewrite E. f_equal.
  induction IH as [|c r Hc _ IHr]; [reflexivity|]. cbn [map]. rewrite Hc, IHr. reflexivity.
Qed.

Lemma reselect_compose (f g : Z -> bool -> bool) (n : VarTree) :
  reselect g (reselect f n) = reselect (fun j s => g j (f j s)) n.
Proof.
  induction n as [id s sel pl ex del cs IH] using VarTree_forall_ind.
  cbn [reselect]. f_equal. rewrite map_map.
  induction IH as [|c r Hc _ IHr]; [reflexivity|]. cbn [map]. rewrite Hc, IHr. reflexivity.
Qed.

Lemma reselect_same (f : Z -> bool -> bool) (n : VarTree) :
  (forall j s, f j s = s) -> reselect f n = n.
Proof.
  intros E. induction n as [id s sel pl ex del cs IH] using VarTree_forall_ind.
  cbn [reselect]. rewrite E. f_equal. apply map_id_Forall, IH.
Qed.

Lemma modify_reselect (i : Z) (b : bool) (n : VarTree) :
  modify i (withSelected b) n = reselect (fun j s => if j =? i then b else s) n.
Proof.
  induction n as [id s sel pl ex del cs IH] using VarTree_forall_ind.
  cbn [modify reselect].
  assert (M : map (modify i (withSelected b)) cs
              = map (reselect (fun j s => if j =? i then b else s)) cs).
  { induction IH as [|c r Hc _ IHr]; [reflexivity|]. cbn [map]. rewrite Hc, IHr.
    reflexivity. }
  rewrite M. destruct (id =? i); reflexivity.
Qed.

Lemma setSelected_reselect (t : VarTree) (i : Z) (b : bool) :
  setSelected t (It i) b = reselectItems (fun j s => if j =? i then b else s) t.
Proof.
  unfold setSelected, update, reselectItems. apply f_equal.
  apply map_ext. intros c. apply modify_reselect.
Qed.

Lemma reselectItems_compose (f g : Z -> bool -> bool) (t : VarTree) :
  reselectItems g (reselectItems f t) = reselectItems (fun j s => g j (f j s)) t.
Proof.
  destruct t as [id s sel pl ex del cs]. unfold reselectItems, withChildren.
  cbn [m_children m_id m_cString m_selected m_playing m_expanded m_deleted].
  rewrite map_map. f_equal. apply map_ext. intros c. apply reselect_compose.
Qed.

Lemma reselectItems_ext (f g : Z -> bool -> bool) (t : VarTree) :
  (forall j s, f j s = g j s) -> reselectItems f t = reselectItems g t.
Proof.
  intros E. unfold reselectItems. apply f_equal. apply map_ext. intros c.
  apply reselect_ext, E.
Qed.

Lemma reselectItems_same (f : Z -> bool -> bool) (t : VarTree) :
  (forall j s, f j s = s) -> reselectItems f t = t.
Proof.
  intros E. unfold reselectItems.
  rewrite (map_id_Forall (reselect f))
    by (apply Forall_forall; intros c _; apply reselect_same, E).
  apply withChildren_same.
Qed.

Lemma allItems_reselect (f : Z -> bool -> bool) (n : VarTree) :
  allItems (reselect f n) = map (reselect f) (allItems n).
Proof.
  induction n as [id s sel pl ex del cs IH] using VarTree_forall_ind.
  rewrite allItems_eq, (allItems_eq (mkVarTree id s sel pl ex del cs)).
  rewrite reselect_eq at 2. cbn [map withChildren withSelected m_children]. f_equal.
  rewrite flat_map_map, map_flat_map. apply flat_map_ext_Forall, IH.
Qed.

Lemma leafs_reselect (f : Z -> bool -> bool) (n : VarTree) :
  leafs (reselect f n) = map (reselect f) (leafs n).
Proof.
  induction n as [id s sel pl ex del cs IH] using VarTree_forall_ind.
  rewrite leafs_eq, (leafs_eq (mkVarTree id s sel pl ex del cs)).
  cbn [reselect m_children]. destruct cs as [|c cs]; [reflexivity|].
  change (map (reselect f) (c :: cs)) with (reselect f c :: map (reselect f) cs).
  change (reselect f c :: map (reselect f) cs) with (map (reselect f) (c :: cs)).
  rewrite flat_map_map, map_flat_map.
  destruct (map (reselect f) (c :: cs)) eqn:E; [discriminate E|].
  apply flat_map_ext_Forall, IH.
Qed.

Lemma visible_reselect (f : Z -> bool -> bool) (n : VarTree) :
  visible (reselect f n) = map (reselect f) (visible n).
Proof.
  induction n as [id s sel pl ex del cs IH] using VarTree_forall_ind.
  rewrite visible_eq, (visible_eq (mkVarTree id s sel pl ex del cs)).
  cbn [reselect m_children m_expanded map]. f_equal.
  destruct ex; [|reflexivity].
  rewrite flat_map_map, map_flat_map. apply flat_map_ext_Forall, IH.
Qed.

Lemma nodes_reselectItems (f : Z -> bool -> bool) (t : VarTree) :
  nodes (reselectItems f t) = map (reselect f) (nodes t).
Proof.
  unfold nodes, reselectItems. cbn [withChildren m_children].
  rewrite flat_map_map, map_flat_map.
  apply flat_map_ext_Forall, Forall_forall; intros c _. apply allItems_reselect.
Qed.

Lemma items_reselectItems (fl : bool) (f : Z -> bool -> bool) (t : VarTree) :
  items fl (reselectItems f t) = map (reselect f) (items fl t).
Proof.
  destruct fl; unfold items, flatItems, visItems, reselectItems;
    cbn [withChildren m_children];
    rewrite flat_map_map, map_flat_map;
    apply flat_map_ext_Forall, Forall_forall; intros c _;
    [apply leafs_reselect | apply visible_reselect].
Qed.

Lemma marks_reselectItems (f : Z -> bool -> bool) (t : VarTree) :
  marks (reselectItems f t) = map (fun p => (fst p, f (fst p) (snd p))) (marks t).
Proof.
  unfold marks. rewrite nodes_reselectItems, !map_map.
  apply map_ext. intros n. rewrite reselect_eq. reflexivity.
Qed.

Lemma ids_items_reselectItems (fl : bool) (f : Z -> bool -> bool) (t : VarTree) :
  ids (items fl (reselectItems f t)) = ids (items fl t).
Proof.
  rewrite items_reselectItems. unfold ids. rewrite map_map.
  apply map_ext. intros n. rewrite reselect_eq. reflexivity.
Qed.

Lemma ids_nodes_reselectItems (f : Z -> bool -> bool) (t : VarTree) :
  ids (nodes (reselectItems f t)) = ids (nodes t).
Proof.
  rewrite nodes_reselectItems. unfold ids. rewrite map_map.
  apply map_ext. intros n. rewrite reselect_eq. reflexivity.
Qed.

(** ** The loop of the arrow keys *)

Lemma navBody_ids_select (fl : bool) (key : NavKey) (it : Iterator) (s : NavState) :
  key = KEY_UP \/ key = KEY_DOWN \/ key = KEY_ENTER \/ key = KEY_SPACE ->
  ids (items fl (nav_tree (fst (navBody fl key it s)))) = ids (items fl (nav_tree s)).
Proof.
  intros [ -> | [ -> | [ -> | -> ] ] ]; cbn [navBody fst].
  - unfold navUp.
    destruct (notFirstChild _ _ || _); [|reflexivity].
    destruct (ptrEq _ _); cbn [nav_show nav_setTree nav_tree];
      apply ids_items_setSelected.
  - unfold navDown.
    destruct (notParentEnd _ _ _ || _);
      cbn [nav_show nav_setTree nav_setPrevious nav_tree nav_last nav_previousWasSelected];
      destruct (nav_previousWasSelected s);
      cbn [nav_show nav_setTree nav_setPrevious nav_tree nav_last nav_previousWasSelected];
      match goal with |- context [if ?c then _ else _] => destruct c end;
      cbn [nav_show nav_setTree nav_setPrevious nav_tree];
      rewrite ?ids_items_setSelected; reflexivity.
  - unfold navEnter. destruct (ptrEq _ _); reflexivity.
  - unfold navEnter. destruct (ptrEq _ _); reflexivity.
Qed.

(** The loop body never leaves the loop: over a list of addresses it is a
    fold. *)
Lemma runList_navBody (fl : bool) (key : NavKey) (l : list Z) :
  forall s : NavState,
    runList (navBody fl key) l s
    = fold_left (fun s j => fst (navBody fl key (It j) s)) l s.
Proof.
  induction l as [|j l IH]; intros s; [reflexivity|].
  cbn [runList fold_left]. unfold navBody at 1. cbn [fst]. apply IH.
Qed.

Lemma nav_setTree_same (s : NavState) : nav_setTree s (nav_tree s) = s.
Proof. destruct s; reflexivity. Qed.

Lemma existsb_eqb_In (j : Z) (l : list Z) : existsb (Z.eqb j) l = true <-> In j l.
Proof.
  rewrite existsb_exists. split.
  - intros (x & Hx & E). apply Z.eqb_eq in E. subst. exact Hx.
  - intros H. exists j. split; [exact H | apply Z.eqb_refl].
Qed.

Lemma existsb_eqb_notIn (j : Z) (l : list Z) : ~ In j l -> existsb (Z.eqb j) l = false.
Proof.
  intros H. destruct (existsb (Z.eqb j) l) eqn:E; [|reflexivity].
  exfalso. apply H, existsb_eqb_In, E.
Qed.

(** *** Down *)

Lemma navDown_other (fl : bool) (j c : Z) (s : NavState) :
  nav_last s = Some c -> j <> c -> nav_previousWasSelected s = false ->
  navDown fl (It j) s = nav_setTree s (setSelected (nav_tree s) (It j) false).
Proof.
  intros L N P. unfold navDown. rewrite L.
  assert (E : ptrEq (It j) (Some c) = false) by (apply Z.eqb_neq; exact N).
  rewrite E, orb_true_r.
  cbn [nav_setTree nav_previousWasSelected nav_setPrevious nav_last nav_tree].
  rewrite P.
  cbn [nav_setTree nav_previousWasSelected nav_setPrevious nav_last nav_tree].
  rewrite L, E, andb_false_r. destruct s; cbn in *; subst; reflexivity.
Qed.

Lemma fold_navDown_others (fl : bool) (c : Z) (l : list Z) :
  forall s : NavState,
    nav_last s = Some c -> ~ In c l -> nav_previousWasSelected s = false ->
    fold_left (fun s j => fst (navBody fl KEY_DOWN (It j) s)) l s
    = nav_setTree s (reselectItems (fun j sel => if existsb (Z.eqb j) l then false else sel)
                                   (nav_tree s)).
Proof.
  induction l as [|j l IH]; intros s L N P.
  - cbn [fold_left existsb]. rewrite reselectItems_same by reflexivity.
    symmetry; apply nav_setTree_same.
  - cbn [fold_left navBody fst].
    rewrite (navDown_other fl j c s L) by (assumption || (intros E; apply N; left; auto)).
    rewrite IH; [| exact L | intros K; apply N; right; exact K | exact P].
    change (nav_tree (nav_setTree s (setSelected (nav_tree s) (It j) false)))
      with (setSelected (nav_tree s) (It j) false).
    change (nav_setTree (nav_setTree s (setSelected (nav_tree s) (It j) false)))
      with (nav_setTree s).
    apply (f_equal (nav_setTree s)).
    rewrite setSelected_reselect, reselectItems_compose.
    apply reselectItems_ext. intros k sel. cbn [existsb].
    destruct (Z.eqb_spec k j); cbn [orb]; destruct (existsb (Z.eqb k) l); reflexivity.
Qed.

Lemma child_has_parent (c : VarTree) :
  forall i : Z,
    In i (ids (flat_map allItems (m_children c))) ->
    exists n, In n (allItems c)
              /\ existsb (fun x => m_id x =? i) (m_children n) = true.
Proof.
  induction c as [id s sel pl ex del cs IH] using VarTree_forall_ind.
  intros i H. cbn [m_children] in H.
  apply in_map_iff in H. destruct H as (x & Ex & Hx).
  apply in_flat_map in Hx. destruct Hx as (c' & Hc' & Hx).
  rewrite allItems_eq in Hx. destruct Hx as [<-|Hx].
  - exists (mkVarTree id s sel pl ex del cs). split; [left; reflexivity|].
    cbn [m_children]. apply existsb_exists. exists c'. split; [exact Hc'|].
    apply Z.eqb_eq, Ex.
  - rewrite Forall_forall in IH.
    destruct (IH c' Hc' i) as (n & Hn & En).
    { rewrite <- Ex. apply in_map. exact Hx. }
    exists n. split; [|exact En].
    rewrite allItems_eq. right. cbn [m_children].
    apply in_flat_map. exists c'. split; assumption.
Qed.

(** Every item of the model has a parent. *)
Lemma parent_exists (t : VarTree) (i : Z) :
  In i (ids (nodes t)) -> parent t (It i) <> NullParent.
Proof.
  intros H. unfold parent.
  destruct (existsb (fun c => m_id c =? i) (m_children t)) eqn:R; [discriminate|].
  destruct (child_has_parent t i H) as (n & Hn & En).
  rewrite allItems_eq in Hn. destruct Hn as [<-|Hn]; [congruence|].
  fold (nodes t) in Hn.
  destruct (find _ (nodes t)) eqn:F; [discriminate|].
  rewrite (find_none _ _ F n Hn) in En. discriminate En.
Qed.

Lemma notParentEnd_item (t : VarTree) (i j : Z) :
  In i (ids (nodes t)) -> notParentEnd t (It i) (It j) = true.
Proof.
  intros H. unfold notParentEnd.
  pose proof (parent_exists t i H) as P.
  destruct (parent t (It i)); [congruence | reflexivity | reflexivity].
Qed.

Lemma items_ids_nodes (fl : bool) (t : VarTree) (i : Z) :
  In i (ids (items fl t)) -> In i (ids (nodes t)).
Proof.
  intros H. apply in_map_iff in H. destruct H as (x & <- & Hx).
  apply in_map. eapply subseq_In; [apply items_subseq | exact Hx].
Qed.

Lemma next_split (fl : bool) (t : VarTree) (p q : list Z) (i : Z) :
  NoDup (ids (items fl t)) -> ids (items fl t) = p ++ i :: q ->
  next fl t (It i) = head_id q.
Proof. intros N E. rewrite next_items. apply (nextIn_split _ p q i N E). Qed.

(** The turn of the loop on the last selected item, when an item follows. *)
Lemma navDown_at_last (fl : bool) (a b : Z) (p q : list Z) (s : NavState) :
  NoDup (ids (items fl (nav_tree s))) ->
  ids (items fl (nav_tree s)) = p ++ a :: b :: q ->
  nav_last s = Some a -> nav_previousWasSelected s = false ->
  navDown fl (It a) s
  = nav_setPrevious (nav_setTree s (setSelected (nav_tree s) (It a) false)) true.
Proof.
  intros N E L P. unfold navDown.
  rewrite (next_split fl _ p (b :: q) a N E). cbn [head_id].
  rewrite notParentEnd_item
    by (apply (items_ids_nodes fl); rewrite E; apply in_or_app; right; left; reflexivity).
  cbn [orb nav_setTree nav_previousWasSelected nav_setPrevious nav_last nav_tree].
  rewrite P.
  cbn [nav_setTree nav_previousWasSelected nav_setPrevious nav_last nav_tree].
  rewrite (next_ids fl (nav_tree s) _ (It a) (ids_items_setSelected fl _ _ _)).
  rewrite (next_split fl _ p (b :: q) a N E). cbn [head_id Iterator_eqb andb].
  rewrite L. cbn [ptrEq]. rewrite Z.eqb_refl. reflexivity.
Qed.

(** The turn of the loop on the last selected item, when it is the last item
    of the traversal. *)
Lemma navDown_at_end (fl : bool) (a : Z) (p : list Z) (s : NavState) :
  NoDup (ids (items fl (nav_tree s))) ->
  ids (items fl (nav_tree s)) = p ++ [a] ->
  nav_last s = Some a -> nav_previousWasSelected s = false ->
  navDown fl (It a) s
  = nav_setPrevious
      (nav_setTree s (reselectItems (fun j sel => if j =? a then true else sel)
                                    (nav_tree s)))
      true.
Proof.
  intros N E L P. unfold navDown.
  rewrite (next_split fl _ p [] a N E). cbn [head_id].
  rewrite L. cbn [ptrEq]. rewrite Z.eqb_refl. cbn [negb]. rewrite orb_false_r.
  destruct (notParentEnd (nav_tree s) (It a) End);
    cbn [nav_setTree nav_previousWasSelected nav_setPrevious nav_last nav_tree];
    rewrite P;
    cbn [nav_setTree nav_previousWasSelected nav_setPrevious nav_last nav_tree];
    rewrite ?(next_ids fl (nav_tree s) _ (It a) (ids_items_setSelected fl _ _ _));
    rewrite (next_split fl _ p [] a N E); cbn [head_id Iterator_eqb andb];
    rewrite L; cbn [ptrEq]; rewrite Z.eqb_refl;
    unfold nav_setTree, nav_setPrevious;
    cbn [nav_tree nav_last nav_needShow nav_toShow
         nav_previousWasSelected nav_changed nav_actions];
    rewrite !setSelected_reselect, ?reselectItems_compose;
    f_equal; apply reselectItems_ext; intros j sel; destruct (j =? a); reflexivity.
Qed.

(** The turn of the loop on the item after the last selected one. *)
Lemma navDown_after_last (fl : bool) (a b : Z) (s : NavState) :
  nav_last s = Some a -> b <> a -> nav_previousWasSelected s = true ->
  navDown fl (It b) s
  = mkNav (reselectItems (fun j sel => if j =? b then true else sel) (nav_tree s))
          (Some b) true (It b) false (nav_changed s) (nav_actions s).
Proof.
  intros L N P. unfold navDown. rewrite L.
  assert (E : ptrEq (It b) (Some a) = false) by (apply Z.eqb_neq; exact N).
  rewrite E, orb_true_r.
  cbn [nav_setTree nav_previousWasSelected nav_setPrevious nav_last nav_tree].
  rewrite P.
  cbn [nav_show nav_setTree nav_previousWasSelected nav_setPrevious nav_last nav_tree
       addressOf ptrEq nav_needShow nav_toShow nav_changed nav_actions].
  rewrite Z.eqb_refl, andb_true_r.
  destruct (Iterator_eqb _ End); unfold nav_setTree, nav_setPrevious, nav_show;
    cbn [nav_tree nav_last nav_needShow nav_toShow
         nav_previousWasSelected nav_changed nav_actions addressOf];
    rewrite !setSelected_reselect, ?reselectItems_compose;
    f_equal; apply reselectItems_ext; intros j sel; destruct (j =? b); reflexivity.
Qed.

Lemma NoDup_app_cons_notin {A : Type} (p q : list A) (a : A) :
  NoDup (p ++ a :: q) -> ~ In a p /\ ~ In a q.
Proof.
  intros N. pose proof (NoDup_remove_2 _ _ _ N) as K.
  split; intros H; apply K, in_or_app; [left | right]; exact H.
Qed.

Lemma navLoop_runList (st : CtrlTree) (key : NavKey) :
  key = KEY_UP \/ key = KEY_DOWN \/ key = KEY_ENTER \/ key = KEY_SPACE ->
  wf_tree (m_rTree st) ->
  navLoop (length (items (flat st) (m_rTree st))) st key
  = fold_left (fun s j => fst (navBody (flat st) key (It j) s))
              (ids (items (flat st) (m_rTree st)))
              (mkNav (m_rTree st) (m_pLastSelected st) false End false false []).
Proof.
  intros K W. unfold navLoop.
  pose proof (forEach_runList NavState (flat st) nav_tree (navBody (flat st) key)
                (fun it s => navBody_ids_select (flat st) key it s K)
                (mkNav (m_rTree st) (m_pLastSelected st) false End false false [])
                (items_NoDup _ _ W)) as FR.
  cbn [nav_tree] in FR. rewrite FR. apply runList_navBody.
Qed.

(** The loop of the Down key with the last selected item in the traversal. *)
Lemma navLoop_down (st : CtrlTree) (p q : list Z) (a : Z) :
  wf_tree (m_rTree st) ->
  ids (items (flat st) (m_rTree st)) = p ++ a :: q ->
  m_pLastSelected st = Some a ->
  navLoop (length (items (flat st) (m_rTree st))) st KEY_DOWN
  = match q with
    | b :: _ =>
        mkNav (reselectItems (onlySelected (p ++ a :: q) b) (m_rTree st))
              (Some b) true (It b) false false []
    | [] =>
        mkNav (reselectItems (onlySelected (p ++ a :: q) a) (m_rTree st))
              (Some a) false End true false []
    end.
Proof.
  intros W E L.
  pose proof (items_NoDup (flat st) _ W) as N.
  rewrite navLoop_runList by (tauto || exact W).
  rewrite E, L, fold_left_app.
  rewrite E in N. destruct (NoDup_app_cons_notin _ _ _ N) as [Nap Naq].
  rewrite (fold_navDown_others (flat st) a p) by (reflexivity || exact Nap).
  cbn [nav_tree]. set (F := fun (j : Z) (sel : bool) => if existsb (Z.eqb j) p then false else sel).
  set (s1 := nav_setTree _ _).
  assert (I1 : ids (items (flat st) (nav_tree s1)) = p ++ a :: q)
    by (unfold s1; cbn [nav_tree nav_setTree]; rewrite ids_items_reselectItems; exact E).
  assert (N1 : NoDup (ids (items (flat st) (nav_tree s1)))) by (rewrite I1; exact N).
  cbn [fold_left navBody fst].
  destruct q as [|b r].
  - rewrite (navDown_at_end (flat st) a p s1 N1 I1) by reflexivity.
    unfold s1, nav_setTree, nav_setPrevious.
    cbn [fold_left nav_tree nav_last nav_needShow nav_toShow nav_previousWasSelected
         nav_changed nav_actions].
    rewrite reselectItems_compose. f_equal.
    apply reselectItems_ext. intros j sel. unfold onlySelected, F.
    rewrite existsb_app. cbn [existsb]. rewrite orb_false_r.
    destruct (Z.eqb_spec j a) as [->|Hja].
    + rewrite orb_true_r. reflexivity.
    + rewrite orb_false_r. destruct (existsb (Z.eqb j) p); reflexivity.
  - rewrite (navDown_at_last (flat st) a b p r s1 N1 I1) by reflexivity.
    cbn [fold_left navBody fst].
    assert (Hba : b <> a).
    { intros ->. apply Naq. left; reflexivity. }
    rewrite (navDown_after_last (flat st) a b) by (reflexivity || exact Hba).
    assert (Nbr : ~ In b r).
    { change (p ++ a :: b :: r) with (p ++ [a] ++ b :: r) in N.
      rewrite app_assoc in N.
      destruct (NoDup_app_cons_notin _ _ _ N) as [_ K]. exact K. }
    rewrite (fold_navDown_others (flat st) b r) by (reflexivity || exact Nbr).
    unfold s1, nav_setTree, nav_setPrevious.
    cbn [nav_tree nav_last nav_needShow nav_toShow nav_previousWasSelected
         nav_changed nav_actions].
    rewrite setSelected_reselect, !reselectItems_compose. f_equal.
    apply reselectItems_ext. intros j sel. unfold onlySelected, F.
    rewrite existsb_app. cbn [existsb].
    destruct (Z.eqb_spec j b) as [->|Hjb].
    + rewrite (existsb_eqb_notIn b r Nbr).
      destruct (Z.eqb_spec b a); [contradiction|].
      rewrite !orb_true_r. reflexivity.
    + destruct (Z.eqb_spec j a); cbn [orb]; rewrite ?orb_true_r, ?orb_false_r;
        destruct (existsb (Z.eqb j) r), (existsb (Z.eqb j) p); reflexivity.
Qed.

(** The Down key with the last selected item in the traversal: the item
    that follows it becomes the only selected item of the traversal and the
    last selected item, and [ensureVisible] is called on it; on the last
    item of the traversal the selection stays, and every other item of the
    traversal is unselected.  The items outside the traversal keep their
    flag. *)
Theorem key_down_selects_next (st : CtrlTree) (P Q : list VarTree) (A : VarTree) :
  wf_tree (m_rTree st) ->
  items (flat st) (m_rTree st) = P ++ A :: Q ->
  m_pLastSelected st = Some (m_id A) ->
  handleNavigation st KEY_DOWN
  = match Q with
    | B :: _ =>
        (redraw
           (fst (ensureVisible
                   (set_lastSelected
                      (set_tree st
                         (reselectItems
                            (onlySelected (ids (items (flat st) (m_rTree st))) (m_id B))
                            (m_rTree st)))
                      (Some (m_id B)))
                   (It (m_id B)))),
         [])
    | [] =>
        (redraw
           (set_lastSelected
              (set_tree st
                 (reselectItems
                    (onlySelected (ids (items (flat st) (m_rTree st))) (m_id A))
                    (m_rTree st)))
              (Some (m_id A))),
         [])
    end.
Proof.
  intros W E L. unfold handleNavigation.
  assert (Ei : ids (items (flat st) (m_rTree st)) = ids P ++ m_id A :: ids Q)
    by (rewrite E; unfold ids; rewrite map_app; reflexivity).
  rewrite (navLoop_down st (ids P) (ids Q) (m_id A) W Ei L), Ei.
  destruct Q as [|B Q]; reflexivity.
Qed.

Lemma key_down_selects_next_witness :
  marks (m_rTree (fst (handleNavigation secondSelected KEY_DOWN)))
  = [(1, false); (2, false); (3, true)]
  /\ m_pLastSelected (fst (handleNavigation secondSelected KEY_DOWN)) = Some 3.
Proof.
  rewrite (key_down_selects_next secondSelected [Scenario.leaf 1] [Scenario.leaf 3]
             (Scenario.selected (Scenario.leaf 2))
             (distinct_NoDup [1; 2; 3] eq_refl) eq_refl eq_refl).
  split; vm_compute; reflexivity.
Defined.

(** *** Up *)

Lemma navUp_other (fl : bool) (j c : Z) (s : NavState) :
  nav_last s = Some c -> j <> c ->
  ptrEq (next fl (nav_tree s) (It j)) (Some c) = false ->
  navUp fl (It j) s = nav_setTree s (setSelected (nav_tree s) (It j) false).
Proof.
  intros L N X. unfold navUp. rewrite L, X.
  assert (E : ptrEq (It j) (Some c) = false) by (apply Z.eqb_neq; exact N).
  rewrite E, orb_true_r. reflexivity.
Qed.

Lemma fold_navUp_others (fl : bool) (c : Z) (l : list Z) :
  forall (pre post : list Z) (s : NavState),
    ids (items fl (nav_tree s)) = pre ++ l ++ post ->
    NoDup (pre ++ l ++ post) ->
    nav_last s = Some c -> ~ In c l -> ptrEq (head_id post) (Some c) = false ->
    fold_left (fun s j => fst (navBody fl KEY_UP (It j) s)) l s
    = nav_setTree s (reselectItems (fun j sel => if existsb (Z.eqb j) l then false else sel)
                                   (nav_tree s)).
Proof.
  induction l as [|j l IH]; intros pre post s E N L C X.
  - cbn [fold_left existsb]. rewrite reselectItems_same by reflexivity.
    symmetry; apply nav_setTree_same.
  - cbn [fold_left navBody fst].
    assert (Nx : next fl (nav_tree s) (It j) = head_id (l ++ post)).
    { apply (next_split fl _ pre (l ++ post) j); [rewrite E; exact N | exact E]. }
    rewrite (navUp_other fl j c s L).
    + rewrite (IH (pre ++ [j]) post).
      * change (nav_tree (nav_setTree s (setSelected (nav_tree s) (It j) false)))
          with (setSelected (nav_tree s) (It j) false).
        change (nav_setTree (nav_setTree s (setSelected (nav_tree s) (It j) false)))
          with (nav_setTree s).
        apply (f_equal (nav_setTree s)).
        rewrite setSelected_reselect, reselectItems_compose.
        apply reselectItems_ext. intros k sel. cbn [existsb].
        destruct (Z.eqb_spec k j); cbn [orb]; destruct (existsb (Z.eqb k) l); reflexivity.
      * cbn [nav_setTree nav_tree]. rewrite ids_items_setSelected, E, <- app_assoc.
        reflexivity.
      * rewrite <- app_assoc. exact N.
      * exact L.
      * intros K; apply C; right; exact K.
      * exact X.
    + intros ->. apply C. left; reflexivity.
    + rewrite Nx. destruct l as [|k l]; [exact X|].
      cbn [app head_id ptrEq]. apply Z.eqb_neq. intros ->. apply C. right; left; reflexivity.
Qed.

(** The turn of the loop on the item before the last selected one. *)
Lemma navUp_before_last (fl : bool) (x a : Z) (s : NavState) :
  nav_last s = Some a -> x <> a ->
  next fl (nav_tree s) (It x) = It a ->
  navUp fl (It x) s
  = mkNav (reselectItems (fun j sel => if j =? x then true else sel) (nav_tree s))
          (Some x) true (It x) (nav_previousWasSelected s) (nav_changed s)
          (nav_actions s).
Proof.
  intros L N X. unfold navUp. rewrite L, X.
  assert (E : ptrEq (It x) (Some a) = false) by (apply Z.eqb_neq; exact N).
  rewrite E, orb_true_r. cbn [ptrEq]. rewrite Z.eqb_refl.
  unfold nav_show, nav_setTree.
  cbn [nav_tree nav_last nav_needShow nav_toShow nav_previousWasSelected
       nav_changed nav_actions addressOf].
  rewrite setSelected_reselect. reflexivity.
Qed.

(** The loop of the Up key with the last selected item in the traversal,
    after some other item. *)
Lemma navLoop_up (st : CtrlTree) (p q : list Z) (x a : Z) :
  wf_tree (m_rTree st) ->
  ids (items (flat st) (m_rTree st)) = p ++ x :: a :: q ->
  m_pLastSelected st = Some a ->
  navLoop (length (items (flat st) (m_rTree st))) st KEY_UP
  = mkNav (reselectItems (onlySelected (p ++ x :: a :: q) x) (m_rTree st))
          (Some x) true (It x) false false [].
Proof.
  intros W E L.
  pose proof (items_NoDup (flat st) _ W) as N.
  rewrite navLoop_runList by (tauto || exact W).
  rewrite E, L, fold_left_app. rewrite E in N.
  destruct (NoDup_app_cons_notin _ _ _ N) as [Nxp Nxq].
  assert (N' : NoDup ((p ++ [x]) ++ a :: q)) by (rewrite <- app_assoc; exact N).
  destruct (NoDup_app_cons_notin _ _ _ N') as [Nap Naq].
  assert (Hxa : x <> a) by (intros ->; apply Nxq; left; reflexivity).
  rewrite (fold_navUp_others (flat st) a p [] (x :: a :: q)).
  2: exact E. 2: exact N. 2: reflexivity.
  2: { intros K. apply Nap, in_or_app. left; exact K. }
  2: { apply Z.eqb_neq. exact Hxa. }
  cbn [nav_tree app].
  set (F := fun (j : Z) (sel : bool) => if existsb (Z.eqb j) p then false else sel).
  set (s1 := nav_setTree _ _).
  assert (I1 : ids (items (flat st) (nav_tree s1)) = p ++ x :: a :: q)
    by (unfold s1; cbn [nav_tree nav_setTree]; rewrite ids_items_reselectItems; exact E).
  assert (Step : forall (f : NavState -> Z -> NavState) (s : NavState),
             fold_left f (x :: a :: q) s = fold_left f (a :: q) (f s x))
    by reflexivity.
  rewrite Step. cbv beta.
  change (fst (navBody (flat st) KEY_UP (It x) s1)) with (navUp (flat st) (It x) s1).
  rewrite (navUp_before_last (flat st) x a s1).
  2: reflexivity. 2: exact Hxa.
  2: { apply (next_split (flat st) _ p (a :: q) x); [rewrite I1; exact N | exact I1]. }
  set (s2 := mkNav _ _ _ _ _ _ _).
  rewrite (fold_navUp_others (flat st) x (a :: q) (p ++ [x]) []).
  - unfold s2, s1, nav_setTree.
    cbn [nav_tree nav_last nav_needShow nav_toShow nav_previousWasSelected
         nav_changed nav_actions].
    rewrite !reselectItems_compose. f_equal.
    apply reselectItems_ext. intros j sel. unfold onlySelected, F.
    rewrite existsb_app. cbn [existsb].
    destruct (Z.eqb_spec j x) as [->|Hjx].
    + rewrite (existsb_eqb_notIn x q) by (intros K; apply Nxq; right; exact K).
      destruct (Z.eqb_spec x a); [contradiction|].
      rewrite orb_true_r. reflexivity.
    + cbn [orb]. destruct (Z.eqb_spec j a); cbn [orb];
        destruct (existsb (Z.eqb j) q), (existsb (Z.eqb j) p); reflexivity.
  - unfold s2. cbn [nav_tree]. rewrite ids_items_reselectItems, I1, app_nil_r, <- app_assoc.
    reflexivity.
  - rewrite app_nil_r. exact N'.
  - reflexivity.
  - exact Nxq.
  - reflexivity.
Qed.

(** The Up key with the last selected item in the traversal, after some
    other item: the item before it becomes the only selected item of the
    traversal and the last selected item, and [ensureVisible] is called on
    it.  The items outside the traversal keep their flag. *)
Theorem key_up_selects_previous (st : CtrlTree) (P Q : list VarTree) (X A : VarTree) :
  wf_tree (m_rTree st) ->
  items (flat st) (m_rTree st) = P ++ X :: A :: Q ->
  m_pLastSelected st = Some (m_id A) ->
  handleNavigation st KEY_UP
  = (redraw
       (fst (ensureVisible
               (set_lastSelected
                  (set_tree st
                     (reselectItems
                        (onlySelected (ids (items (flat st) (m_rTree st))) (m_id X))
                        (m_rTree st)))
                  (Some (m_id X)))
               (It (m_id X)))),
     []).
Proof.
  intros W E L. unfold handleNavigation.
  assert (Ei : ids (items (flat st) (m_rTree st))
               = ids P ++ m_id X :: m_id A :: ids Q)
    by (rewrite E; unfold ids; rewrite map_app; reflexivity).
  rewrite (navLoop_up st (ids P) (ids Q) (m_id X) (m_id A) W Ei L), Ei.
  reflexivity.
Qed.

Lemma key_up_selects_previous_witness :
  marks (m_rTree (fst (handleNavigation secondSelected KEY_UP)))
  = [(1, true); (2, false); (3, false)]
  /\ m_pLastSelected (fst (handleNavigation secondSelected KEY_UP)) = Some 1.
Proof.
  rewrite (key_up_selects_previous secondSelected [] [Scenario.leaf 3]
             (Scenario.leaf 1) (Scenario.selected (Scenario.leaf 2))
             (distinct_NoDup [1; 2; 3] eq_refl) eq_refl eq_refl).
  split; vm_compute; reflexivity.
Defined.

(** ** The parent of an item in the traversal *)

Lemma self_in_allItems (c : VarTree) : In c (allItems c).
Proof. rewrite allItems_eq. left; reflexivity. Qed.

(** The children of a node of a subtree are below the root of the subtree. *)
Lemma children_below (c : VarTree) :
  forall n x, In n (allItems c) -> In x (m_children n) ->
              In x (flat_map allItems (m_children c)).
Proof.
  induction c as [id s sel pl ex del cs IH] using VarTree_forall_ind.
  intros n x Hn Hx. rewrite allItems_eq in Hn. cbn [m_children] in *.
  destruct Hn as [<-|Hn].
  - cbn [m_children] in Hx. apply in_flat_map. exists x. split; [exact Hx|].
    apply self_in_allItems.
  - apply in_flat_map in Hn. destruct Hn as (c' & Hc' & Hn).
    rewrite Forall_forall in IH.
    apply in_flat_map. exists c'. split; [exact Hc'|].
    rewrite allItems_eq. right. apply (IH c' Hc' n x Hn Hx).
Qed.

Lemma children_in_forest (cs : list VarTree) (n x : VarTree) :
  In n (flat_map allItems cs) -> In x (m_children n) -> In x (flat_map allItems cs).
Proof.
  intros Hn Hx. apply in_flat_map in Hn. destruct Hn as (c & Hc & Hn).
  apply in_flat_map. exists c. split; [exact Hc|].
  rewrite allItems_eq. right. apply (children_below c n x Hn Hx).
Qed.

Lemma child_id_in_forest (cs : list VarTree) (n : VarTree) (i : Z) :
  In n (flat_map allItems cs) ->
  existsb (fun x => m_id x =? i) (m_children n) = true ->
  In i (ids (flat_map allItems cs)).
Proof.
  intros Hn E. apply existsb_exists in E. destruct E as (x & Hx & Ex).
  apply Z.eqb_eq in Ex. rewrite <- Ex. apply in_map.
  apply (children_in_forest cs n x Hn Hx).
Qed.

Lemma visible_in_forest (cs : list VarTree) (x : VarTree) :
  In x (flat_map visible cs) -> In x (flat_map allItems cs).
Proof.
  apply subseq_In, subseq_flat_map, Forall_forall. intros c _. apply visible_subseq.
Qed.

Lemma parentsFirst_cons (c : VarTree) (r : list VarTree) :
  parentsFirst [c] -> parentsFirst r -> parentsFirst (c :: r).
Proof.
  intros Tc Fr N P Q A n E Hn En.
  cbn [flat_map] in *. unfold ids in N. rewrite map_app in N.
  fold (ids (allItems c)) in N. fold (ids (flat_map allItems r)) in N.
  assert (Nc : NoDup (ids (flat_map allItems [c])))
    by (cbn [flat_map]; rewrite app_nil_r; exact (NoDup_app_remove_r _ _ N)).
  assert (Nr : NoDup (ids (flat_map allItems r))) by exact (NoDup_app_remove_l _ _ N).
  assert (Split : (exists Q1, visible c = P ++ A :: Q1)
                  \/ (exists P2, P = visible c ++ P2 /\ flat_map visible r = P2 ++ A :: Q)).
  { apply app_eq_app in E. destruct E as (l & [[E1 E2]|[E1 E2]]).
    - destruct l as [|y l].
      + rewrite app_nil_r in E1. right. exists [].
        split; [rewrite app_nil_r; symmetry; exact E1 | symmetry; exact E2].
      + left. injection E2 as <- _. exists l. exact E1.
    - right. exists l. split; assumption. }
  apply in_app_or in Hn.
  destruct Split as [[Q1 E1]|(P2 & E1 & E2)].
  - destruct Hn as [Hn|Hn].
    + apply (Tc Nc P Q1 A n).
      * cbn [flat_map]. rewrite app_nil_r. exact E1.
      * cbn [flat_map]. rewrite app_nil_r. exact Hn.
      * exact En.
    + exfalso. apply (NoDup_app_disjoint _ _ (m_id A) N).
      * apply in_map. apply (subseq_In _ _ _ (visible_subseq c)).
        rewrite E1. apply in_or_app; right; left; reflexivity.
      * apply (child_id_in_forest r n _ Hn En).
  - destruct Hn as [Hn|Hn].
    + exfalso. apply (NoDup_app_disjoint _ _ (m_id A) N).
      * assert (K : In (m_id A) (ids (flat_map allItems [c])))
          by (apply (child_id_in_forest [c] n); [cbn [flat_map]; rewrite app_nil_r|];
              assumption).
        cbn [flat_map] in K. rewrite app_nil_r in K. exact K.
      * apply in_map, visible_in_forest. rewrite E2.
        apply in_or_app; right; left; reflexivity.
    + rewrite E1. unfold ids. rewrite map_app. apply in_or_app. right.
      apply (Fr Nr P2 Q A n E2 Hn En).
Qed.

Lemma parentsFirst_tree (c : VarTree) : parentsFirst [c].
Proof.
  induction c as [id s sel pl ex del cs IH] using VarTree_forall_ind.
  assert (Fcs : parentsFirst cs).
  { induction IH as [|c r Tc _ Fr]; [|apply parentsFirst_cons; assumption].
    intros _ P Q A n E. destruct P; discriminate E. }
  intros N P Q A n E Hn En.
  cbn [flat_map] in N, E, Hn. rewrite app_nil_r in N, E, Hn.
  rewrite allItems_eq in N, Hn. rewrite visible_eq in E.
  cbn [m_children m_expanded ids map m_id] in N, E, Hn.
  inversion N as [|? ? Hid N']; subst.
  destruct P as [|y P].
  - exfalso. cbn [app] in E. injection E as <- _. cbn [m_id] in En.
    destruct Hn as [<-|Hn].
    + cbn [m_children] in En. apply Hid.
      apply existsb_exists in En. destruct En as (x & Hx & Ex).
      apply Z.eqb_eq in Ex. rewrite <- Ex. apply in_map, in_flat_map.
      exists x. split; [exact Hx | apply self_in_allItems].
    + apply Hid. apply (child_id_in_forest cs n _ Hn En).
  - cbn [app] in E. injection E as <- E. cbn [ids map m_id].
    destruct Hn as [<-|Hn]; [left; reflexivity|]. right.
    destruct ex; [|destruct P; discriminate E].
    apply (Fcs N' P Q A n E Hn En).
Qed.

Lemma parentsFirst_forest (cs : list VarTree) : parentsFirst cs.
Proof.
  induction cs as [|c r IH]; [|apply parentsFirst_cons; [apply parentsFirst_tree | exact IH]].
  intros _ P Q A n E. destruct P; discriminate E.
Qed.

Lemma leafs_childless (c : VarTree) :
  forall x, In x (leafs c) -> m_children x = [].
Proof.
  induction c as [id s sel pl ex del cs IH] using VarTree_forall_ind.
  intros x Hx. rewrite leafs_eq in Hx. cbn [m_children] in Hx.
  destruct cs as [|c cs]; [destruct Hx as [<-|[]]; reflexivity|].
  apply in_flat_map in Hx. destruct Hx as (c' & Hc' & Hx).
  rewrite Forall_forall in IH. apply (IH c' Hc' x Hx).
Qed.

(** The parent of an item of the traversal is not among the items that
    follow it: in hierarchical mode it comes before, and in flat mode it is
    no leaf. *)
Lemma parent_not_after (fl : bool) (t : VarTree) (P Q : list VarTree) (A n : VarTree) :
  wf_tree t ->
  items fl t = P ++ A :: Q ->
  parent t (It (m_id A)) = NodeParent n ->
  ~ In (m_id n) (ids Q).
Proof.
  intros W E Pa. unfold parent in Pa.
  destruct (existsb _ (m_children t)); [discriminate Pa|].
  destruct (find _ (nodes t)) as [n'|] eqn:F; [|discriminate Pa].
  injection Pa as ->. apply find_some in F. destruct F as [Hn En].
  pose proof (items_NoDup fl t W) as N. rewrite E in N.
  destruct fl.
  - intros K. apply in_map_iff in K. destruct K as (x & Ex & Hx).
    assert (Hxl : In x (flatItems t))
      by (change (flatItems t) with (items true t); rewrite E;
          apply in_or_app; right; right; exact Hx).
    assert (Hxn : In x (nodes t))
      by (apply (subseq_In _ _ _ (items_subseq true t)); exact Hxl).
    pose proof (findIn_In _ x W Hxn) as F1.
    pose proof (findIn_In _ n W Hn) as F2.
    rewrite Ex, F2 in F1. injection F1 as ->.
    unfold flatItems in Hxl. apply in_flat_map in Hxl. destruct Hxl as (c & _ & Hxc).
    rewrite (leafs_childless c x Hxc) in En. discriminate En.
  - assert (K : In (m_id n) (ids P)).
    { apply (parentsFirst_forest (m_children t) W P Q A n).
      - exact E.
      - exact Hn.
      - exact En. }
    intros K'. unfold ids in N. rewrite map_app in N.
    apply (NoDup_app_disjoint _ _ (m_id n) N K). right. exact K'.
Qed.

Lemma notFirstChild_begin (t : VarTree) (a : Z) (q : list Z) :
  ids (visItems t) = a :: q -> notFirstChild t (It a) = false.
Proof.
  unfold visItems, notFirstChild, parent, begin. intros E.
  destruct (m_children t) as [|c cs]; [discriminate E|].
  cbn [flat_map] in E. rewrite visible_eq in E. cbn [app ids map] in E.
  injection E as Ea _. cbn [existsb head_it]. rewrite Ea, Z.eqb_refl.
  cbn [orb Iterator_eqb]. rewrite Z.eqb_refl. reflexivity.
Qed.

(** *** The first item of the traversal is a first child *)

Lemma leafs_nonempty (c : VarTree) : leafs c <> [].
Proof.
  induction c as [id s sel pl ex del cs IH] using VarTree_forall_ind.
  rewrite leafs_eq. cbn [m_children]. destruct cs as [|c cs]; [discriminate|].
  cbn [flat_map]. inversion IH as [|? ? Hc _]; subst.
  destruct (leafs c); [contradiction | discriminate].
Qed.

(** The leafs of a node of a subtree are a segment of the leafs of the
    subtree. *)
Lemma leafs_segment (c : VarTree) :
  forall n, In n (allItems c) -> exists P Q, leafs c = P ++ leafs n ++ Q.
Proof.
  induction c as [id s sel pl ex del cs IH] using VarTree_forall_ind.
  intros n Hn. rewrite allItems_eq in Hn. cbn [m_children] in Hn.
  destruct Hn as [<-|Hn].
  - exists [], []. rewrite app_nil_r. reflexivity.
  - apply in_flat_map in Hn. destruct Hn as (c' & Hc' & Hn).
    rewrite Forall_forall in IH. destruct (IH c' Hc' n Hn) as (P & Q & E).
    destruct (in_split _ _ Hc') as (cs1 & cs2 & ->).
    exists (flat_map leafs cs1 ++ P), (Q ++ flat_map leafs cs2).
    rewrite leafs_eq. cbn [m_children].
    destruct (cs1 ++ c' :: cs2) eqn:D; [destruct cs1; discriminate D|]. rewrite <- D.
    rewrite flat_map_app. cbn [flat_map]. rewrite E, <- !app_assoc. reflexivity.
Qed.

Lemma flatItems_segment (t : VarTree) (n : VarTree) :
  In n (nodes t) -> exists P Q, flatItems t = P ++ leafs n ++ Q.
Proof.
  unfold nodes, flatItems. intros Hn.
  apply in_flat_map in Hn. destruct Hn as (c & Hc & Hn).
  destruct (leafs_segment c n Hn) as (P & Q & E).
  destruct (in_split _ _ Hc) as (cs1 & cs2 & ->).
  exists (flat_map leafs cs1 ++ P), (Q ++ flat_map leafs cs2).
  rewrite flat_map_app. cbn [flat_map]. rewrite E, <- !app_assoc. reflexivity.
Qed.

(** A list without repeated addresses does not hold its first address at a
    later place. *)
Lemma head_not_later (l W R : list VarTree) (x z : VarTree) (a : Z) (q : list Z) :
  NoDup (ids l) -> ids l = a :: q -> l = (z :: W) ++ x :: R -> m_id x = a -> False.
Proof.
  intros N E L X. rewrite L in N, E. unfold ids in N, E. rewrite map_app in N, E.
  cbn [map app] in N, E. injection E as Ez _.
  inversion N as [|z' W' Hz _]. apply Hz.
  rewrite Ez, <- X. apply in_or_app. right. left. reflexivity.
Qed.

Lemma notFirstChild_firstLeaf (t : VarTree) (a : Z) (q : list Z) :
  wf_tree t -> ids (flatItems t) = a :: q -> notFirstChild t (It a) = false.
Proof.
  intros W E.
  pose proof (items_NoDup true t W) as N. cbn [items] in N.
  unfold notFirstChild, parent, begin.
  destruct (existsb (fun c => m_id c =? a) (m_children t)) eqn:R.
  - (* a child of the root *)
    apply existsb_exists in R. destruct R as (ck & Hck & Eck). apply Z.eqb_eq in Eck.
    unfold flatItems in E, N.
    destruct (m_children t) as [|c1 rest] eqn:Ct; [discriminate E|].
    cbn [head_it Iterator_eqb]. apply negb_false_iff, Z.eqb_eq.
    destruct (Z.eq_dec a (m_id c1)) as [K|K]; [exact K|]. exfalso.
    cbn [flat_map] in E, N.
    destruct (leafs c1) as [|y ys] eqn:Lc; [exact (leafs_nonempty c1 Lc)|].
    cbn [app ids map] in E. injection E as Ey _.
    assert (Hy : In y (allItems c1))
      by (apply (subseq_In _ _ _ (leafs_subseq c1)); rewrite Lc; left; reflexivity).
    unfold wf_tree, nodes in W. rewrite Ct in W. cbn [flat_map] in W.
    unfold ids in W. rewrite map_app in W.
    destruct Hck as [<-|Hck]; [congruence|].
    apply (NoDup_app_disjoint _ _ a W).
    + rewrite <- Ey. apply in_map. exact Hy.
    + rewrite <- Eck. apply in_map, in_flat_map. exists ck.
      split; [exact Hck | apply self_in_allItems].
  - destruct (find _ (nodes t)) as [n|] eqn:F; [|reflexivity].
    apply find_some in F. destruct F as [Hn En].
    destruct (m_children n) as [|c' rest'] eqn:Cn; [discriminate En|].
    cbn [head_it Iterator_eqb]. apply negb_false_iff, Z.eqb_eq.
    destruct (Z.eq_dec a (m_id c')) as [K|K]; [exact K|]. exfalso.
    cbn [existsb] in En. apply Z.eqb_neq in K. rewrite Z.eqb_sym, K in En.
    cbn [orb] in En. apply existsb_exists in En. destruct En as (x & Hx & Ex).
    apply Z.eqb_eq in Ex.
    (* the child x is the first leaf *)
    destruct (flatItems t) as [|X Qs] eqn:Fl; [discriminate E|].
    cbn [ids map] in E. injection E as EX _.
    assert (HXn : In X (nodes t)).
    { apply (subseq_In _ _ _ (items_subseq true t)). cbn [items]. rewrite Fl.
      left; reflexivity. }
    assert (Hxn : In x (nodes t)).
    { apply (children_in_forest _ n x Hn). rewrite Cn. right; exact Hx. }
    assert (XX : X = x).
    { pose proof (findIn_In _ X W HXn) as F1. pose proof (findIn_In _ x W Hxn) as F2.
      rewrite EX, <- Ex, F2 in F1. injection F1 as ->. reflexivity. }
    assert (Cx : m_children x = []).
    { assert (Hl : In X (flatItems t)) by (rewrite Fl; left; reflexivity).
      unfold flatItems in Hl. apply in_flat_map in Hl. destruct Hl as (c & _ & Hc).
      rewrite <- XX. apply (leafs_childless c X Hc). }
    destruct (flatItems_segment t n Hn) as (P & Q & Seg).
    rewrite leafs_eq, Cn in Seg. cbn [flat_map] in Seg.
    destruct (leafs c') as [|y ys] eqn:Lc; [exact (leafs_nonempty c' Lc)|].
    destruct (in_split _ _ Hx) as (r1 & r2 & Er).
    rewrite Er, flat_map_app in Seg. cbn [flat_map] in Seg.
    rewrite (leafs_eq x), Cx in Seg.
    rewrite <- Fl in N.
    destruct P as [|z P].
    + apply (head_not_later (flatItems t) (ys ++ flat_map leafs r1)
                            (flat_map leafs r2 ++ Q) x y a (ids Qs) N).
      * rewrite Fl. cbn [ids map]. rewrite EX. reflexivity.
      * rewrite Seg. cbn [app]. rewrite <- !app_assoc. reflexivity.
      * exact Ex.
    + apply (head_not_later (flatItems t) (P ++ y :: ys ++ flat_map leafs r1)
                            (flat_map leafs r2 ++ Q) x z a (ids Qs) N).
      * rewrite Fl. cbn [ids map]. rewrite EX. reflexivity.
      * rewrite Seg. cbn [app]. rewrite <- !app_assoc. cbn [app].
        rewrite <- !app_assoc. reflexivity.
      * exact Ex.
Qed.

Lemma notFirstChild_start (fl : bool) (t : VarTree) (a : Z) (q : list Z) :
  wf_tree t -> ids (items fl t) = a :: q -> notFirstChild t (It a) = false.
Proof.
  intros W E. destruct fl.
  - apply (notFirstChild_firstLeaf t a q W E).
  - apply (notFirstChild_begin t a q E).
Qed.

(** The Up key with the last selected item at the start of the traversal:
    that item is the first child of its parent, so the loop leaves it as it
    is, selected or not, and it stays the last selected item; the other
    items of the traversal are unselected, and [ensureVisible] is not
    called. *)
Theorem key_up_on_first_item (st : CtrlTree) (Q : list VarTree) (A : VarTree) :
  wf_tree (m_rTree st) ->
  items (flat st) (m_rTree st) = A :: Q ->
  m_pLastSelected st = Some (m_id A) ->
  handleNavigation st KEY_UP
  = (redraw
       (set_lastSelected
          (set_tree st
             (reselectItems
                (fun j sel => if existsb (Z.eqb j) (ids Q) then false else sel)
                (m_rTree st)))
          (Some (m_id A))),
     []).
Proof.
  intros W E L. unfold handleNavigation.
  pose proof (items_NoDup (flat st) _ W) as N.
  assert (Ei : ids (items (flat st) (m_rTree st)) = m_id A :: ids Q)
    by (rewrite E; reflexivity).
  rewrite navLoop_runList by (tauto || exact W).
  rewrite Ei, L. rewrite Ei in N.
  assert (Step : forall (f : NavState -> Z -> NavState) (s : NavState),
             fold_left f (m_id A :: ids Q) s = fold_left f (ids Q) (f s (m_id A)))
    by reflexivity.
  rewrite Step. cbv beta.
  change (fst (navBody (flat st) KEY_UP (It (m_id A)) ?s)) with (navUp (flat st) (It (m_id A)) s).
  assert (U : navUp (flat st) (It (m_id A))
                    (mkNav (m_rTree st) (Some (m_id A)) false End false false [])
              = mkNav (m_rTree st) (Some (m_id A)) false End false false []).
  { unfold navUp. cbn [nav_tree nav_last ptrEq].
    rewrite (notFirstChild_start (flat st) (m_rTree st) (m_id A) (ids Q) W Ei),
      Z.eqb_refl.
    reflexivity. }
  cbn [navBody fst]. rewrite U.
  rewrite (fold_navUp_others (flat st) (m_id A) (ids Q) [m_id A] []).
  - reflexivity.
  - cbn [nav_tree]. rewrite app_nil_r. exact Ei.
  - rewrite app_nil_r. exact N.
  - reflexivity.
  - inversion N; assumption.
  - reflexivity.
Qed.

Lemma key_up_on_first_item_witness :
  marks (m_rTree (fst (handleNavigation
                         (Scenario.control true
                            [Scenario.folder 1 true
                               [Scenario.selected (Scenario.leaf 2);
                                Scenario.selected (Scenario.leaf 3)];
                             Scenario.leaf 4]
                            (It 2) (Some 2))
                         KEY_UP)))
  = [(1, false); (2, true); (3, false); (4, false)].
Proof.
  rewrite (key_up_on_first_item
             (Scenario.control true
                [Scenario.folder 1 true
                   [Scenario.selected (Scenario.leaf 2);
                    Scenario.selected (Scenario.leaf 3)];
                 Scenario.leaf 4]
                (It 2) (Some 2))
             [Scenario.selected (Scenario.leaf 3); Scenario.leaf 4]
             (Scenario.selected (Scenario.leaf 2))
             (distinct_NoDup [1; 2; 3; 4] eq_refl) eq_refl eq_refl).
  vm_compute; reflexivity.
Defined.

(** *** Enter and space *)

Lemma fold_navEnter (fl : bool) (key : NavKey) (l : list Z) :
  key = KEY_ENTER \/ key = KEY_SPACE ->
  forall s : NavState,
    NoDup l ->
    fold_left (fun s j => fst (navBody fl key (It j) s)) l s
    = mkNav (nav_tree s) (nav_last s) (nav_needShow s) (nav_toShow s)
            (nav_previousWasSelected s) (nav_changed s)
            (match nav_last s with
             | Some a => if existsb (Z.eqb a) l then a :: nav_actions s else nav_actions s
             | None => nav_actions s
             end).
Proof.
  intros K. induction l as [|j l IH]; intros s N.
  - cbn [fold_left existsb]. destruct s as [t [a|] ns ts pv ch ac]; reflexivity.
  - inversion N as [|? ? Hj N']; subst.
    cbn [fold_left]. rewrite IH by exact N'.
    assert (B : fst (navBody fl key (It j) s) = navEnter (It j) s)
      by (destruct K as [->| ->]; reflexivity).
    rewrite B. unfold navEnter.
    destruct (nav_last s) as [a|] eqn:L; cbn [ptrEq existsb].
    + rewrite (Z.eqb_sym a j).
      destruct (Z.eqb_spec j a) as [->|Hja].
      * unfold nav_action.
        cbn [nav_tree nav_last nav_needShow nav_toShow nav_previousWasSelected
             nav_changed nav_actions orb].
        rewrite L, (existsb_eqb_notIn a l Hj). reflexivity.
      * cbn [orb]. rewrite L. reflexivity.
    + rewrite L. reflexivity.
Qed.

(** Enter and space run the action of the last selected item, once, when it
    is an item of the traversal, and no action otherwise; they change
    neither the tree nor the last selected item, and the control is
    redrawn. *)
Theorem key_enter_runs_action (st : CtrlTree) (key : NavKey) :
  key = KEY_ENTER \/ key = KEY_SPACE ->
  wf_tree (m_rTree st) ->
  handleNavigation st key
  = (redraw st,
     match m_pLastSelected st with
     | Some a => if existsb (Z.eqb a) (ids (items (flat st) (m_rTree st))) then [a] else []
     | None => []
     end).
Proof.
  intros K W. unfold handleNavigation.
  rewrite navLoop_runList by (tauto || exact W).
  rewrite (fold_navEnter (flat st) key _ K) by (apply items_NoDup; exact W).
  unfold navFinish.
  cbn [nav_tree nav_last nav_needShow nav_toShow nav_previousWasSelected
       nav_changed nav_actions].
  assert (E : set_lastSelected (set_tree st (m_rTree st)) (m_pLastSelected st) = st)
    by (destruct st; reflexivity).
  rewrite E. reflexivity.
Qed.

Lemma key_enter_runs_action_witness :
  handleNavigation secondSelected KEY_ENTER = (redraw secondSelected, [2]).
Proof.
  exact (key_enter_runs_action secondSelected KEY_ENTER (or_introl eq_refl)
           (distinct_NoDup [1; 2; 3] eq_refl)).
Defined.

(** ** Loops over a traversal that changes *)

Section ForEachSteps.

Variable Acc : Type.
Variable fl : bool.
Variable treeOf : Acc -> VarTree.
Variable body : Iterator -> Acc -> Acc * bool.

(** The turns of the loop over items on which the body does nothing. *)
Lemma forEach_skip_prefix (s : Acc) (p : list Z) :
  forall (pre r : list Z) (fuel : nat),
    ids (items fl (treeOf s)) = pre ++ p ++ r ->
    NoDup (pre ++ p ++ r) ->
    (forall j, In j p -> body (It j) s = (s, false)) ->
    forEach (length p + fuel) fl treeOf body (head_id (p ++ r)) s
    = forEach fuel fl treeOf body (head_id r) s.
Proof.
  induction p as [|j p IH]; intros pre r fuel E N B; [reflexivity|].
  cbn [length Nat.add app head_id forEach Iterator_eqb].
  rewrite (B j) by (left; reflexivity).
  rewrite (next_split fl (treeOf s) pre (p ++ r) j)
    by (first [rewrite E; exact N | exact E]).
  apply (IH (pre ++ [j])).
  - rewrite <- app_assoc. exact E.
  - rewrite <- app_assoc. exact N.
  - intros k Hk. apply B. right; exact Hk.
Qed.

(** The loop over the rest of the traversal, when the body does nothing on
    any of its items: whatever the fuel. *)
Lemma forEach_noop_rest (s : Acc) (r : list Z) :
  forall (pre : list Z) (fuel : nat),
    ids (items fl (treeOf s)) = pre ++ r ->
    NoDup (pre ++ r) ->
    (forall j, In j r -> body (It j) s = (s, false)) ->
    forEach fuel fl treeOf body (head_id r) s = s.
Proof.
  induction r as [|j r IH]; intros pre fuel E N B.
  - destruct fuel; reflexivity.
  - destruct fuel as [|fuel]; [reflexivity|].
    cbn [head_id forEach Iterator_eqb].
    rewrite (B j) by (left; reflexivity).
    rewrite (next_split fl (treeOf s) pre r j)
      by (first [rewrite E; exact N | exact E]).
    apply (IH (pre ++ [j])).
    + rewrite <- app_assoc. exact E.
    + rewrite <- app_assoc. exact N.
    + intros k Hk. apply B. right; exact Hk.
Qed.

(** A loop in which the body works on one item only, and may change the
    traversal there, as long as it keeps the item in it. *)
Lemma forEach_once (s s' : Acc) (p q : list Z) (a : Z) (fuel : nat) :
  ids (items fl (treeOf s)) = p ++ a :: q ->
  NoDup (p ++ a :: q) ->
  (forall j, In j p -> body (It j) s = (s, false)) ->
  body (It a) s = (s', false) ->
  NoDup (ids (items fl (treeOf s'))) ->
  In a (ids (items fl (treeOf s'))) ->
  (forall j, j <> a -> body (It j) s' = (s', false)) ->
  forEach (length p + S fuel) fl treeOf body (start fl (treeOf s)) s = s'.
Proof.
  intros E N Bp Ba N' I' Br.
  rewrite start_head, head_it_ids, E.
  rewrite (forEach_skip_prefix s p [] (a :: q) (S fuel) E N Bp).
  cbn [head_id forEach Iterator_eqb]. rewrite Ba.
  destruct (in_split _ _ I') as (p' & q' & E').
  rewrite (next_split fl (treeOf s') p' q' a N' E').
  rewrite E' in N'.
  apply (forEach_noop_rest s' q' (p' ++ [a])).
  - rewrite <- app_assoc. exact E'.
  - rewrite <- app_assoc. exact N'.
  - intros j Hj. apply Br. intros ->.
    destruct (NoDup_app_cons_notin _ _ _ N') as [_ K]. exact (K Hj).
Qed.

End ForEachSteps.

(** ** Folding and unfolding keep the items *)

Lemma ids_nodes_setExpanded (t : VarTree) (it : Iterator) (b : bool) :
  ids (nodes (setExpanded t it b)) = ids (nodes t).
Proof.
  destruct it as [i|]; [|reflexivity]. unfold setExpanded.
  assert (E : nodes (update (withExpanded b) t (It i))
              = map (modify i (withExpanded b)) (nodes t))
    by (apply nodes_update; try reflexivity; intros n; reflexivity).
  rewrite E. apply ids_modify. intros n; reflexivity.
Qed.

Lemma setExpanded_wf (t : VarTree) (it : Iterator) (b : bool) :
  wf_tree t -> wf_tree (setExpanded t it b).
Proof. unfold wf_tree. rewrite ids_nodes_setExpanded. auto. Qed.

Lemma visible_modify_keeps (a : Z) (f : VarTree -> VarTree) (n : VarTree) :
  (forall m, m_id (f m) = m_id m) ->
  In a (ids (visible n)) -> In a (ids (visible (modify a f n))).
Proof.
  intros Fi.
  induction n as [id s sel pl ex del cs IH] using VarTree_forall_ind.
  intros H. rewrite modify_eq. cbn [m_id m_children].
  destruct (Z.eqb_spec id a) as [->|Hn].
  - rewrite visible_eq. left. rewrite Fi. reflexivity.
  - rewrite visible_eq in H |- *.
    cbn [withChildren m_id m_expanded m_children ids map] in H |- *.
    destruct H as [H|H]; [contradiction|]. right.
    destruct ex; [|contradiction].
    apply in_map_iff in H. destruct H as (x & Ex & Hx).
    apply in_flat_map in Hx. destruct Hx as (c & Hc & Hx).
    rewrite Forall_forall in IH.
    assert (K : In a (ids (visible (modify a f c)))).
    { apply (IH c Hc). rewrite <- Ex. apply in_map. exact Hx. }
    apply in_map_iff in K. destruct K as (y & Ey & Hy).
    apply in_map_iff. exists y. split; [exact Ey|]. rewrite flat_map_map.
    apply in_flat_map. exists c. split; [exact Hc | exact Hy].
Qed.

(** An item of the traversal is still one after it was folded or
    unfolded. *)
Lemma item_stays (fl : bool) (t : VarTree) (a : Z) (b : bool) :
  In a (ids (items fl t)) -> In a (ids (items fl (setExpanded t (It a) b))).
Proof.
  intros H. destruct fl.
  - unfold items, flatItems, setExpanded, update in *. cbn [withChildren m_children].
    rewrite flat_map_map.
    rewrite (flat_map_ext_Forall (fun x => leafs (modify a (withExpanded b) x))
                                 (fun x => map (modify a (withExpanded b)) (leafs x)))
      by (apply Forall_forall; intros c _; apply leafs_modify; intros n; reflexivity).
    rewrite <- map_flat_map, ids_modify by (intros n; reflexivity). exact H.
  - unfold items, visItems, setExpanded, update in *. cbn [withChildren m_children].
    apply in_map_iff in H. destruct H as (x & Ex & Hx).
    apply in_flat_map in Hx. destruct Hx as (c & Hc & Hx).
    assert (K : In a (ids (visible (modify a (withExpanded b) c)))).
    { apply visible_modify_keeps; [intros n; reflexivity|].
      rewrite <- Ex. apply in_map. exact Hx. }
    apply in_map_iff in K. destruct K as (y & Ey & Hy).
    apply in_map_iff. exists y. split; [exact Ey|]. rewrite flat_map_map.
    apply in_flat_map. exists c. split; [exact Hc | exact Hy].
Qed.

(** *** Left and right *)

Lemma navBody_elsewhere (fl : bool) (key : NavKey) (j a : Z) (s : NavState) :
  key = KEY_LEFT \/ key = KEY_RIGHT ->
  nav_last s = Some a -> j <> a ->
  navBody fl key (It j) s = (s, false).
Proof.
  intros K L N.
  assert (E : ptrEq (It j) (nav_last s) = false)
    by (rewrite L; apply Z.eqb_neq; exact N).
  destruct K as [ -> | -> ]; unfold navBody, navLeft, navRight; rewrite E; reflexivity.
Qed.

(** The loop of the Left and Right keys when the body, on the last selected
    item, keeps it last selected and in the traversal. *)
Lemma navLoop_once (st : CtrlTree) (key : NavKey) (a : Z) (s1 : NavState) :
  key = KEY_LEFT \/ key = KEY_RIGHT ->
  wf_tree (m_rTree st) ->
  In a (ids (items (flat st) (m_rTree st))) ->
  m_pLastSelected st = Some a ->
  fst (navBody (flat st) key (It a)
               (mkNav (m_rTree st) (Some a) false End false false [])) = s1 ->
  nav_last s1 = Some a ->
  NoDup (ids (items (flat st) (nav_tree s1))) ->
  In a (ids (items (flat st) (nav_tree s1))) ->
  navLoop (length (items (flat st) (m_rTree st))) st key = s1.
Proof.
  intros K W I L B L1 N1 I1. unfold navLoop. rewrite L.
  pose proof (items_NoDup (flat st) _ W) as N.
  destruct (in_split _ _ I) as (p & q & E).
  assert (Len : length (items (flat st) (m_rTree st)) = (length p + S (length q))%nat).
  { pose proof (f_equal (@length Z) E) as Le. unfold ids in Le.
    rewrite length_map, length_app in Le. exact Le. }
  rewrite Len. rewrite E in N.
  apply (forEach_once NavState (flat st) nav_tree (navBody (flat st) key)
           (mkNav (m_rTree st) (Some a) false End false false []) s1 p q a (length q)).
  - exact E.
  - exact N.
  - intros j Hj. apply (navBody_elsewhere _ _ j a); [exact K | reflexivity|].
    intros ->. destruct (NoDup_app_cons_notin _ _ _ N) as [Kp _]. exact (Kp Hj).
  - rewrite <- B. destruct K as [ -> | -> ]; reflexivity.
  - exact N1.
  - exact I1.
  - intros j Hj. apply (navBody_elsewhere _ _ j a); assumption.
Qed.

Lemma set_lastSelected_same (st : CtrlTree) (t : VarTree) (a : option Z) :
  m_pLastSelected st = a -> set_lastSelected (set_tree st t) a = set_tree st t.
Proof. intros <-. reflexivity. Qed.

(** The Right key on a last selected item of the traversal that is not
    expanded unfolds it, and the Left key on one that is expanded and has
    children folds it; the selection and the last selected item stay, the
    control is redrawn, and the position variable is set again from the index
    of the anchor, under the guard. *)
Theorem key_left_right_fold (st : CtrlTree) (a : Z) :
  wf_tree (m_rTree st) ->
  In a (ids (items (flat st) (m_rTree st))) ->
  m_pLastSelected st = Some a ->
  (isExpanded (m_rTree st) (It a) = false ->
   handleNavigation st KEY_RIGHT
   = (fixPosition (redraw (set_tree st (setExpanded (m_rTree st) (It a) true))), []))
  /\ (isExpanded (m_rTree st) (It a) = true ->
      sizeAt (m_rTree st) (It a) <> 0 ->
      handleNavigation st KEY_LEFT
      = (fixPosition (redraw (set_tree st (setExpanded (m_rTree st) (It a) false))), [])).
Proof.
  intros W I L. split.
  - intros X. unfold handleNavigation.
    rewrite (navLoop_once st KEY_RIGHT a
               (nav_setChanged
                  (nav_setTree (mkNav (m_rTree st) (Some a) false End false false [])
                               (setExpanded (m_rTree st) (It a) true)))).
    + unfold navFinish.
      cbn [nav_setChanged nav_setTree nav_tree nav_last nav_needShow nav_toShow
           nav_changed nav_actions].
      rewrite (set_lastSelected_same st _ _ L). reflexivity.
    + right; reflexivity.
    + exact W.
    + exact I.
    + exact L.
    + cbn [navBody fst]. unfold navRight. cbn [nav_tree nav_last ptrEq].
      rewrite Z.eqb_refl, X. reflexivity.
    + reflexivity.
    + apply items_NoDup, setExpanded_wf, W.
    + apply item_stays, I.
  - intros X S. unfold handleNavigation.
    rewrite (navLoop_once st KEY_LEFT a
               (nav_setChanged
                  (nav_setTree (mkNav (m_rTree st) (Some a) false End false false [])
                               (setExpanded (m_rTree st) (It a) false)))).
    + unfold navFinish.
      cbn [nav_setChanged nav_setTree nav_tree nav_last nav_needShow nav_toShow
           nav_changed nav_actions].
      rewrite (set_lastSelected_same st _ _ L). reflexivity.
    + left; reflexivity.
    + exact W.
    + exact I.
    + exact L.
    + cbn [navBody fst]. unfold navLeft. cbn [nav_tree nav_last ptrEq].
      rewrite Z.eqb_refl, X. apply Z.eqb_neq in S. rewrite S. reflexivity.
    + reflexivity.
    + apply items_NoDup, setExpanded_wf, W.
    + apply item_stays, I.
Qed.

Lemma key_left_right_fold_witness :
  handleNavigation (folderControl false) KEY_RIGHT
  = (fixPosition
       (redraw (set_tree (folderControl false)
                         (setExpanded (m_rTree (folderControl false)) (It 1) true))),
     [])
  /\ handleNavigation (folderControl true) KEY_LEFT
     = (fixPosition
          (redraw (set_tree (folderControl true)
                            (setExpanded (m_rTree (folderControl true)) (It 1) false))),
        []).
Proof.
  split.
  - apply (proj1 (key_left_right_fold (folderControl false) 1
                    (distinct_NoDup [1; 2; 3; 4] eq_refl) (or_introl eq_refl) eq_refl)).
    reflexivity.
  - apply (proj2 (key_left_right_fold (folderControl true) 1
                    (distinct_NoDup [1; 2; 3; 4] eq_refl) (or_introl eq_refl) eq_refl)).
    + reflexivity.
    + discriminate.
Defined.

(** The Right key on a last selected item of the traversal that is expanded
    and has no children runs the action of the item; the tree and the last
    selected item stay as they are. *)
Theorem key_right_runs_action (st : CtrlTree) (a : Z) :
  wf_tree (m_rTree st) ->
  In a (ids (items (flat st) (m_rTree st))) ->
  m_pLastSelected st = Some a ->
  isExpanded (m_rTree st) (It a) = true ->
  sizeAt (m_rTree st) (It a) = 0 ->
  handleNavigation st KEY_RIGHT = (redraw st, [a]).
Proof.
  intros W I L X S. unfold handleNavigation.
  rewrite (navLoop_once st KEY_RIGHT a
             (nav_action (mkNav (m_rTree st) (Some a) false End false false []) (It a))).
  - unfold navFinish.
    cbn [nav_action nav_tree nav_last nav_needShow nav_toShow nav_changed nav_actions].
    rewrite (set_lastSelected_same st _ _ L).
    assert (E : set_tree st (m_rTree st) = st) by (destruct st; reflexivity).
    rewrite E. reflexivity.
  - right; reflexivity.
  - exact W.
  - exact I.
  - exact L.
  - cbn [navBody fst]. unfold navRight. cbn [nav_tree nav_last ptrEq].
    rewrite Z.eqb_refl, X, S. reflexivity.
  - reflexivity.
  - apply items_NoDup, W.
  - exact I.
Qed.

Lemma key_right_runs_action_witness :
  handleNavigation
    (Scenario.control true
       [Scenario.leaf 1; mkVarTree 2 (Some "item"%string) true false true false []]
       (It 1) (Some 2))
    KEY_RIGHT
  = (redraw
       (Scenario.control true
          [Scenario.leaf 1; mkVarTree 2 (Some "item"%string) true false true false []]
          (It 1) (Some 2)),
     [2]).
Proof.
  apply (key_right_runs_action
           (Scenario.control true
              [Scenario.leaf 1; mkVarTree 2 (Some "item"%string) true false true false []]
              (It 1) (Some 2))
           2 (distinct_NoDup [1; 2] eq_refl) (or_intror (or_introl eq_refl)) eq_refl);
    reflexivity.
Defined.

(** The Left key on a last selected item of the first level that is not an
    expanded folder changes nothing: the parent is the root, which is never
    selected. *)
Theorem key_left_at_top (st : CtrlTree) (a : Z) :
  wf_tree (m_rTree st) ->
  In a (ids (items (flat st) (m_rTree st))) ->
  m_pLastSelected st = Some a ->
  isExpanded (m_rTree st) (It a) && negb (sizeAt (m_rTree st) (It a) =? 0) = false ->
  parent (m_rTree st) (It a) = RootParent ->
  handleNavigation st KEY_LEFT = (redraw st, []).
Proof.
  intros W I L X P. unfold handleNavigation.
  rewrite (navLoop_once st KEY_LEFT a
             (mkNav (m_rTree st) (Some a) false End false false [])).
  - unfold navFinish.
    cbn [nav_tree nav_last nav_needShow nav_toShow nav_changed nav_actions].
    rewrite (set_lastSelected_same st _ _ L).
    assert (E : set_tree st (m_rTree st) = st) by (destruct st; reflexivity).
    rewrite E. reflexivity.
  - left; reflexivity.
  - exact W.
  - exact I.
  - exact L.
  - cbn [navBody fst]. unfold navLeft. cbn [nav_tree nav_last ptrEq].
    rewrite Z.eqb_refl, X, P. reflexivity.
  - reflexivity.
  - apply items_NoDup, W.
  - exact I.
Qed.

Lemma key_left_at_top_witness :
  handleNavigation (folderControl false) KEY_LEFT = (redraw (folderControl false), []).
Proof.
  apply (key_left_at_top (folderControl false) 1
           (distinct_NoDup [1; 2; 3; 4] eq_refl) (or_introl eq_refl) eq_refl);
    reflexivity.
Defined.

(** A loop in which the body works on one item only and keeps the
    traversal. *)
Lemma forEach_once_same (Acc : Type) (fl : bool) (treeOf : Acc -> VarTree)
      (body : Iterator -> Acc -> Acc * bool)
      (s s' : Acc) (p q : list Z) (a : Z) (fuel : nat) :
  ids (items fl (treeOf s)) = p ++ a :: q ->
  NoDup (p ++ a :: q) ->
  (forall j, In j p -> body (It j) s = (s, false)) ->
  body (It a) s = (s', false) ->
  ids (items fl (treeOf s')) = p ++ a :: q ->
  (forall j, In j q -> body (It j) s' = (s', false)) ->
  forEach (length p + S fuel) fl treeOf body (start fl (treeOf s)) s = s'.
Proof.
  intros E N Bp Ba E' Bq.
  rewrite start_head, head_it_ids, E.
  rewrite (forEach_skip_prefix Acc fl treeOf body s p [] (a :: q) (S fuel) E N Bp).
  cbn [head_id forEach Iterator_eqb]. rewrite Ba.
  rewrite (next_split fl (treeOf s') p q a) by (first [rewrite E'; exact N | exact E']).
  apply (forEach_noop_rest Acc fl treeOf body s' q (p ++ [a])).
  - rewrite <- app_assoc. exact E'.
  - rewrite <- app_assoc. exact N.
  - exact Bq.
Qed.

(** The Left key on a last selected item of the traversal that is not an
    expanded folder and is not of the first level: the item is unselected,
    and its parent is selected and becomes the last selected item, whether
    it takes part in the traversal or not (in flat mode it does not);
    [ensureVisible] is not called. *)
Theorem key_left_selects_parent (st : CtrlTree) (P Q : list VarTree) (A n : VarTree) :
  wf_tree (m_rTree st) ->
  items (flat st) (m_rTree st) = P ++ A :: Q ->
  m_pLastSelected st = Some (m_id A) ->
  isExpanded (m_rTree st) (It (m_id A))
  && negb (sizeAt (m_rTree st) (It (m_id A)) =? 0) = false ->
  parent (m_rTree st) (It (m_id A)) = NodeParent n ->
  handleNavigation st KEY_LEFT
  = (redraw
       (set_lastSelected
          (set_tree st
             (setSelected (setSelected (m_rTree st) (It (m_id A)) false)
                          (It (m_id n)) true))
          (Some (m_id n))),
     []).
Proof.
  intros W E L X Pa. unfold handleNavigation.
  pose proof (items_NoDup (flat st) _ W) as N.
  assert (Ei : ids (items (flat st) (m_rTree st)) = ids P ++ m_id A :: ids Q)
    by (rewrite E; unfold ids; rewrite map_app; reflexivity).
  assert (Len : length (items (flat st) (m_rTree st))
                = (length (ids P) + S (length (ids Q)))%nat).
  { pose proof (f_equal (@length Z) Ei) as Le. unfold ids in Le |- *.
    rewrite length_map, length_app in Le. exact Le. }
  rewrite Ei in N.
  set (t' := setSelected (setSelected (m_rTree st) (It (m_id A)) false) (It (m_id n)) true).
  assert (Loop : navLoop (length (items (flat st) (m_rTree st))) st KEY_LEFT
                 = mkNav t' (Some (m_id n)) false End false false []).
  { unfold navLoop. rewrite L, Len.
    apply (forEach_once_same NavState (flat st) nav_tree (navBody (flat st) KEY_LEFT)
             (mkNav (m_rTree st) (Some (m_id A)) false End false false [])
             (mkNav t' (Some (m_id n)) false End false false [])
             (ids P) (ids Q) (m_id A) (length (ids Q))).
    - exact Ei.
    - exact N.
    - intros j Hj. apply (navBody_elsewhere _ _ j (m_id A)); [left; reflexivity | reflexivity|].
      intros ->. destruct (NoDup_app_cons_notin _ _ _ N) as [Kp _]. exact (Kp Hj).
    - unfold navBody, navLeft. cbn [nav_tree nav_last ptrEq].
      rewrite Z.eqb_refl, X, Pa. reflexivity.
    - cbn [nav_tree]. unfold t'. rewrite !ids_items_setSelected. exact Ei.
    - intros j Hj. apply (navBody_elsewhere _ _ j (m_id n)); [left; reflexivity | reflexivity|].
      intros ->. exact (parent_not_after (flat st) _ P Q A n W E Pa Hj). }
  rewrite Loop. reflexivity.
Qed.

Lemma key_left_selects_parent_witness :
  marks (m_rTree (fst (handleNavigation
                         (Scenario.control false
                            [Scenario.folder 1 true
                               [Scenario.leaf 2; Scenario.selected (Scenario.leaf 3)];
                             Scenario.leaf 4]
                            (It 1) (Some 3))
                         KEY_LEFT)))
  = [(1, true); (2, false); (3, false); (4, false)]
  /\ m_pLastSelected (fst (handleNavigation
                             (Scenario.control false
                                [Scenario.folder 1 true
                                   [Scenario.leaf 2; Scenario.selected (Scenario.leaf 3)];
                                 Scenario.leaf 4]
                                (It 1) (Some 3))
                             KEY_LEFT))
     = Some 1.
Proof.
  rewrite (key_left_selects_parent
             (Scenario.control false
                [Scenario.folder 1 true
                   [Scenario.leaf 2; Scenario.selected (Scenario.leaf 3)];
                 Scenario.leaf 4]
                (It 1) (Some 3))
             [Scenario.folder 1 true
                [Scenario.leaf 2; Scenario.selected (Scenario.leaf 3)];
              Scenario.leaf 2]
             [Scenario.leaf 4]
             (Scenario.selected (Scenario.leaf 3))
             (Scenario.folder 1 true
                [Scenario.leaf 2; Scenario.selected (Scenario.leaf 3)])
             (distinct_NoDup [1; 2; 3; 4] eq_refl) eq_refl eq_refl eq_refl eq_refl).
  split; vm_compute; reflexivity.
Defined.

(** ** Right on an expanded folder *)

Lemma visible_segment (n : VarTree) :
  forall x, In x (visible n) -> exists P Q, visible n = P ++ visible x ++ Q.
Proof.
  induction n as [id s sel pl ex del cs IH] using VarTree_forall_ind.
  intros x Hx. rewrite visible_eq in Hx. cbn [m_expanded m_children] in Hx.
  destruct Hx as [<-|Hx].
  - exists [], []. rewrite app_nil_r. reflexivity.
  - destruct ex; [|contradiction].
    apply in_flat_map in Hx. destruct Hx as (c & Hc & Hx).
    rewrite Forall_forall in IH. destruct (IH c Hc x Hx) as (P & Q & E).
    destruct (in_split _ _ Hc) as (cs1 & cs2 & ->).
    exists (mkVarTree id s sel pl true del (cs1 ++ c :: cs2) :: flat_map visible cs1 ++ P),
      (Q ++ flat_map visible cs2).
    rewrite visible_eq. cbn [m_expanded m_children].
    rewrite flat_map_app. cbn [flat_map]. rewrite E.
    cbn [app]. rewrite <- !app_assoc. reflexivity.
Qed.

Lemma visItems_segment (t : VarTree) (x : VarTree) :
  In x (visItems t) -> exists P Q, visItems t = P ++ visible x ++ Q.
Proof.
  unfold visItems. intros Hx.
  apply in_flat_map in Hx. destruct Hx as (c & Hc & Hx).
  destruct (visible_segment c x Hx) as (P & Q & E).
  destruct (in_split _ _ Hc) as (cs1 & cs2 & ->).
  exists (flat_map visible cs1 ++ P), (Q ++ flat_map visible cs2).
  rewrite flat_map_app. cbn [flat_map]. rewrite E, <- !app_assoc. reflexivity.
Qed.

Lemma findIn_map (g : VarTree -> VarTree) (l : list VarTree) (i : Z) :
  (forall n, m_id (g n) = m_id n) ->
  findIn (map g l) i = option_map g (findIn l i).
Proof.
  intros G. induction l as [|x l IH]; [reflexivity|].
  cbn [map findIn find]. rewrite G. destruct (m_id x =? i); [reflexivity | exact IH].
Qed.

Lemma deref_reselectItems (f : Z -> bool -> bool) (t : VarTree) (it : Iterator) :
  deref (reselectItems f t) it = option_map (reselect f) (deref t it).
Proof.
  destruct it as [i|]; [|reflexivity]. unfold deref.
  rewrite nodes_reselectItems. apply findIn_map. intros n. rewrite reselect_eq. reflexivity.
Qed.

Lemma isExpanded_reselectItems (f : Z -> bool -> bool) (t : VarTree) (it : Iterator) :
  isExpanded (reselectItems f t) it = isExpanded t it.
Proof.
  unfold isExpanded, flagOf. rewrite deref_reselectItems.
  destruct (deref t it) as [n|]; [|reflexivity]. cbn [option_map].
  rewrite reselect_eq. reflexivity.
Qed.

Lemma sizeAt_reselectItems (f : Z -> bool -> bool) (t : VarTree) (it : Iterator) :
  sizeAt (reselectItems f t) it = sizeAt t it.
Proof.
  unfold sizeAt. rewrite deref_reselectItems.
  destruct (deref t it) as [n|]; [|reflexivity]. cbn [option_map].
  rewrite reselect_eq. unfold size. cbn [withChildren m_children].
  rewrite length_map. reflexivity.
Qed.

Lemma firstChild_reselectItems (f : Z -> bool -> bool) (t : VarTree) (it : Iterator) :
  firstChild (reselectItems f t) it = firstChild t it.
Proof.
  unfold firstChild. rewrite deref_reselectItems.
  destruct (deref t it) as [n|]; [|reflexivity]. cbn [option_map].
  rewrite reselect_eq. cbn [withChildren m_children].
  destruct (m_children n) as [|c cs]; [reflexivity|].
  cbn [map head_it]. rewrite reselect_eq. reflexivity.
Qed.

(** A loop in which the body works on two items that follow each other; on
    the second one it may change the traversal, as long as it keeps the item
    in it. *)
Lemma forEach_twice (Acc : Type) (fl : bool) (treeOf : Acc -> VarTree)
      (body : Iterator -> Acc -> Acc * bool)
      (s s1 s2 : Acc) (p q : list Z) (a b : Z) (fuel : nat) :
  ids (items fl (treeOf s)) = p ++ a :: b :: q ->
  NoDup (p ++ a :: b :: q) ->
  (forall j, In j p -> body (It j) s = (s, false)) ->
  body (It a) s = (s1, false) ->
  ids (items fl (treeOf s1)) = p ++ a :: b :: q ->
  body (It b) s1 = (s2, false) ->
  NoDup (ids (items fl (treeOf s2))) ->
  In b (ids (items fl (treeOf s2))) ->
  (forall j, j <> b -> body (It j) s2 = (s2, false)) ->
  forEach (length p + S (S fuel)) fl treeOf body (start fl (treeOf s)) s = s2.
Proof.
  intros E N Bp Ba E1 Bb N2 I2 Br.
  rewrite start_head, head_it_ids, E.
  rewrite (forEach_skip_prefix Acc fl treeOf body s p [] (a :: b :: q) (S (S fuel)) E N Bp).
  cbn [head_id forEach Iterator_eqb]. rewrite Ba.
  rewrite (next_split fl (treeOf s1) p (b :: q) a)
    by (first [rewrite E1; exact N | exact E1]).
  cbn [head_id forEach Iterator_eqb]. rewrite Bb.
  destruct (in_split _ _ I2) as (p' & q' & E').
  rewrite (next_split fl (treeOf s2) p' q' b N2 E').
  rewrite E' in N2.
  apply (forEach_noop_rest Acc fl treeOf body s2 q' (p' ++ [b])).
  - rewrite <- app_assoc. exact E'.
  - rewrite <- app_assoc. exact N2.
  - intros j Hj. apply Br. intros ->.
    destruct (NoDup_app_cons_notin _ _ _ N2) as [_ K]. exact (K Hj).
Qed.

(** The Right key in hierarchical mode on a last selected item of the
    traversal that is an expanded folder: the selection moves to its first
    child, which becomes the last selected item, and the same pass of the
    loop then reaches that child and treats it as the last selected item:
    it unfolds the child if it is not expanded, and runs its action if it is
    expanded and has no children. *)
Theorem key_right_descends (st : CtrlTree) (A B : VarTree) (cs : list VarTree) :
  wf_tree (m_rTree st) ->
  flat st = false ->
  In A (items (flat st) (m_rTree st)) ->
  m_pLastSelected st = Some (m_id A) ->
  m_expanded A = true ->
  m_children A = B :: cs ->
  m_expanded B && negb (size B =? 0) = false ->
  handleNavigation st KEY_RIGHT
  = if m_expanded B
    then (redraw
            (set_lastSelected
               (set_tree st
                  (setSelected (setSelected (m_rTree st) (It (m_id A)) false)
                               (It (m_id B)) true))
               (Some (m_id B))),
          [m_id B])
    else (fixPosition
            (redraw
               (set_lastSelected
                  (set_tree st
                     (setExpanded
                        (setSelected (setSelected (m_rTree st) (It (m_id A)) false)
                                     (It (m_id B)) true)
                        (It (m_id B)) true))
                  (Some (m_id B)))),
          []).
Proof.
  intros W Fl HA L XA CA XB.
  pose proof (items_NoDup (flat st) _ W) as N.
  assert (HAn : In A (nodes (m_rTree st)))
    by (apply (subseq_In _ _ _ (items_subseq (flat st) _)); exact HA).
  assert (HBn : In B (nodes (m_rTree st))).
  { apply (children_in_forest _ A B HAn). rewrite CA. left; reflexivity. }
  assert (DA : deref (m_rTree st) (It (m_id A)) = Some A) by (apply findIn_In; assumption).
  assert (DB : deref (m_rTree st) (It (m_id B)) = Some B) by (apply findIn_In; assumption).
  (* the folder and its first child in the traversal *)
  assert (Seg : exists P Q, items (flat st) (m_rTree st) = P ++ A :: B :: Q).
  { rewrite Fl in HA |- *. cbn [items] in HA |- *.
    destruct (visItems_segment _ A HA) as (P & Q & E).
    rewrite visible_eq, XA, CA in E. cbn [flat_map] in E.
    rewrite (visible_eq B) in E. cbn [app] in E.
    exists P. eexists. rewrite E. cbn [app]. rewrite <- !app_assoc. reflexivity. }
  destruct Seg as (P & Q & E).
  assert (Ei : ids (items (flat st) (m_rTree st)) = ids P ++ m_id A :: m_id B :: ids Q)
    by (rewrite E; unfold ids; rewrite map_app; reflexivity).
  assert (Len : length (items (flat st) (m_rTree st))
                = (length (ids P) + S (S (length (ids Q))))%nat).
  { pose proof (f_equal (@length Z) Ei) as Le. unfold ids in Le |- *.
    rewrite length_map, length_app in Le. exact Le. }
  rewrite Ei in N.
  set (t1 := setSelected (setSelected (m_rTree st) (It (m_id A)) false) (It (m_id B)) true).
  set (s0 := mkNav (m_rTree st) (Some (m_id A)) false End false false []).
  set (s1 := mkNav t1 (Some (m_id B)) false End false false []).
  assert (T1 : t1 = reselectItems
                      (fun j sel => if j =? m_id B then true
                                    else if j =? m_id A then false else sel)
                      (m_rTree st)).
  { unfold t1. rewrite !setSelected_reselect, reselectItems_compose. reflexivity. }
  assert (Ba : navBody (flat st) KEY_RIGHT (It (m_id A)) s0 = (s1, false)).
  { unfold navBody, navRight, s0. cbn [nav_tree nav_last ptrEq].
    rewrite Z.eqb_refl. unfold isExpanded, flagOf, sizeAt. rewrite DA, XA.
    unfold size. rewrite CA. cbn [length negb Z.of_nat Z.eqb Pos.of_succ_nat].
    assert (FC : firstChild (setSelected (m_rTree st) (It (m_id A)) false) (It (m_id A))
                 = It (m_id B)).
    { rewrite setSelected_reselect, firstChild_reselectItems.
      unfold firstChild. rewrite DA, CA. reflexivity. }
    assert (FC2 : firstChild (setSelected (setSelected (m_rTree st) (It (m_id A)) false)
                                          (It (m_id B)) true) (It (m_id A))
                  = It (m_id B)).
    { rewrite !setSelected_reselect, reselectItems_compose, firstChild_reselectItems.
      unfold firstChild. rewrite DA, CA. reflexivity. }
    rewrite FC, FC2. reflexivity. }
  assert (I1 : ids (items (flat st) t1) = ids P ++ m_id A :: m_id B :: ids Q)
    by (unfold t1; rewrite !ids_items_setSelected; exact Ei).
  assert (Prefix : forall j, In j (ids P) ->
                             navBody (flat st) KEY_RIGHT (It j) s0 = (s0, false)).
  { intros j Hj. apply (navBody_elsewhere _ _ j (m_id A)); [right; reflexivity | reflexivity|].
    intros ->. destruct (NoDup_app_cons_notin _ _ _ N) as [Kp _]. exact (Kp Hj). }
  assert (X1 : isExpanded t1 (It (m_id B)) = m_expanded B).
  { rewrite T1, isExpanded_reselectItems. unfold isExpanded, flagOf. rewrite DB. reflexivity. }
  assert (S1 : sizeAt t1 (It (m_id B)) = size B).
  { rewrite T1, sizeAt_reselectItems. unfold sizeAt. rewrite DB. reflexivity. }
  unfold handleNavigation.
  destruct (m_expanded B) eqn:EB.
  - (* the child is expanded and has no children: its action *)
    cbn [andb] in XB. apply negb_false_iff in XB.
    assert (Loop : navLoop (length (items (flat st) (m_rTree st))) st KEY_RIGHT
                   = nav_action s1 (It (m_id B))).
    { unfold navLoop. rewrite L, Len.
      apply (forEach_twice NavState (flat st) nav_tree (navBody (flat st) KEY_RIGHT)
               s0 s1 (nav_action s1 (It (m_id B)))
               (ids P) (ids Q) (m_id A) (m_id B) (length (ids Q))).
      - exact Ei.
      - exact N.
      - exact Prefix.
      - exact Ba.
      - exact I1.
      - unfold navBody, navRight, s1. cbn [nav_tree nav_last ptrEq].
        rewrite Z.eqb_refl, X1, S1, XB. reflexivity.
      - cbn [nav_action s1 nav_tree]. rewrite I1. exact N.
      - cbn [nav_action s1 nav_tree]. rewrite I1.
        apply in_or_app; right; right; left; reflexivity.
      - intros j Hj. apply (navBody_elsewhere _ _ j (m_id B));
          [right; reflexivity | reflexivity | exact Hj]. }
    rewrite Loop. reflexivity.
  - (* the child is not expanded: it is unfolded *)
    assert (Loop : navLoop (length (items (flat st) (m_rTree st))) st KEY_RIGHT
                   = nav_setChanged
                       (nav_setTree s1 (setExpanded t1 (It (m_id B)) true))).
    { unfold navLoop. rewrite L, Len.
      apply (forEach_twice NavState (flat st) nav_tree (navBody (flat st) KEY_RIGHT)
               s0 s1 (nav_setChanged (nav_setTree s1 (setExpanded t1 (It (m_id B)) true)))
               (ids P) (ids Q) (m_id A) (m_id B) (length (ids Q))).
      - exact Ei.
      - exact N.
      - exact Prefix.
      - exact Ba.
      - exact I1.
      - unfold navBody, navRight, s1. cbn [nav_tree nav_last ptrEq].
        rewrite Z.eqb_refl, X1. reflexivity.
      - cbn [nav_setChanged nav_setTree nav_tree].
        apply items_NoDup, setExpanded_wf. unfold t1.
        apply setSelected_wf, setSelected_wf, W.
      - cbn [nav_setChanged nav_setTree nav_tree]. apply item_stays. rewrite I1.
        apply in_or_app; right; right; left; reflexivity.
      - intros j Hj. apply (navBody_elsewhere _ _ j (m_id B));
          [right; reflexivity | reflexivity | exact Hj]. }
    rewrite Loop. reflexivity.
Qed.

Lemma key_right_descends_witness :
  marks (m_rTree (fst (handleNavigation (folderControl true) KEY_RIGHT)))
  = [(1, false); (2, true); (3, false); (4, false)]
  /\ isExpanded (m_rTree (fst (handleNavigation (folderControl true) KEY_RIGHT))) (It 2)
     = true
  /\ m_pLastSelected (fst (handleNavigation (folderControl true) KEY_RIGHT)) = Some 2.
Proof.
  rewrite (key_right_descends (folderControl true)
             (Scenario.selected
                (Scenario.folder 1 true [Scenario.leaf 2; Scenario.leaf 3]))
             (Scenario.leaf 2) [Scenario.leaf 3]
             (distinct_NoDup [1; 2; 3; 4] eq_refl) eq_refl (or_introl eq_refl)
             eq_refl eq_refl eq_refl eq_refl).
  repeat split; vm_compute; reflexivity.
Defined.

(** *** Up and down without a last selected item *)

Lemma navDown_none (fl : bool) (it : Iterator) (s : NavState) :
  ptrEq it (nav_last s) = false -> nav_previousWasSelected s = false ->
  navDown fl it s = nav_setTree s (setSelected (nav_tree s) it false).
Proof.
  intros E P. unfold navDown. rewrite E, orb_true_r.
  cbn [nav_setTree nav_previousWasSelected nav_setPrevious nav_last nav_tree].
  rewrite P.
  cbn [nav_setTree nav_previousWasSelected nav_setPrevious nav_last nav_tree].
  rewrite E, andb_false_r. destruct s; cbn in *; subst; reflexivity.
Qed.

Lemma navUp_none (fl : bool) (it : Iterator) (s : NavState) :
  (forall x, ptrEq x (nav_last s) = false) ->
  navUp fl it s = nav_setTree s (setSelected (nav_tree s) it false).
Proof.
  intros E. unfold navUp. rewrite !E. rewrite orb_true_r. reflexivity.
Qed.

Lemma fold_nav_lost (fl : bool) (key : NavKey) (l : list Z) :
  key = KEY_UP \/ key = KEY_DOWN ->
  forall s : NavState,
    (forall x, ptrEq x (nav_last s) = false) ->
    nav_previousWasSelected s = false ->
    fold_left (fun s j => fst (navBody fl key (It j) s)) l s
    = nav_setTree s (reselectItems (fun j sel => if existsb (Z.eqb j) l then false else sel)
                                   (nav_tree s)).
Proof.
  intros K. induction l as [|j l IH]; intros s E P.
  - cbn [fold_left existsb]. rewrite reselectItems_same by reflexivity.
    symmetry; apply nav_setTree_same.
  - cbn [fold_left].
    assert (B : fst (navBody fl key (It j) s)
                = nav_setTree s (setSelected (nav_tree s) (It j) false)).
    { destruct K as [ -> | -> ]; cbn [navBody fst];
        [apply navUp_none; exact E | apply navDown_none; [apply E | exact P]]. }
    rewrite B, IH; [| exact E | exact P].
    change (nav_tree (nav_setTree s (setSelected (nav_tree s) (It j) false)))
      with (setSelected (nav_tree s) (It j) false).
    change (nav_setTree (nav_setTree s (setSelected (nav_tree s) (It j) false)))
      with (nav_setTree s).
    apply (f_equal (nav_setTree s)).
    rewrite setSelected_reselect, reselectItems_compose.
    apply reselectItems_ext. intros k sel. cbn [existsb].
    destruct (Z.eqb_spec k j); cbn [orb]; destruct (existsb (Z.eqb k) l); reflexivity.
Qed.

(** Up and Down without a last selected item: every item of the traversal is
    unselected, none is selected, and [m_pLastSelected] stays null. *)
Theorem key_up_down_without_last (st : CtrlTree) (key : NavKey) :
  key = KEY_UP \/ key = KEY_DOWN ->
  wf_tree (m_rTree st) ->
  m_pLastSelected st = None ->
  handleNavigation st key
  = (redraw
       (set_tree st
          (reselectItems
             (fun j sel =>
                if existsb (Z.eqb j) (ids (items (flat st) (m_rTree st)))
                then false else sel)
             (m_rTree st))),
     []).
Proof.
  intros K W L. unfold handleNavigation.
  rewrite navLoop_runList by (tauto || exact W).
  rewrite L, (fold_nav_lost (flat st) key _ K).
  - unfold navFinish.
    cbn [nav_setTree nav_tree nav_last nav_needShow nav_toShow nav_changed nav_actions].
    rewrite (set_lastSelected_same st _ _ L). reflexivity.
  - intros x. destruct x; reflexivity.
  - reflexivity.
Qed.

Lemma key_up_down_without_last_witness :
  marks (m_rTree (fst (handleNavigation
                         (Scenario.control true
                            [Scenario.leaf 1; Scenario.selected (Scenario.leaf 2)]
                            (It 1) None)
                         KEY_DOWN)))
  = [(1, false); (2, false)].
Proof.
  rewrite (key_up_down_without_last
             (Scenario.control true
                [Scenario.leaf 1; Scenario.selected (Scenario.leaf 2)] (It 1) None)
             KEY_DOWN (or_intror eq_refl) (distinct_NoDup [1; 2] eq_refl) eq_refl).
  vm_compute. reflexivity.
Defined.
